(** * README mining pipeline of pip-package-readme-mcp-server

    A shallow embedding of the documentation-mining code of the server:
    - [ReadmeContentCleaner], [ExampleExtractor], [ExampleProcessor] and
      [ReadmeService] (src/services/readme/*.ts), the pipeline wired into
      [PackageReadmeService];
    - [ReadmeParser] (src/services/readme-parser.ts), the older single-class
      implementation of the same pipeline.

    JavaScript strings are sequences of UTF-16 code units.  They are modelled
    as [list ascii]: every character below is a code unit in the range
    0..255 (Basic Latin and Latin-1 Supplement), on which the character
    classes [\s], [\w], [\d], [.] and the case mappings are the ECMAScript
    ones.  Regular expressions are embedded as syntax trees run by a small
    backtracking matcher that returns the candidate matches in the order in
    which a backtracking engine tries them. *)

From Stdlib Require Import Ascii String Bool Arith NArith ZArith Lia List.
From Stdlib Require Import Sorted Permutation.
Import ListNotations.

Set Implicit Arguments.

(** ** JavaScript string primitives *)

Module JS.

Definition str := list ascii.

(** String literals of the source are written [L "..."]. *)
Definition L (s : string) : str := list_ascii_of_string s.

Definition LF : ascii := "010"%char.
Definition CR : ascii := "013"%char.
Definition TAB : ascii := "009"%char.
Definition DQUOTE : ascii := "034"%char.
Definition SQUOTE : ascii := "039"%char.

Definition cu (c : ascii) : N := N_of_ascii c.

Definition between (lo hi : N) (c : ascii) : bool :=
  ((lo <=? cu c) && (cu c <=? hi))%N.

Definition isChar (a : ascii) (c : ascii) : bool := Ascii.eqb c a.

(** LineTerminator: LF and CR (U+2028 and U+2029 lie outside the range). *)
Definition isLineTerminator (c : ascii) : bool := isChar LF c || isChar CR c.

(** [\s]: TAB, LF, VT, FF, CR, SP and NBSP. *)
Definition isSpace (c : ascii) : bool :=
  between 9 13 c || isChar " " c || (cu c =? 160)%N.

(** [\d] and [\w]. *)
Definition isDigit (c : ascii) : bool := between 48 57 c.
Definition isWord (c : ascii) : bool :=
  between 97 122 c || between 65 90 c || isDigit c || isChar "_" c.

(** [.] without the s flag: any code unit but a line terminator. *)
Definition isDot (c : ascii) : bool := negb (isLineTerminator c).
Definition anyChar (c : ascii) : bool := true.

(** [String.prototype.toLowerCase], one code unit at a time: A-Z, and the
    Latin-1 capitals U+00C0..U+00DE except the multiplication sign. *)
Definition lowerChar (c : ascii) : ascii :=
  if between 65 90 c || between 192 214 c || between 216 222 c
  then ascii_of_N (cu c + 32) else c.

Definition toLowerCase (s : str) : str := map lowerChar s.

(** [String.prototype.toUpperCase] of one code unit.  U+00DF becomes "SS".
    The capitals of U+00B5 and U+00FF lie outside the range; these two
    letters are left as they are. *)
Definition upperChar (c : ascii) : str :=
  if between 97 122 c || between 224 246 c || between 248 254 c
  then [ascii_of_N (cu c - 32)]
  else if (cu c =? 223)%N then L "SS" else [c].

Fixpoint eqStr (a b : str) : bool :=
  match a, b with
  | [], [] => true
  | x :: a', y :: b' => Ascii.eqb x y && eqStr a' b'
  | _, _ => false
  end.

(** [s.startsWith(p)] *)
Fixpoint startsWith (s p : str) : bool :=
  match p, s with
  | [], _ => true
  | x :: p', y :: s' => Ascii.eqb y x && startsWith s' p'
  | _ :: _, [] => false
  end.

(** [s.includes(p)] *)
Fixpoint includes (s p : str) : bool :=
  startsWith s p ||
  match s with
  | [] => false
  | _ :: s' => includes s' p
  end.

Fixpoint dropWhile (p : ascii -> bool) (s : str) : str :=
  match s with
  | [] => []
  | c :: s' => if p c then dropWhile p s' else s
  end.

(** [String.prototype.trim]: strips WhiteSpace and LineTerminator code
    units, which together are the class [\s]. *)
Definition trimStart (s : str) : str := dropWhile isSpace s.
Definition trimEnd (s : str) : str := rev (dropWhile isSpace (rev s)).
Definition trim (s : str) : str := trimEnd (trimStart s).

(** [s.split(sep)] for a one-character separator. *)
Fixpoint split (sep : ascii) (s : str) : list str :=
  match s with
  | [] => [[]]
  | c :: s' =>
      if Ascii.eqb c sep then [] :: split sep s'
      else match split sep s' with
           | l :: ls => (c :: l) :: ls
           | [] => [[c]]
           end
  end.

(** [parts.join(sep)] *)
Fixpoint join (sep : str) (parts : list str) : str :=
  match parts with
  | [] => []
  | [p] => p
  | p :: ps => p ++ sep ++ join sep ps
  end.

(** [a || b] on strings: the empty string is falsy. *)
Definition orElse (a b : str) : str :=
  match a with
  | [] => b
  | _ => a
  end.

(** [array.includes(x)] for an array of strings. *)
Definition memStr (x : str) (l : list str) : bool := existsb (eqStr x) l.

End JS.

Import JS.

(** ** Regular expressions

    The constructs the source's patterns use: character classes, sequence,
    alternation, greedy and lazy repetition [{lo,}] of a character class,
    the anchors (with or without the m flag) and one capture group. *)

Module Regex.

Inductive regex : Type :=
| Eps
| Chr (p : ascii -> bool)
| Seq (a b : regex)
| Alt (a b : regex)
| Rep (greedy : bool) (lo : nat) (p : ascii -> bool)
| Bol (multiline : bool)
| Eol (multiline : bool)
| Grp (a : regex).

(** A position in the subject: the code unit before it (if any), the text
    after it, and what group 1 has captured so far. *)
Record pos : Type := mkPos { prev : option ascii; rest : str; cap : option str }.

Definition start (pv : option ascii) (s : str) : pos := mkPos pv s None.

(** [p{lo,}] (greedy) or [p{lo,}?] (lazy) from a position. *)
Fixpoint rep (greedy : bool) (p : ascii -> bool) (lo : nat)
         (pv : option ascii) (s : str) (cp : option str) {struct s} : list pos :=
  let stop := match lo with
              | O => [mkPos pv s cp]
              | S _ => []
              end in
  let more := match s with
              | c :: s' => if p c then rep greedy p (pred lo) (Some c) s' cp else []
              | [] => []
              end in
  if greedy then more ++ stop else stop ++ more.

Definition atLineStart (multiline : bool) (x : pos) : bool :=
  match prev x with
  | None => true
  | Some c => multiline && isLineTerminator c
  end.

Definition atLineEnd (multiline : bool) (x : pos) : bool :=
  match rest x with
  | [] => true
  | c :: _ => multiline && isLineTerminator c
  end.

(** The text between two positions of the same subject. *)
Definition consumed (x y : pos) : str :=
  firstn (length (rest x) - length (rest y)) (rest x).

(** All ways for [r] to match at [x], best first. *)
Fixpoint matches (r : regex) (x : pos) : list pos :=
  match r with
  | Eps => [x]
  | Chr p =>
      match rest x with
      | c :: s' => if p c then [mkPos (Some c) s' (cap x)] else []
      | [] => []
      end
  | Seq a b => flat_map (matches b) (matches a x)
  | Alt a b => matches a x ++ matches b x
  | Rep g lo p => rep g p lo (prev x) (rest x) (cap x)
  | Bol m => if atLineStart m x then [x] else []
  | Eol m => if atLineEnd m x then [x] else []
  | Grp a =>
      map (fun y => mkPos (prev y) (rest y) (Some (consumed x y))) (matches a x)
  end.

(** A literal string. *)
Fixpoint lit (s : str) : regex :=
  match s with
  | [] => Eps
  | [c] => Chr (isChar c)
  | c :: s' => Seq (Chr (isChar c)) (lit s')
  end.

(** [a b c ...] in sequence. *)
Fixpoint cat (rs : list regex) : regex :=
  match rs with
  | [] => Eps
  | [r] => r
  | r :: rs' => Seq r (cat rs')
  end.

Definition matchAt (r : regex) (x : pos) : option pos := hd_error (matches r x).

(** One match: its text and its group 1. *)
Record found : Type := mkFound { text : str; group1 : option str }.

Definition foundAt (x y : pos) : found := mkFound (consumed x y) (cap y).

(** [r.exec(s)] / [s.match(r)] without the g flag: the leftmost match. *)
Fixpoint execFrom (r : regex) (pv : option ascii) (s : str) : option found :=
  match matchAt r (start pv s) with
  | Some y => Some (foundAt (start pv s) y)
  | None =>
      match s with
      | [] => None
      | c :: s' => execFrom r (Some c) s'
      end
  end.

Definition exec (r : regex) (s : str) : option found := execFrom r None s.

(** [r.test(s)] *)
Definition test (r : regex) (s : str) : bool :=
  match exec r s with
  | Some _ => true
  | None => false
  end.

(** [s.replace(r, f)] without the g flag. *)
Fixpoint replaceFirstFrom (r : regex) (f : found -> str)
         (pv : option ascii) (s : str) : str :=
  match matchAt r (start pv s) with
  | Some y => f (foundAt (start pv s) y) ++ rest y
  | None =>
      match s with
      | [] => []
      | c :: s' => c :: replaceFirstFrom r f (Some c) s'
      end
  end.

Definition replaceFirst (r : regex) (f : found -> str) (s : str) : str :=
  replaceFirstFrom r f None s.

(** The scan of a pattern with the g flag.  After a match the scan resumes
    where the match ended; after an empty match it steps over one code
    unit.  [fuel] bounds the number of steps; the length of the subject
    plus one is always enough. *)
Fixpoint replaceAllFrom (r : regex) (f : found -> str) (fuel : nat)
         (pv : option ascii) (s : str) : str :=
  match fuel with
  | O => s
  | S fuel' =>
      match matchAt r (start pv s) with
      | Some y =>
          f (foundAt (start pv s) y) ++
          (if length (rest y) <? length s
           then replaceAllFrom r f fuel' (prev y) (rest y)
           else match s with
                | [] => []
                | c :: s' => c :: replaceAllFrom r f fuel' (Some c) s'
                end)
      | None =>
          match s with
          | [] => []
          | c :: s' => c :: replaceAllFrom r f fuel' (Some c) s'
          end
      end
  end.

Definition replaceAllAt (r : regex) (f : found -> str)
           (pv : option ascii) (s : str) : str :=
  replaceAllFrom r f (S (length s)) pv s.

(** [s.replace(r, f)] with the g flag. *)
Definition replaceAll (r : regex) (f : found -> str) (s : str) : str :=
  replaceAllAt r f None s.

Fixpoint matchAllFrom (r : regex) (fuel : nat) (pv : option ascii) (s : str)
  : list found :=
  match fuel with
  | O => []
  | S fuel' =>
      match matchAt r (start pv s) with
      | Some y =>
          foundAt (start pv s) y ::
          (if length (rest y) <? length s
           then matchAllFrom r fuel' (prev y) (rest y)
           else match s with
                | [] => []
                | c :: s' => matchAllFrom r fuel' (Some c) s'
                end)
      | None =>
          match s with
          | [] => []
          | c :: s' => matchAllFrom r fuel' (Some c) s'
          end
      end
  end.

(** [s.matchAll(r)], [s.match(r)] with the g flag, and the loop
    [while ((m = r.exec(s)) !== null)] over a pattern that cannot match
    the empty string. *)
Definition matchAll (r : regex) (s : str) : list found :=
  matchAllFrom r (S (length s)) None s.

(** Replacement by a constant string and by [$1]. *)
Definition const (w : str) (m : found) : str := w.
Definition dollar1 (m : found) : str :=
  match group1 m with
  | Some g => g
  | None => []
  end.

End Regex.

Import Regex.

(** ** Exceptions

    A [try] block either completes with a value or throws; [guarded] is
    [try { ... } catch (error) { return handler }].  The logger calls of the
    source only write to the console and are left out. *)

Inductive completion (A : Type) : Type :=
| Normal (a : A)
| Throw.

Arguments Normal {A} a.
Arguments Throw {A}.

Definition guarded {A : Type} (tryBlock : completion A) (handler : A) : A :=
  match tryBlock with
  | Normal a => a
  | Throw => handler
  end.

(** ** config/constants.ts and types/index.ts *)

Module README_CONFIG.
Definition MIN_CODE_BLOCK_LENGTH : nat := 10.
Definition MAX_CODE_BLOCK_LENGTH : nat := 5000.
Definition IDEAL_EXAMPLE_LENGTH : nat := 200.
Definition MAX_EXAMPLES : nat := 20.
Definition MAX_KEYWORDS : nat := 10.
End README_CONFIG.

Record UsageExample : Type := mkExample {
  title : str;
  description : option str;
  code : str;
  language : str
}.

(** ** services/readme/readme-content-cleaner.ts *)

Module ReadmeContentCleaner.

(** [/\n{3,}/g] *)
Definition reBlankLines : regex := Rep true 3 (isChar LF).

(** [/[ \t]+$/gm] *)
Definition isBlank (c : ascii) : bool := isChar " " c || isChar TAB c.
Definition reTrailing : regex := Seq (Rep true 1 isBlank) (Eol true).

(** [/\r\n/g] *)
Definition reCRLF : regex := lit [CR; LF].

(** [/<!--[\s\S]*?-->/g] *)
Definition reComment : regex :=
  cat [lit (L "<!--"); Rep false 0 anyChar; lit (L "-->")].

(** [/^\s*[-*_]{3,}\s*$/gm] *)
Definition isRuleChar (c : ascii) : bool :=
  isChar "-" c || isChar "*" c || isChar "_" c.
Definition reRule : regex :=
  cat [Bol true; Rep true 0 isSpace; Rep true 3 isRuleChar;
       Rep true 0 isSpace; Eol true].

(** [/\|[\s\-:|]+\|/g] and, inside its replacer, [/\s+/g] *)
Definition isTableChar (c : ascii) : bool :=
  isSpace c || isChar "-" c || isChar ":" c || isChar "|" c.
Definition reTable : regex :=
  cat [Chr (isChar "|"); Rep true 1 isTableChar; Chr (isChar "|")].
Definition reSpaces : regex := Rep true 1 isSpace.

(** [/ \[ ( [^\]]* ) \] \( \s* \) /g], its parts set apart by spaces *)
Definition reEmptyLink : regex :=
  cat [Chr (isChar "["); Grp (Rep true 0 (fun c => negb (isChar "]" c)));
       Chr (isChar "]"); Chr (isChar "("); Rep true 0 isSpace;
       Chr (isChar ")")].

Definition cleanMarkdownArtifacts (content : str) : str :=
  (* Remove excessive horizontal rules *)
  let cleaned := replaceAll reRule (const (L "---")) content in
  (* Clean up table formatting *)
  let cleaned :=
    replaceAll reTable
      (fun m => replaceAll reSpaces (const (L " ")) (text m)) cleaned in
  (* Remove empty links *)
  let cleaned := replaceAll reEmptyLink dollar1 cleaned in
  cleaned.

(** The body of the [try] block.  [content] is a string, so the guard
    [!content || typeof content !== 'string'] is the test for the empty
    string; no step of the block throws on a string. *)
Definition cleanSteps (content : str) : completion str :=
  match content with
  | [] => Normal []
  | _ =>
      let cleaned := content in
      (* Remove excessive whitespace *)
      let cleaned := replaceAll reBlankLines (const [LF; LF]) cleaned in
      (* Remove trailing whitespace from lines *)
      let cleaned := replaceAll reTrailing (const []) cleaned in
      (* Normalize line endings *)
      let cleaned := replaceAll reCRLF (const [LF]) cleaned in
      (* Remove HTML comments *)
      let cleaned := replaceAll reComment (const []) cleaned in
      (* Clean up markdown artifacts *)
      let cleaned := cleanMarkdownArtifacts cleaned in
      Normal (trim cleaned)
  end.

(** [try { tryBlock } catch (error) { return content || '' }] *)
Definition cleanReadmeContentOf (tryBlock : str -> completion str)
           (content : str) : str :=
  guarded (tryBlock content) (orElse content []).

Definition cleanReadmeContent (content : str) : str :=
  cleanReadmeContentOf cleanSteps content.

End ReadmeContentCleaner.

(** ** services/readme/example-extractor.ts *)

Module ExampleExtractor.

Import README_CONFIG.

Definition BACKTICK : ascii := "`"%char.
Definition FENCE : str := [BACKTICK; BACKTICK; BACKTICK].

(** [/^#+\s/] and [/^#+\s*/] *)
Definition reHeading : regex :=
  cat [Bol false; Rep true 1 (isChar "#"); Chr isSpace].
Definition reHeadingMark : regex :=
  cat [Bol false; Rep true 1 (isChar "#"); Rep true 0 isSpace].

(** [/^```(\w+)/] *)
Definition reFenceLang : regex :=
  cat [Bol false; lit FENCE; Grp (Rep true 1 isWord)].

(** [/`([^`]+)`/g] *)
Definition reInlineCode : regex :=
  cat [Chr (isChar BACKTICK);
       Grp (Rep true 1 (fun c => negb (isChar BACKTICK c)));
       Chr (isChar BACKTICK)].

(** [/^\w+\.\w+\(/] *)
Definition reCallAtStart : regex :=
  cat [Bol false; Rep true 1 isWord; Chr (isChar ".");
       Rep true 1 isWord; Chr (isChar "(")].

Definition extractLanguage (codeFenceLine : str) : str :=
  match exec reFenceLang codeFenceLine with
  | Some m => toLowerCase (dollar1 m)
  | None => L "python"
  end.

Definition isUsageSection (sectionName : str) : bool :=
  let usageKeywords :=
    [L "usage"; L "example"; L "quickstart"; L "getting started";
     L "how to"; L "tutorial"] in
  existsb (fun keyword => includes sectionName keyword) usageKeywords.

Definition isRelevantLanguage (language : str) : bool :=
  let relevantLanguages :=
    [L "python"; L "py"; L "bash"; L "shell"; L "sh"; L "text"; []] in
  memStr (toLowerCase language) relevantLanguages.

Definition isOutputOnly (code : str) : bool :=
  (* Check if it's likely output (no Python keywords, just results) *)
  let pythonKeywords :=
    [L "import"; L "from"; L "def"; L "class"; L "if"; L "for";
     L "while"; L "try"; L "with"; L "="] in
  negb (existsb (fun keyword => includes code keyword) pythonKeywords).

Definition hasUsageIndicators (code language section : str) : bool :=
  (* Check for import statements *)
  if includes code (L "import ") || includes code (L "from ") then true
  (* Check if in usage section *)
  else if isUsageSection section then true
  (* Check for assignment or function calls *)
  else if includes code (L "=") && negb (includes code (L "==")) then true
  else false.

Definition isLikelyUsageExample (code language section : str) : bool :=
  let trimmedCode := trim code in
  if (length trimmedCode <? MIN_CODE_BLOCK_LENGTH)
     || (MAX_CODE_BLOCK_LENGTH <? length trimmedCode) then false
  else if negb (eqStr language []) && negb (isRelevantLanguage language) then false
  else if isOutputOnly trimmedCode then false
  else hasUsageIndicators trimmedCode language section.

Definition isSimpleUsageExample (code : str) : bool :=
  includes code (L "import ")
  || (includes code (L "=") && negb (includes code (L "==")))
  || test reCallAtStart code.

(** [word.charAt(0).toUpperCase() + word.slice(1)] *)
Definition capitalize (word : str) : str :=
  match word with
  | [] => []
  | c :: w => upperChar c ++ w
  end.

Definition formatTitle (section : str) : str :=
  join (L " ") (map capitalize (split " " section)).

(** The local variables of [extractBlockExamples]. *)
Record blockState : Type := mkBlockState {
  examples : list UsageExample;
  currentSection : str;
  inCodeBlock : bool;
  currentCodeBlock : str;
  currentLanguage : str
}.

Definition initialState : blockState := mkBlockState [] [] false [] [].

(** One iteration of the loop over the lines. *)
Definition blockStep (st : blockState) (line : str) : blockState :=
  let trimmedLine := trim line in
  (* Detect section headers *)
  let section :=
    if test reHeading trimmedLine
    then toLowerCase (replaceFirst reHeadingMark (const []) trimmedLine)
    else currentSection st in
  (* Detect code block start/end *)
  if startsWith trimmedLine FENCE then
    if negb (inCodeBlock st) then
      (* Starting a code block *)
      mkBlockState (examples st) section true [] (extractLanguage trimmedLine)
    else
      (* Ending a code block *)
      let pushed :=
        if isLikelyUsageExample (currentCodeBlock st) (currentLanguage st) section
        then examples st ++
             [mkExample (orElse (formatTitle section) (L "Code Example"))
                        None
                        (trim (currentCodeBlock st))
                        (orElse (currentLanguage st) (L "python"))]
        else examples st in
      mkBlockState pushed section false [] (currentLanguage st)
  else if inCodeBlock st then
    mkBlockState (examples st) section true
                 (currentCodeBlock st ++ line ++ [LF]) (currentLanguage st)
  else
    mkBlockState (examples st) section false
                 (currentCodeBlock st) (currentLanguage st).

Definition blockLoop (lines : list str) (st : blockState) : blockState :=
  fold_left blockStep lines st.

Definition extractBlockExamples (readmeContent : str) : list UsageExample :=
  let lines := split LF readmeContent in
  examples (blockLoop lines initialState).

(** The body of the [while] loop over the matches of the inline pattern. *)
Definition inlineStep (acc : list UsageExample) (m : found) : list UsageExample :=
  let code := trim (dollar1 m) in
  if isSimpleUsageExample code
  then acc ++ [mkExample (L "Quick Example") None code (L "python")]
  else acc.

Definition extractInlineExamples (content : str) : list UsageExample :=
  fold_left inlineStep (matchAll reInlineCode content) [].

Definition extractSteps (readmeContent : str) : completion (list UsageExample) :=
  let blockExamples := extractBlockExamples readmeContent in
  let inlineExamples := extractInlineExamples readmeContent in
  let allExamples := blockExamples ++ inlineExamples in
  Normal (firstn MAX_EXAMPLES allExamples).

(** [try { tryBlock } catch (error) { return [] }] *)
Definition extractUsageExamplesOf
           (tryBlock : str -> completion (list UsageExample))
           (readmeContent : str) : list UsageExample :=
  guarded (tryBlock readmeContent) [].

Definition extractUsageExamples (readmeContent : str) : list UsageExample :=
  extractUsageExamplesOf extractSteps readmeContent.

End ExampleExtractor.

(** ** services/readme/example-processor.ts *)

Module ExampleProcessor.

Import README_CONFIG.

(** [/\s+/g] and the class of the two quote characters, with the g flag *)
Definition reSpaces : regex := Rep true 1 isSpace.
Definition reQuote : regex := Chr (fun c => isChar SQUOTE c || isChar DQUOTE c).

Definition normalizeCode (code : str) : str :=
  toLowerCase
    (trim
       (replaceAll reQuote (const [DQUOTE])
          (replaceAll reSpaces (const (L " ")) code))).

(** The loop of [deduplicateExamples]; [seenCodes] is the [Set<string>]. *)
Fixpoint dedupLoop (examples unique : list UsageExample) (seenCodes : list str)
  : list UsageExample :=
  match examples with
  | [] => unique
  | example :: examples' =>
      let normalizedCode := normalizeCode (code example) in
      if negb (memStr normalizedCode seenCodes)
      then dedupLoop examples' (unique ++ [example]) (normalizedCode :: seenCodes)
      else dedupLoop examples' unique seenCodes
  end.

Definition deduplicateExamples (examples : list UsageExample) : list UsageExample :=
  dedupLoop examples [] [].

Definition isGoodTitle (title : str) : bool :=
  let goodTitleKeywords :=
    [L "usage"; L "example"; L "quickstart"; L "basic"; L "simple";
     L "getting started"] in
  existsb (fun keyword => includes (toLowerCase title) keyword) goodTitleKeywords.

(** [/\w+\.\w+\(/] *)
Definition reCall : regex :=
  cat [Rep true 1 isWord; Chr (isChar "."); Rep true 1 isWord; Chr (isChar "(")].

Definition truthy (s : option str) : bool :=
  match s with
  | Some (_ :: _) => true
  | _ => false
  end.

Definition calculateRelevanceScore (example : UsageExample) : Z :=
  let score := 0%Z in
  (* Prefer examples with imports *)
  let score := if includes (code example) (L "import ") then (score + 50)%Z else score in
  let score := if includes (code example) (L "from ") then (score + 45)%Z else score in
  (* Prefer examples with usage patterns *)
  let score := if includes (code example) (L "=") && negb (includes (code example) (L "=="))
               then (score + 30)%Z else score in
  let score := if test reCall (code example) then (score + 25)%Z else score in
  (* Prefer examples with good titles *)
  let score := if negb (eqStr (title example) []) && isGoodTitle (title example)
               then (score + 20)%Z else score in
  (* Prefer examples with descriptions *)
  let score := if truthy (description example) then (score + 15)%Z else score in
  (* Prefer moderate length examples *)
  let length := length (code example) in
  if (50 <=? length) && (length <=? IDEAL_EXAMPLE_LENGTH) then (score + 10)%Z
  else if IDEAL_EXAMPLE_LENGTH <? length
       then (score - Z.of_nat ((length - IDEAL_EXAMPLE_LENGTH) / 100))%Z
       else score.

(** [Array.prototype.sort] is stable: with a comparator that is a total
    preorder its result is the stable insertion sort of the array. *)
Section Sort.
Variable A : Type.
Variable compareFn : A -> A -> Z.

Fixpoint insert (a : A) (sorted : list A) : list A :=
  match sorted with
  | [] => [a]
  | b :: sorted' =>
      if (compareFn a b <=? 0)%Z then a :: sorted
      else b :: insert a sorted'
  end.

Definition sort (l : list A) : list A := fold_right insert [] l.
End Sort.

Definition sortExamplesByRelevance (examples : list UsageExample)
  : list UsageExample :=
  map fst
    (sort (fun a b => (snd b - snd a)%Z)
       (map (fun example => (example, calculateRelevanceScore example)) examples)).

End ExampleProcessor.

(** ** services/readme/index.ts *)

Module ReadmeService.

Definition cleanReadmeContent (content : str) : str :=
  ReadmeContentCleaner.cleanReadmeContent content.

Definition extractUsageExamples (readmeContent : str) : list UsageExample :=
  let rawExamples := ExampleExtractor.extractUsageExamples readmeContent in
  let uniqueExamples := ExampleProcessor.deduplicateExamples rawExamples in
  ExampleProcessor.sortExamplesByRelevance uniqueExamples.

End ReadmeService.

(** ** services/readme-parser.ts *)

Module ReadmeParser.

Definition isUsageSection (sectionName : str) : bool :=
  let usageSections :=
    [L "usage"; L "examples"; L "example"; L "quick start"; L "quickstart";
     L "getting started"; L "tutorial"; L "how to use"; L "basic usage";
     L "installation and usage"; L "api usage"; L "code example";
     L "sample code"; L "demo"] in
  existsb (fun section => includes sectionName section || includes section sectionName)
          usageSections.

(** [languageMap[lang] || lang].  The two tags that name inherited
    properties of the object literal ([constructor], [__proto__]) look up a
    non-string; such a value is in no language list, exactly like the tag
    itself, which stands for it here. *)
Definition languageMap : list (str * str) :=
  [(L "py", L "python"); (L "python3", L "python"); (L "bash", L "bash");
   (L "shell", L "bash"); (L "sh", L "bash"); (L "console", L "bash");
   (L "terminal", L "bash"); (L "cmd", L "bash"); (L "yaml", L "yaml");
   (L "yml", L "yaml"); (L "json", L "json"); (L "toml", L "toml");
   (L "ini", L "ini"); (L "cfg", L "ini"); (L "conf", L "ini")].

Fixpoint lookup (key : str) (m : list (str * str)) : option str :=
  match m with
  | [] => None
  | (k, v) :: m' => if eqStr key k then Some v else lookup key m'
  end.

Definition extractLanguage (codeBlockLine : str) : str :=
  match exec ExampleExtractor.reFenceLang codeBlockLine with
  | Some m =>
      let lang := toLowerCase (dollar1 m) in
      (* Map common language aliases to standard names *)
      match lookup lang languageMap with
      | Some canonical => canonical
      | None => lang
      end
  | None => L "python" (* Default to Python for Python packages *)
  end.

Definition formatTitle (section : str) : str :=
  join (L " ") (map ExampleExtractor.capitalize (split " " section)).

(** [outputPatterns]: [/^[>\s]*\d+/], [/^[>\s]*\w+:/], and [/^[>\s]*X/] for
    X one of [\|], [\+], [=], [-]. *)
Definition isQuoteOrSpace (c : ascii) : bool := isChar ">" c || isSpace c.
Definition outputPatterns : list regex :=
  [cat [Bol false; Rep true 0 isQuoteOrSpace; Rep true 1 isDigit];
   cat [Bol false; Rep true 0 isQuoteOrSpace; Rep true 1 isWord; Chr (isChar ":")];
   cat [Bol false; Rep true 0 isQuoteOrSpace; Chr (isChar "|")];
   cat [Bol false; Rep true 0 isQuoteOrSpace; Chr (isChar "+")];
   cat [Bol false; Rep true 0 isQuoteOrSpace; Chr (isChar "=")];
   cat [Bol false; Rep true 0 isQuoteOrSpace; Chr (isChar "-")]].

(** [codePatterns]: [/^(import|from)\s+\w+/], [/^def\s+\w+/],
    [/^class\s+\w+/], [/^pip\s+install/], [/^python\s+/], [/^\w+\s*=/]. *)
Definition codePatterns : list regex :=
  [cat [Bol false; Alt (lit (L "import")) (lit (L "from")); Rep true 1 isSpace;
        Rep true 1 isWord];
   cat [Bol false; lit (L "def"); Rep true 1 isSpace; Rep true 1 isWord];
   cat [Bol false; lit (L "class"); Rep true 1 isSpace; Rep true 1 isWord];
   cat [Bol false; lit (L "pip"); Rep true 1 isSpace; lit (L "install")];
   cat [Bol false; lit (L "python"); Rep true 1 isSpace];
   cat [Bol false; Rep true 1 isWord; Rep true 0 isSpace; Chr (isChar "=")]].

(** The loop of [isOutputOnly] over the lines: the two counters. *)
Fixpoint countLines (lines : list str) (outputLines codeLines : nat) : nat * nat :=
  match lines with
  | [] => (outputLines, codeLines)
  | line :: lines' =>
      let trimmed := trim line in
      match trimmed with
      | [] => countLines lines' outputLines codeLines
      | _ =>
          if existsb (fun pattern => test pattern trimmed) outputPatterns
          then countLines lines' (S outputLines) codeLines
          else if existsb (fun pattern => test pattern trimmed) codePatterns
               then countLines lines' outputLines (S codeLines)
               else countLines lines' outputLines codeLines
      end
  end.

(** [outputLines > lines.length * 0.6] compares an integer with the double
    nearest to six tenths of an integer, which lies on the same side of
    every integer as three fifths of it: the test is
    [3 * lines.length < 5 * outputLines]. *)
Definition isOutputOnly (code : str) : bool :=
  let lines := split LF (trim code) in
  let (outputLines, codeLines) := countLines lines 0 0 in
  (codeLines <? outputLines) && (3 * length lines <? 5 * outputLines).

Definition isLikelyUsageExample (code language title : str) : bool :=
  (* Skip if code is too short or too long *)
  if (length (trim code) <? 10) || (5000 <? length (trim code)) then false
  else
    (* Skip if it's not a relevant language *)
    let relevantLanguages :=
      [L "python"; L "bash"; L "yaml"; L "json"; L "toml"; L "ini"] in
    if negb (eqStr language []) && negb (memStr language relevantLanguages) then false
    (* Skip output-only blocks *)
    else if isOutputOnly code then false
    (* Prefer Python code for Python packages *)
    else if eqStr language (L "python") then true
    (* Check for installation commands *)
    else if eqStr language (L "bash")
            && (includes code (L "pip install") || includes code (L "pipx install"))
         then true
    (* Check for configuration files *)
    else if memStr language [L "yaml"; L "json"; L "toml"; L "ini"] then true
    (* Check title for usage indicators *)
    else if negb (eqStr title []) && isUsageSection (toLowerCase title) then true
    else false.

(** [/^(?:from\s+\w+\s+)?import\s+[\w\s,]+$/gm] *)
Definition reImportLine : regex :=
  cat [Bol true;
       Alt (cat [lit (L "from"); Rep true 1 isSpace; Rep true 1 isWord;
                 Rep true 1 isSpace]) Eps;
       lit (L "import"); Rep true 1 isSpace;
       Rep true 1 (fun c => isWord c || isSpace c || isChar "," c);
       Eol true].

Definition extractInlineExamples (content : str) : list UsageExample :=
  (* Look for Python import statements as basic usage *)
  let importMatch := map text (matchAll reImportLine content) in
  let examples :=
    match importMatch with
    | [] => []
    | _ => [mkExample (L "Basic Import") None
                      (join [LF] (firstn 3 importMatch)) (L "python")]
    end in
  (* Look for simple one-liner examples in backticks *)
  fold_left
    (fun examples m =>
       let code := dollar1 m in
       if (10 <? length code) && (length code <? 200)
          && (includes code (L "import") || includes code (L "=")
              || includes code (L "("))
       then examples ++ [mkExample (L "Inline Example") None code (L "python")]
       else examples)
    (matchAll ExampleExtractor.reInlineCode content) examples.

Fixpoint dedupLoop (examples unique : list UsageExample) (seen : list str)
  : list UsageExample :=
  match examples with
  | [] => unique
  | example :: examples' =>
      let key := title example ++ L ":" ++ code example in
      if negb (memStr key seen)
      then dedupLoop examples' (unique ++ [example]) (key :: seen)
      else dedupLoop examples' unique seen
  end.

Definition deduplicateExamples (examples : list UsageExample) : list UsageExample :=
  dedupLoop examples [] [].

Definition getRelevanceScore (example : UsageExample) : Z :=
  let title := toLowerCase (title example) in
  let code := toLowerCase (code example) in
  let score := 0%Z in
  (* Title scoring *)
  let score := if includes title (L "basic") || includes title (L "simple")
                  || includes title (L "quick start")
               then (score + 10)%Z else score in
  let score := if includes title (L "usage") || includes title (L "example")
               then (score + 8)%Z else score in
  let score := if includes title (L "getting started") || includes title (L "tutorial")
               then (score + 7)%Z else score in
  let score := if includes title (L "advanced") then (score + 5)%Z else score in
  (* Language scoring *)
  let score := if eqStr (language example) (L "python") then (score + 10)%Z
               else if eqStr (language example) (L "bash") then (score + 5)%Z
                    else score in
  (* Code content scoring *)
  let score := if includes code (L "import") then (score + 5)%Z else score in
  let score := if includes code (L "pip install") then (score + 3)%Z else score in
  let score := if includes code (L "def ") || includes code (L "class ")
               then (score + 2)%Z else score in
  score.

Definition compareExamples (a b : UsageExample) : Z :=
  (* Prioritize by title relevance *)
  let aScore := getRelevanceScore a in
  let bScore := getRelevanceScore b in
  if negb (aScore =? bScore)%Z then (bScore - aScore)%Z (* Higher score first *)
  else
    (* Then by code length (prefer medium-length examples) *)
    let aLength := Z.of_nat (length (code a)) in
    let bLength := Z.of_nat (length (code b)) in
    let idealLength := 200%Z in
    let aLengthScore := Z.abs (aLength - idealLength) in
    let bLengthScore := Z.abs (bLength - idealLength) in
    (aLengthScore - bLengthScore)%Z. (* Closer to ideal length first *)

Definition sortExamplesByRelevance (examples : list UsageExample)
  : list UsageExample :=
  ExampleProcessor.sort compareExamples examples.

(** The local variables of [extractUsageExamples]. *)
Record parserState : Type := mkParserState {
  examples : list UsageExample;
  currentSection : str;
  inCodeBlock : bool;
  currentCodeBlock : str;
  currentLanguage : str;
  currentTitle : str;
  currentDescription : str
}.

Definition initialState : parserState := mkParserState [] [] false [] [] [] [].

Definition noneIfEmpty (s : str) : option str :=
  match s with
  | [] => None
  | _ => Some s
  end.

(** One iteration of the loop over the lines. *)
Definition parserStep (st : parserState) (line : str) : parserState :=
  let trimmedLine := trim line in
  (* Detect section headers *)
  let isHeader := test ExampleExtractor.reHeading trimmedLine in
  let section :=
    if isHeader
    then toLowerCase (replaceFirst ExampleExtractor.reHeadingMark (const []) trimmedLine)
    else currentSection st in
  (* Check if this is a usage-related section *)
  let usageHeader := isHeader && isUsageSection section in
  let title := if usageHeader then section else currentTitle st in
  let descr := if usageHeader then [] else currentDescription st in
  (* Detect code block start/end *)
  if startsWith trimmedLine ExampleExtractor.FENCE then
    if negb (inCodeBlock st) then
      (* Starting a code block *)
      let title' :=
        (* Use section title if we don't have a specific title *)
        if eqStr title [] && negb (eqStr section []) then formatTitle section
        else title in
      mkParserState (examples st) section true [] (extractLanguage trimmedLine)
                    title' descr
    else
      (* Ending a code block *)
      let pushed :=
        (* Only add if it's likely a usage example *)
        if isLikelyUsageExample (currentCodeBlock st) (currentLanguage st) title
        then examples st ++
             [mkExample (orElse title (L "Code Example"))
                        (noneIfEmpty descr)
                        (trim (currentCodeBlock st))
                        (orElse (currentLanguage st) (L "python"))]
        else examples st in
      (* Reset for next code block *)
      mkParserState pushed section false [] (currentLanguage st) [] []
  else if inCodeBlock st then
    (* Inside a code block *)
    mkParserState (examples st) section true
                  (currentCodeBlock st ++ line ++ [LF]) (currentLanguage st)
                  title descr
  else if isUsageSection section && negb (eqStr trimmedLine [])
          && negb (startsWith trimmedLine (L "#")) then
    (* Collect description text in usage sections *)
    let descr' := (match descr with [] => descr | _ => descr ++ L " " end)
                  ++ trimmedLine in
    mkParserState (examples st) section false (currentCodeBlock st)
                  (currentLanguage st) title descr'
  else
    mkParserState (examples st) section false (currentCodeBlock st)
                  (currentLanguage st) title descr.

Definition extractSteps (readmeContent : str) : completion (list UsageExample) :=
  (* Split content into lines for processing *)
  let lines := split LF readmeContent in
  let examples := examples (fold_left parserStep lines initialState) in
  (* Also look for inline code examples *)
  let examples := examples ++ extractInlineExamples readmeContent in
  (* Deduplicate and sort by relevance *)
  let uniqueExamples := deduplicateExamples examples in
  let sortedExamples := sortExamplesByRelevance uniqueExamples in
  Normal sortedExamples.

Definition extractUsageExamples (readmeContent : str) : list UsageExample :=
  guarded (extractSteps readmeContent) [].

(** [/<[^>]*>/g] *)
Definition reTag : regex :=
  cat [Chr (isChar "<"); Rep true 0 (fun c => negb (isChar ">" c));
       Chr (isChar ">")].

(** [/!\[.*?\]\(https?:\/\/.*?(?:shields\.io|travis-ci|badge|status).*?\)/g] *)
Definition reBadge : regex :=
  cat [lit (L "!["); Rep false 0 isDot; lit (L "](http");
       Alt (Chr (isChar "s")) Eps; lit (L "://"); Rep false 0 isDot;
       Alt (lit (L "shields.io"))
           (Alt (lit (L "travis-ci")) (Alt (lit (L "badge")) (lit (L "status"))));
       Rep false 0 isDot; Chr (isChar ")")].

Definition cleanSteps (content : str) : completion str :=
  let cleaned := content in
  (* Remove HTML tags *)
  let cleaned := replaceAll reTag (const []) cleaned in
  (* Remove badges *)
  let cleaned := replaceAll reBadge (const []) cleaned in
  (* Remove excessive newlines *)
  let cleaned := replaceAll ReadmeContentCleaner.reBlankLines (const [LF; LF]) cleaned in
  (* Remove leading/trailing whitespace *)
  let cleaned := trim cleaned in
  Normal cleaned.

Definition cleanReadmeContent (content : str) : str :=
  guarded (cleanSteps content) content.

End ReadmeParser.

(** * Notions used in the statements *)

(** ** The matcher *)

(** [y] is reached from [x] by consuming [w]. *)
Definition reaches (x y : pos) (w : str) : Prop :=
  rest x = w ++ rest y /\ prev y = last (map Some w) (prev x).

(** The pattern matches at no position of the text, whatever comes before
    the text. *)
Definition matchesNowhere (r : regex) (s : str) : Prop :=
  forall pv a t, s = a ++ t -> matches r (start pv t) = [].

(** The character class [p] does not go on at the head of [t]. *)
Definition stopsAt (p : ascii -> bool) (t : str) : Prop :=
  match t with
  | [] => True
  | c :: _ => p c = false
  end.

(** The length of the longest prefix in a character class. *)
Fixpoint runLength (p : ascii -> bool) (s : str) : nat :=
  match s with
  | c :: s' => if p c then S (runLength p s') else 0
  | [] => 0
  end.

(** A pattern without anchors; what is left after a match and what it
    captured. *)
Fixpoint anchorFree (r : regex) : bool :=
  match r with
  | Eps | Chr _ | Rep _ _ _ => true
  | Seq a b | Alt a b => anchorFree a && anchorFree b
  | Bol _ | Eol _ => false
  | Grp a => anchorFree a
  end.

Definition view (y : pos) : str * option str := (rest y, cap y).

(** [a] is [b] with some characters left out. *)
Inductive subseq : str -> str -> Prop :=
| subseq_nil : subseq [] []
| subseq_skip (c : ascii) (a b : str) : subseq a b -> subseq a (c :: b)
| subseq_keep (c : ascii) (a b : str) : subseq a b -> subseq (c :: a) (c :: b).

(** ** Ranking and deduplication *)

(** Sorting a list by descending score, the way [sortExamplesByRelevance]
    does: each element is paired with its score, the pairs are sorted, the
    scores are dropped again. *)
Definition byScore (A : Type) (a b : A * Z) : Z := (snd b - snd a)%Z.

Definition withScore (A : Type) (score : A -> Z) (e : A) : A * Z := (e, score e).

Definition descending (A : Type) (a b : A * Z) : Prop := (snd b <= snd a)%Z.

Definition sortByScore (A : Type) (score : A -> Z) (l : list A) : list A :=
  map fst (ExampleProcessor.sort (@byScore A) (map (withScore score) l)).

(** The score in the words of the specification: an additive total.  The
    title is compared with the keywords in lower case, as [isGoodTitle]
    does; the penalty is the floor of the quotient. *)
Definition bonus (condition : bool) (points : Z) : Z :=
  if condition then points else 0%Z.

Definition specScore (e : UsageExample) : Z :=
  let len := Z.of_nat (length (code e)) in
  (bonus (includes (code e) (L "import ")) 50
   + bonus (includes (code e) (L "from ")) 45
   + bonus (includes (code e) (L "=") && negb (includes (code e) (L "=="))) 30
   + bonus (test ExampleProcessor.reCall (code e)) 25
   + bonus (existsb (fun keyword => includes (toLowerCase (title e)) keyword)
                    [L "usage"; L "example"; L "quickstart"; L "basic";
                     L "simple"; L "getting started"]) 20
   + bonus (ExampleProcessor.truthy (description e)) 15
   + bonus ((50 <=? len) && (len <=? 200)) 10
   - (if 200 <? len then (len - 200) / 100 else 0))%Z.

(** The key of an example. *)
Definition key (e : UsageExample) : str := ExampleProcessor.normalizeCode (code e).

(** [e] occurs in [l] with no example of the same key before it. *)
Definition firstOfKey (l : list UsageExample) (e : UsageExample) : Prop :=
  exists pre post, l = pre ++ e :: post /\ ~ In (key e) (map key pre).

(** The key in the words of the specification: the code lower-cased, every
    run of whitespace collapsed to one space, both quote characters unified
    to the double quote, trimmed. *)
Definition isQuote (c : ascii) : bool := isChar SQUOTE c || isChar DQUOTE c.

Definition unifyQuotes (s : str) : str :=
  map (fun c => if isQuote c then DQUOTE else c) s.

(** [inRun] tells whether the previous character was whitespace. *)
Fixpoint squeezeFrom (inRun : bool) (s : str) : str :=
  match s with
  | [] => []
  | c :: s' =>
      if isSpace c
      then if inRun then squeezeFrom true s' else " "%char :: squeezeFrom true s'
      else c :: squeezeFrom false s'
  end.

Definition squeezeSpaces (s : str) : str := squeezeFrom false s.

Definition specKey (c : str) : str :=
  trim (unifyQuotes (squeezeSpaces (toLowerCase c))).

(** ** Fences and languages *)

(** A line that opens or closes a fenced block. *)
Definition isFenceLine (line : str) : bool :=
  startsWith (trim line) ExampleExtractor.FENCE.





(** Scenario 2 of the specification: only a bash fence around
    [pip install foo]. *)
Definition installOnly : str := L "```bash
pip install foo
```".

(** ** The steps of the cleaners *)

Definition isLF (c : ascii) : bool := isChar LF c.

(** The first step of the cleaner. *)
Definition collapse (s : str) : str :=
  replaceAll ReadmeContentCleaner.reBlankLines (const [LF; LF]) s.

(** The comment step of the cleaner, and the tag step of the older one. *)
Definition stripComments (s : str) : str :=
  replaceAll ReadmeContentCleaner.reComment (const []) s.

Definition stripTags (s : str) : str := replaceAll ReadmeParser.reTag (const []) s.

Definition commentOpen : str := L "<!--".

Definition commentClose : str := L "-->".

Definition notGt (c : ascii) : bool := negb (isChar ">" c).

Definition notLt (c : ascii) : bool := negb (isChar "<" c).

(** A [<] with a [>] somewhere after it. *)
Fixpoint hasTag (s : str) : bool :=
  match s with
  | [] => false
  | c :: t => (isChar "<" c && existsb (isChar ">") t) || hasTag t
  end.

(** No run of three line feeds. *)
Definition threeLF : str := [LF; LF; LF].

Definition noRun3 (s : str) : Prop := includes s threeLF = false.

(** No space or tab stands right before a line terminator or the end. *)
Definition atEol (t : str) : bool :=
  match t with
  | [] => true
  | d :: _ => isLineTerminator d
  end.

Fixpoint trailingFree (s : str) : bool :=
  match s with
  | [] => true
  | c :: t => negb (ReadmeContentCleaner.isBlank c && atEol t) && trailingFree t
  end.

(** Characters that start none of the patterns for line endings, table
    separators and empty links. *)
Definition quietChar (c : ascii) : bool :=
  negb (isChar CR c || isChar "|" c || isChar "[" c).

(** No three rule characters in a row. *)
Fixpoint ruleRunFree (s : str) : bool :=
  match s with
  | [] => true
  | _ :: t => (runLength ReadmeContentCleaner.isRuleChar s <? 3) && ruleRunFree t
  end.

(** Plain text: quiet characters only, no blank at the end of a line, no
    opening mark of a comment, no three rule characters in a row. *)
Definition plainText (s : str) : bool :=
  forallb quietChar s && trailingFree s && negb (includes s commentOpen)
  && ruleRunFree s.



(** * Further code of the server *)

(** ** utils/logger.ts *)

Module Logger.

Definition levels : list str := [L "debug"; L "info"; L "warn"; L "error"].

(** [array.indexOf(x)]: the first index of [x], or -1. *)
Fixpoint indexOfFrom (i : Z) (x : str) (l : list str) : Z :=
  match l with
  | [] => (-1)%Z
  | y :: l' => if eqStr y x then i else indexOfFrom (i + 1)%Z x l'
  end.

Definition indexOf (l : list str) (x : str) : Z := indexOfFrom 0%Z x l.

(** The constructor: [process.env.LOG_LEVEL || 'warn'].  The level is the
    only state of a logger. *)
Definition create (LOG_LEVEL : option str) : str :=
  match LOG_LEVEL with
  | Some level => orElse level (L "warn")
  | None => L "warn"
  end.

Definition shouldLog (logLevel level : str) : bool :=
  let currentLevelIndex := indexOf levels (toLowerCase logLevel) in
  let messageLevelIndex := indexOf levels (toLowerCase level) in
  (currentLevelIndex <=? messageLevelIndex)%Z.

(** Whether [logger.debug], [info], [warn] and [error] write their message
    to the console. *)
Definition debug (logLevel : str) : bool := shouldLog logLevel (L "debug").
Definition info (logLevel : str) : bool := shouldLog logLevel (L "info").
Definition warn (logLevel : str) : bool := shouldLog logLevel (L "warn").
Definition error (logLevel : str) : bool := shouldLog logLevel (L "error").

End Logger.

(** ** types/index.ts: package data and responses

    An optional field is an [option]; a string is falsy when it is empty,
    an optional string when it is absent or empty. *)

Definition truthyStr (s : str) : bool :=
  match s with
  | [] => false
  | _ => true
  end.

Module PyPI.

(** [info.keywords] is declared a string; [PackageInfoBuilder] also accepts
    an array. *)
Inductive keywordsField : Type :=
| KeywordsArray (l : list str)
| KeywordsString (s : str)
| KeywordsOther.

Record Info : Type := mkInfo {
  name : str;
  version : str;
  summary : str;
  description : str;
  description_content_type : option str;
  classifiers : option (list str);
  author : str;
  author_email : option str;
  maintainer : option str;
  maintainer_email : option str;
  keywords : keywordsField;
  requires_python : option str
}.

Record PackageInfo : Type := mkPackageInfo { info : Info }.

End PyPI.

Record InstallationInfo : Type := mkInstallation {
  pip : str;
  conda : str;
  pipx : str
}.

Module Basic.

Record PackageBasicInfo : Type := mkBasicInfo {
  name : str;
  version : str;
  description : str;
  author : str;
  maintainer : option str;
  keywords : list str;
  classifiers : list str;
  requires_python : option str
}.

End Basic.

Record PackageReadmeMcpError : Type := mkError {
  message : str;
  errorCode : str
}.

(** A call returns or throws a [PackageReadmeMcpError]. *)
Inductive outcome (A : Type) : Type :=
| Returns (a : A)
| Throws (e : PackageReadmeMcpError).

Arguments Returns {A} a.
Arguments Throws {A} e.

(** ** services/package-readme/installation-info-builder.ts *)

Module InstallationInfoBuilder.

Definition hasConsoleScripts (packageInfo : PyPI.PackageInfo) : bool :=
  (* Check classifiers for application indicators *)
  let classifiers :=
    match PyPI.classifiers (PyPI.info packageInfo) with
    | Some l => l
    | None => []
    end in
  let isApplication :=
    existsb (fun classifier =>
               includes classifier (L "Environment :: Console")
               || includes classifier (L "Intended Audience :: End Users")
               || includes classifier (L "Topic :: System :: Systems Administration")
               || includes classifier (L "Topic :: Utilities"))
            classifiers in
  (* Check if package name suggests it's a CLI tool *)
  let cliKeywords := [L "cli"; L "command"; L "tool"; L "utility"; L "script"] in
  let packageName := toLowerCase (PyPI.name (PyPI.info packageInfo)) in
  let hasCliKeyword := existsb (fun keyword => includes packageName keyword) cliKeywords in
  isApplication || hasCliKeyword.

Definition buildCondaCommand (packageName : str) : str :=
  L "conda install -c conda-forge " ++ packageName.

Definition buildPipxCommand (packageName : str) (packageInfo : PyPI.PackageInfo) : str :=
  if hasConsoleScripts packageInfo
  then L "pipx install " ++ packageName
  else L "# pipx is for CLI applications only - use pip instead".

Definition build (packageInfo : PyPI.PackageInfo) : InstallationInfo :=
  let packageName := PyPI.name (PyPI.info packageInfo) in
  mkInstallation (L "pip install " ++ packageName)
                 (buildCondaCommand packageName)
                 (buildPipxCommand packageName packageInfo).

End InstallationInfoBuilder.

(** ** services/github-api.ts: [extractRepoInfo]

    The patterns of this function have two groups, and the matcher records
    one.  Such a pattern is written with its two groups as parameters;
    [exec2] runs it with the first group recorded for [match[1]] and with
    the second recorded for [match[2]].  Recording a group changes no
    candidate, so both runs find the same match. *)

Definition plain (r : regex) : regex := r.

Definition exec2 (re : (regex -> regex) -> (regex -> regex) -> regex) (s : str)
  : option (str * str) :=
  match exec (re Grp plain) s, exec (re plain Grp) s with
  | Some m1, Some m2 => Some (dollar1 m1, dollar1 m2)
  | _, _ => None
  end.

(** The pattern without its groups. *)
Fixpoint erase (r : regex) : regex :=
  match r with
  | Seq a b => Seq (erase a) (erase b)
  | Alt a b => Alt (erase a) (erase b)
  | Grp a => erase a
  | _ => r
  end.

Module GitHubApiClient.

Definition notSlash (c : ascii) : bool := negb (isChar "/" c).

(** [(?:X)?] *)
Definition opt (r : regex) : regex := Alt r Eps.

(** [/ github\.com\/ ([^\/]+) \/ ([^\/]+) (?:\.git)? (?:\/ . * )? $ /],
    its parts set apart by spaces *)
Definition reHttps (g1 g2 : regex -> regex) : regex :=
  cat [lit (L "github.com/"); g1 (Rep true 1 notSlash); Chr (isChar "/");
       g2 (Rep true 1 notSlash); opt (lit (L ".git"));
       opt (Seq (Chr (isChar "/")) (Rep true 0 isDot)); Eol false].

(** [/git@github\.com:([^\/]+)\/([^\/]+)(?:\.git)?$/] *)
Definition reSsh (g1 g2 : regex -> regex) : regex :=
  cat [lit (L "git@github.com:"); g1 (Rep true 1 notSlash); Chr (isChar "/");
       g2 (Rep true 1 notSlash); opt (lit (L ".git")); Eol false].

(** [/github\.com\/([^\/]+)\/([^\/]+)$/] *)
Definition reBare (g1 g2 : regex -> regex) : regex :=
  cat [lit (L "github.com/"); g1 (Rep true 1 notSlash); Chr (isChar "/");
       g2 (Rep true 1 notSlash); Eol false].

(** [/^https?:\/\//], [/^git\+https?:\/\//], [/\.git$/] and [/\/$/] *)
Definition reProtocol : regex :=
  cat [Bol false; lit (L "http"); opt (Chr (isChar "s")); lit (L "://")].
Definition reGitProtocol : regex :=
  cat [Bol false; lit (L "git+http"); opt (Chr (isChar "s")); lit (L "://")].
Definition reGitSuffix : regex := cat [lit (L ".git"); Eol false].
Definition reTrailingSlash : regex := cat [Chr (isChar "/"); Eol false].

Record RepoInfo : Type := mkRepoInfo { owner : str; repo : str }.

(** The loop over the patterns. *)
Fixpoint firstPattern (patterns : list ((regex -> regex) -> (regex -> regex) -> regex))
         (cleanUrl : str) : option RepoInfo :=
  match patterns with
  | [] => None
  | pattern :: patterns' =>
      match exec2 pattern cleanUrl with
      | Some (m1, m2) => Some (mkRepoInfo m1 m2)
      | None => firstPattern patterns' cleanUrl
      end
  end.

(** No step of the [try] block throws on a string. *)
Definition extractRepoInfo (repoUrl : str) : option RepoInfo :=
  (* Handle different GitHub URL formats *)
  let patterns := [reHttps; reSsh; reBare] in
  let cleanUrl := repoUrl in
  (* Remove protocol and clean up URL *)
  let cleanUrl := replaceFirst reProtocol (const []) cleanUrl in
  let cleanUrl := replaceFirst reGitProtocol (const []) cleanUrl in
  let cleanUrl := replaceFirst reGitSuffix (const []) cleanUrl in
  let cleanUrl := replaceFirst reTrailingSlash (const []) cleanUrl in
  firstPattern patterns cleanUrl.

End GitHubApiClient.

(** ** services/package-readme/package-info-builder.ts *)

(** [s.split(r)] for a pattern that has no group and cannot match the
    empty string: the pieces between the matches.  [cur] is the piece
    being read. *)
Fixpoint splitFrom (r : regex) (fuel : nat) (cur : str) (pv : option ascii)
         (s : str) : list str :=
  match fuel with
  | O => [cur ++ s]
  | S fuel' =>
      match s with
      | [] => [cur]
      | c :: s' =>
          match matchAt r (start pv s) with
          | Some y => cur :: splitFrom r fuel' [] (prev y) (rest y)
          | None => splitFrom r fuel' (cur ++ [c]) (Some c) s'
          end
      end
  end.

Definition splitRe (r : regex) (s : str) : list str :=
  splitFrom r (S (length s)) [] None s.

Module PackageInfoBuilder.

Definition orUndefined (s : option str) : option str :=
  if ExampleProcessor.truthy s then s else None.

Definition extractAuthor (info : PyPI.Info) : str :=
  if truthyStr (PyPI.author info) then
    match PyPI.author_email info with
    | Some (c :: email) => PyPI.author info ++ L " <" ++ (c :: email) ++ L ">"
    | _ => PyPI.author info
    end
  else
    match PyPI.author_email info with
    | Some (c :: email) => c :: email
    | _ => L "Unknown"
    end.

Definition extractMaintainer (info : PyPI.Info) : option str :=
  match PyPI.maintainer info with
  | Some (m :: maintainer) =>
      match PyPI.maintainer_email info with
      | Some (c :: email) => Some ((m :: maintainer) ++ L " <" ++ (c :: email) ++ L ">")
      | _ => Some (m :: maintainer)
      end
  | _ =>
      match PyPI.maintainer_email info with
      | Some (c :: email) => Some (c :: email)
      | _ => None
      end
  end.

(** [/[,\s]+/] *)
Definition isSeparator (c : ascii) : bool := isChar "," c || isSpace c.
Definition reSeparator : regex := Rep true 1 isSeparator.

Definition extractKeywords (info : PyPI.Info) : list str :=
  match PyPI.keywords info with
  | PyPI.KeywordsArray l => l
  | PyPI.KeywordsString s =>
      filter (fun k => 0 <? length k) (map trim (splitRe reSeparator s))
  | PyPI.KeywordsOther => []
  end.

Definition build (packageInfo : PyPI.PackageInfo) : Basic.PackageBasicInfo :=
  let info := PyPI.info packageInfo in
  Basic.mkBasicInfo
    (PyPI.name info)
    (PyPI.version info)
    (orElse (PyPI.summary info) (orElse (PyPI.description info) []))
    (extractAuthor info)
    (extractMaintainer info)
    (extractKeywords info)
    (match PyPI.classifiers info with Some l => l | None => [] end)
    (orUndefined (PyPI.requires_python info)).

End PackageInfoBuilder.

(** ** services/cache.ts

    The clock is outside the program: every [Date.now()] of a method is a
    parameter of its embedding.  [JSON.stringify] is outside as well: the
    length of the JSON text of a value is the parameter [jsonLength].  A
    [Map] is the list of its entries in insertion order, its keys
    distinct. *)

Module CACHE_CONFIG.
Definition DEFAULT_MAX_SIZE : Z := 100 * 1024 * 1024.
Definition DEFAULT_TTL : Z := 3600000.
Definition SEARCH_RESULTS_TTL : Z := 300000.
Definition MIN_SIZE : Z := 1024 * 1024.
Definition MIN_TTL : Z := 60000.
End CACHE_CONFIG.

(** [x || d] for an optional number: absent, [NaN] and 0 are falsy. *)
Definition orNumber (x : option Z) (d : Z) : Z :=
  match x with
  | Some n => if (n =? 0)%Z then d else n
  | None => d
  end.

Module MemoryCache.

Section Values.

Variable V : Type.
Variable jsonLength : V -> nat.

Record CacheEntry : Type := mkEntry {
  data : V;
  timestamp : Z;
  ttl : Z
}.

Record CacheOptions : Type := mkOptions {
  optionTtl : option Z;
  optionMaxSize : option Z
}.

(** The fields of the object. *)
Record t : Type := mkCache {
  cache : list (str * CacheEntry);
  maxSize : Z;
  defaultTtl : Z
}.

(** [Map.prototype.get], [set] and [delete]. *)
Fixpoint mapGet (key : str) (m : list (str * CacheEntry)) : option CacheEntry :=
  match m with
  | [] => None
  | (k, e) :: m' => if eqStr k key then Some e else mapGet key m'
  end.

Fixpoint mapSet (key : str) (entry : CacheEntry) (m : list (str * CacheEntry))
  : list (str * CacheEntry) :=
  match m with
  | [] => [(key, entry)]
  | (k, e) :: m' =>
      if eqStr k key then (k, entry) :: m' else (k, e) :: mapSet key entry m'
  end.

Definition mapDelete (key : str) (m : list (str * CacheEntry))
  : list (str * CacheEntry) :=
  filter (fun ke => negb (eqStr (fst ke) key)) m.

Definition create (options : CacheOptions) : t :=
  mkCache []
    (Z.max CACHE_CONFIG.MIN_SIZE
           (orNumber (optionMaxSize options) CACHE_CONFIG.DEFAULT_MAX_SIZE))
    (Z.max CACHE_CONFIG.MIN_TTL
           (orNumber (optionTtl options) CACHE_CONFIG.DEFAULT_TTL)).

(** [now - entry.timestamp > entry.ttl] *)
Definition expired (now : Z) (entry : CacheEntry) : bool :=
  (ttl entry <? now - timestamp entry)%Z.

Definition estimateSize (value : V) : Z :=
  (* Rough estimation of object size in bytes *)
  (Z.of_nat (jsonLength value) * 2)%Z.

Definition getCurrentSize (c : t) : Z :=
  fold_left (fun totalSize ke => (totalSize + estimateSize (data (snd ke)))%Z)
            (cache c) 0%Z.

Definition clear (c : t) : t := mkCache [] (maxSize c) (defaultTtl c).

Definition cleanup (now : Z) (c : t) : t :=
  mkCache (filter (fun ke => negb (expired now (snd ke))) (cache c))
          (maxSize c) (defaultTtl c).

(** [set] reads the clock twice: [stamp] for the entry, [now] in
    [cleanup]. *)
Definition set (stamp now : Z) (key : str) (value : V) (ttl : option Z) (c : t) : t :=
  let actualTtl := orNumber ttl (defaultTtl c) in
  let entry := mkEntry value stamp actualTtl in
  (* Remove expired entries and check size *)
  let c := cleanup now c in
  (* Estimate size (rough approximation) *)
  let estimatedSize := estimateSize value in
  let currentSize := getCurrentSize c in
  let c := if (maxSize c <? currentSize + estimatedSize)%Z then clear c else c in
  mkCache (mapSet key entry (cache c)) (maxSize c) (defaultTtl c).

(** [null] is [None]. *)
Definition get (now : Z) (key : str) (c : t) : option V * t :=
  match mapGet key (cache c) with
  | None => (None, c)
  | Some entry =>
      (* Check if expired *)
      if expired now entry
      then (None, mkCache (mapDelete key (cache c)) (maxSize c) (defaultTtl c))
      else (Some (data entry), c)
  end.

End Values.

End MemoryCache.

(** Cache key utilities: the key of a README response. *)
Module createCacheKey.

Definition packageReadme (packageName version : str) : str :=
  L "pkg_readme:" ++ packageName ++ L ":" ++ version.

End createCacheKey.

(** ** services/package-readme/package-readme-service.ts *)

Record PackageReadmeResponse : Type := mkResponse {
  package_name : str;
  version : str;
  response_description : str;
  readme_content : str;
  usage_examples : list UsageExample;
  installation : InstallationInfo;
  basic_info : Basic.PackageBasicInfo;
  exists_ : bool
}.

Record GetPackageReadmeParams : Type := mkParams {
  param_package_name : str;
  param_version : option str;
  param_include_examples : option bool
}.

Module PackageReadmeService.

Section Client.

(** The PyPI client is outside the program: what its two calls resolve to,
    or that they reject. *)
Variable pypiClient_getPackageInfo : str -> completion PyPI.PackageInfo.
Variable pypiClient_getVersionInfo : str -> str -> completion PyPI.PackageInfo.

(** The size of a cached response, see [MemoryCache]. *)
Variable jsonLength : PackageReadmeResponse -> nat.

Definition Cache : Type := MemoryCache.t PackageReadmeResponse.

(** [null] is [None]. *)
Definition getPackageInfo (packageName version : str) : option PyPI.PackageInfo :=
  guarded
    (match (if eqStr version (L "latest")
            then pypiClient_getPackageInfo packageName
            else pypiClient_getVersionInfo packageName version) with
     | Normal packageInfo => Normal (Some packageInfo)
     | Throw => Throw
     end)
    None.

Definition extractReadmeContent (packageInfo : PyPI.PackageInfo) : str :=
  let info := PyPI.info packageInfo in
  let fallback :=
    (* Fallback to summary or description *)
    orElse (PyPI.summary info)
           (orElse (PyPI.description info)
                   (L "No README available for this package.")) in
  (* Try to get README from PyPI description *)
  if truthyStr (PyPI.description info)
     && ExampleProcessor.truthy (PyPI.description_content_type info) then
    let contentType :=
      toLowerCase (match PyPI.description_content_type info with
                   | Some t => t
                   | None => []
                   end) in
    if includes contentType (L "markdown") || includes contentType (L "md")
    then PyPI.description info
    else fallback
  else fallback.

Definition createNotFoundResponse (packageName version : str) : PackageReadmeResponse :=
  mkResponse
    packageName
    (orElse version (L "latest"))
    (L "Package not found")
    []
    []
    (mkInstallation (L "pip install " ++ packageName)
                    (L "conda install " ++ packageName)
                    (L "pipx install " ++ packageName))
    (Basic.mkBasicInfo packageName (orElse version (L "latest"))
                       (L "Package not found") (L "Unknown") None [] [] None)
    false.

(** [now] is the reading of the clock in [cache.get], [stamp] and [now']
    are the two readings in [cache.set].  A cached response is an object,
    hence truthy.  No step of the [try] block throws on data of the
    declared types. *)
Definition getPackageReadme (now stamp now' : Z) (params : GetPackageReadmeParams)
           (cache : Cache) : PackageReadmeResponse * Cache :=
  let package_name := param_package_name params in
  let version :=
    match param_version params with Some v => v | None => L "latest" end in
  let include_examples :=
    match param_include_examples params with Some b => b | None => true end in
  (* Check cache first *)
  let cacheKey := createCacheKey.packageReadme package_name version in
  let (cached, cache) := MemoryCache.get now cacheKey cache in
  match cached with
  | Some response => (response, cache)
  | None =>
      (* Get package info *)
      match getPackageInfo package_name version with
      | None => (createNotFoundResponse package_name version, cache)
      | Some packageInfo =>
          (* Get README content *)
          let readmeContent := extractReadmeContent packageInfo in
          let cleanedContent := ReadmeService.cleanReadmeContent readmeContent in
          (* Extract usage examples if requested *)
          let usageExamples :=
            if include_examples && truthyStr cleanedContent
            then ReadmeService.extractUsageExamples cleanedContent
            else [] in
          (* Build response *)
          let response :=
            mkResponse
              package_name
              (PyPI.version (PyPI.info packageInfo))
              (orElse (PyPI.summary (PyPI.info packageInfo)) [])
              cleanedContent
              usageExamples
              (InstallationInfoBuilder.build packageInfo)
              (PackageInfoBuilder.build packageInfo)
              true in
          (* Cache the response *)
          let cache := MemoryCache.set jsonLength stamp now' cacheKey response None cache in
          (response, cache)
      end
  end.

End Client.

End PackageReadmeService.

(** ** utils/validators-simple.ts

    A parameter declared [any] is [None] when it is not a string. *)

Module Validators.

(** [/^[a-zA-Z0-9][a-zA-Z0-9._-]*[a-zA-Z0-9]$/] and [/^[a-zA-Z0-9]$/] *)
Definition isAlnum (c : ascii) : bool :=
  between 97 122 c || between 65 90 c || between 48 57 c.
Definition isNameChar (c : ascii) : bool :=
  isAlnum c || isChar "." c || isChar "_" c || isChar "-" c.
Definition reName : regex :=
  cat [Bol false; Chr isAlnum; Rep true 0 isNameChar; Chr isAlnum; Eol false].
Definition reSingle : regex := cat [Bol false; Chr isAlnum; Eol false].

Definition validatePackageName (packageName : option str) : outcome unit :=
  match packageName with
  | None => Throws (mkError (L "Package name is required") (L "INVALID_PACKAGE_NAME"))
  | Some packageName =>
      if negb (truthyStr packageName) || negb (truthyStr (trim packageName))
      then Throws (mkError (L "Package name is required") (L "INVALID_PACKAGE_NAME"))
      else
        let trimmed := trim packageName in
        (* Basic format validation *)
        if negb (test reName trimmed) && (1 <? length trimmed)
        then Throws (mkError (L "Invalid package name format") (L "INVALID_PACKAGE_NAME"))
        (* Single character packages (just letters/numbers) *)
        else if (length trimmed =? 1) && negb (test reSingle trimmed)
        then Throws (mkError (L "Invalid package name format") (L "INVALID_PACKAGE_NAME"))
        else Returns tt
  end.

(** [!version?.trim()] *)
Definition validateVersion (version : str) : outcome unit :=
  if negb (truthyStr (trim version))
  then Throws (mkError (L "Version is required") (L "VALIDATION_ERROR"))
  else Returns tt.

End Validators.

(** ** tools/get-package-readme.ts *)

Record ToolParams : Type := mkToolParams {
  tool_package_name : option str;
  tool_version : option str;
  tool_include_examples : option bool
}.

Module Tools.

Section Client.

Variable pypiClient_getPackageInfo : str -> completion PyPI.PackageInfo.
Variable pypiClient_getVersionInfo : str -> str -> completion PyPI.PackageInfo.
Variable jsonLength : PackageReadmeResponse -> nat.

Definition getPackageReadme (now stamp now' : Z) (params : ToolParams)
           (cache : PackageReadmeService.Cache)
  : outcome PackageReadmeResponse * PackageReadmeService.Cache :=
  let package_name := tool_package_name params in
  let version :=
    match tool_version params with Some v => v | None => L "latest" end in
  (* Validate inputs *)
  match Validators.validatePackageName package_name with
  | Throws e => (Throws e, cache)
  | Returns _ =>
      match (if negb (eqStr version (L "latest"))
             then Validators.validateVersion version
             else Returns tt) with
      | Throws e => (Throws e, cache)
      | Returns _ =>
          (* Delegate to service *)
          let (response, cache) :=
            PackageReadmeService.getPackageReadme
              pypiClient_getPackageInfo pypiClient_getVersionInfo jsonLength
              now stamp now'
              (mkParams (match package_name with Some n => n | None => [] end)
                        (tool_version params) (tool_include_examples params))
              cache in
          (Returns response, cache)
      end
  end.

End Client.

End Tools.

(** * Notions used in the further statements *)

(** ** What a match consumes *)

(** The least number of code units a match of the pattern consumes. *)
Fixpoint minLen (r : regex) : nat :=
  match r with
  | Eps | Bol _ | Eol _ => 0
  | Chr _ => 1
  | Seq a b => minLen a + minLen b
  | Alt a b => Nat.min (minLen a) (minLen b)
  | Rep _ lo _ => lo
  | Grp a => minLen a
  end.

(** The length of what group 1 holds. *)
Definition capLength (c : option str) : nat :=
  match c with
  | Some g => length g
  | None => 0
  end.

(** ** Notions for the extracted examples *)

(** No backtick occurs in the text. *)
Definition noBacktick (s : str) : bool :=
  forallb (fun c => negb (isChar ExampleExtractor.BACKTICK c)) s.

(** The whitespace of the text is squeezed: every whitespace character is a
    space, and no two of them are adjacent.  [inRun] tells whether the
    character before the text is whitespace. *)
Fixpoint squeezed (inRun : bool) (s : str) : bool :=
  match s with
  | [] => true
  | c :: s' =>
      if isSpace c then negb inRun && isChar " " c && squeezed true s'
      else squeezed false s'
  end.

(** One quote style. *)
Definition unifyChar (c : ascii) : ascii := if isQuote c then DQUOTE else c.

(** The largest score an example can get, and an example that gets it. *)
Definition maxScore : Z := 195.

Definition bestExample : UsageExample :=
  mkExample (L "Basic usage") (Some (L "How to call it"))
            (L "from pkg import tool
result = tool.run(1, 2, 3)  # the call") (L "python").

(** ** Notions for the older parser *)

(** The key under which the older parser drops duplicates. *)
Definition parserKey (e : UsageExample) : str := title e ++ L ":" ++ code e.

(** How far the length of the code is from the ideal length. *)
Definition lengthScore (e : UsageExample) : Z :=
  Z.abs (Z.of_nat (length (code e)) - 200).

(** The rank by which the older parser orders: the score, then the
    distance from the ideal length. *)
Definition parserRank (e : UsageExample) : Z * Z :=
  (ReadmeParser.getRelevanceScore e, lengthScore e).

Definition rankIs (k : Z * Z) (e : UsageExample) : bool :=
  (fst (parserRank e) =? fst k)%Z && (snd (parserRank e) =? snd k)%Z.

(** [a] may stand before [b]: a higher score, or the same score and a
    length at least as close to the ideal. *)
Definition parserBefore (a b : UsageExample) : Prop :=
  (ReadmeParser.getRelevanceScore b < ReadmeParser.getRelevanceScore a)%Z
  \/ (ReadmeParser.getRelevanceScore b = ReadmeParser.getRelevanceScore a
      /\ (lengthScore a <= lengthScore b)%Z).

(** The examples the loop of the older parser builds from the fenced
    blocks. *)
Definition parserBlockExamples (readmeContent : str) : list UsageExample :=
  ReadmeParser.examples
    (fold_left ReadmeParser.parserStep (split LF readmeContent)
               ReadmeParser.initialState).

(** ** Notions for the further code *)

(** The package with other classifiers. *)
Definition withClassifiers (packageInfo : PyPI.PackageInfo) (l : list str)
  : PyPI.PackageInfo :=
  let i := PyPI.info packageInfo in
  PyPI.mkPackageInfo
    (PyPI.mkInfo (PyPI.name i) (PyPI.version i) (PyPI.summary i) (PyPI.description i)
                 (PyPI.description_content_type i) (Some l) (PyPI.author i)
                 (PyPI.author_email i) (PyPI.maintainer i) (PyPI.maintainer_email i)
                 (PyPI.keywords i) (PyPI.requires_python i)).

(** Group 1 holds characters of a set. *)
Definition capIn (Q : ascii -> Prop) (c : option str) : Prop :=
  match c with
  | Some g => Forall Q g
  | None => True
  end.

(** A well-formed package name: characters of the name alphabet, the first
    and the last one a letter or a digit. *)
Definition wellFormedName (t : str) : bool :=
  match t, rev t with
  | a :: _, b :: _ =>
      Validators.isAlnum a && Validators.isAlnum b && forallb Validators.isNameChar t
  | _, _ => false
  end.

(** The entry that [set] stores. *)
Definition storedEntry (V : Type) (stamp : Z) (value : V) (ttl : option Z)
           (c : MemoryCache.t V) : MemoryCache.CacheEntry V :=
  MemoryCache.mkEntry value stamp (orNumber ttl (MemoryCache.defaultTtl c)).

(** The text has no colon. *)
Definition noColon (s : str) : bool := forallb (fun c => negb (isChar ":" c)) s.

(** The version a call asks for, and the key of its cache entry. *)
Definition requestedVersion (params : GetPackageReadmeParams) : str :=
  match param_version params with
  | Some v => v
  | None => L "latest"
  end.

Definition requestKey (params : GetPackageReadmeParams) : str :=
  createCacheKey.packageReadme (param_package_name params) (requestedVersion params).

(** [s.endsWith(p)] *)
Definition endsWith (s p : str) : bool := startsWith (rev s) (rev p).

(** A path segment: not empty, no slash. *)
Definition isSegment (s : str) : bool :=
  truthyStr s && forallb GitHubApiClient.notSlash s.

(** The forms of a repository address. *)
Definition repoUrls (owner repo : str) : list str :=
  [L "https://github.com/" ++ owner ++ L "/" ++ repo;
   L "http://github.com/" ++ owner ++ L "/" ++ repo;
   L "github.com/" ++ owner ++ L "/" ++ repo;
   L "https://github.com/" ++ owner ++ L "/" ++ repo ++ L ".git";
   L "https://github.com/" ++ owner ++ L "/" ++ repo ++ L "/";
   L "git+https://github.com/" ++ owner ++ L "/" ++ repo ++ L ".git";
   L "git@github.com:" ++ owner ++ L "/" ++ repo;
   L "git@github.com:" ++ owner ++ L "/" ++ repo ++ L ".git"].

(** Where a position stands, whatever group 1 holds. *)
Definition place (y : pos) : option ascii * str := (prev y, rest y).

(** ** Sample values *)

(** Text that holds nothing but whitespace, and prose without code. *)
Definition blankSample : str := [" "%char; LF; TAB; " "%char; CR; LF].

Definition proseSample : str := L "Install it with pip, then read the manual.".

(** Two examples with different keys, the better one first. *)
Definition rankedSample : list UsageExample :=
  [mkExample (L "Usage") None (L "import demo") (L "python");
   mkExample (L "Code Example") None (L "print(1)") (L "python")].

(** A package whose description is a README in Markdown. *)
Definition sampleReadme : str := L "# demo

## Usage

```python
import demo
demo.run()
```
".

Definition samplePackage : PyPI.PackageInfo :=
  PyPI.mkPackageInfo
    (PyPI.mkInfo (L "demo-cli") (L "1.2.0") (L "A demonstration") sampleReadme
                 (Some (L "text/markdown")) (Some [L "Topic :: Utilities"])
                 (L "Ada") (Some (L "ada@example.org")) None None
                 (PyPI.KeywordsString (L "demo, sample  tool")) (Some (L ">=3.8"))).

Definition sampleParams : GetPackageReadmeParams := mkParams (L "demo-cli") None None.

(** A client that knows the sample package, and one that is offline. *)
Definition sampleClient (packageName : str) : completion PyPI.PackageInfo :=
  if eqStr packageName (L "demo-cli") then Normal samplePackage else Throw.

Definition offlineClient (packageName : str) : completion PyPI.PackageInfo := Throw.

Definition offlineVersions (packageName version : str) : completion PyPI.PackageInfo :=
  Throw.

(** A fresh cache with the default options, and a size for its values. *)
Definition freshCache : PackageReadmeService.Cache :=
  MemoryCache.create PackageReadmeResponse (MemoryCache.mkOptions None None).

Definition sampleSize (response : PackageReadmeResponse) : nat :=
  length (readme_content response).

(** The parameters the tool hands to the service. *)
Definition serviceParams (params : ToolParams) : GetPackageReadmeParams :=
  mkParams (match tool_package_name params with Some n => n | None => [] end)
           (tool_version params) (tool_include_examples params).

(** The package declares a description in Markdown. *)
Definition declaresMarkdown (info : PyPI.Info) : bool :=
  match PyPI.description_content_type info with
  | Some t => includes (toLowerCase t) (L "markdown") || includes (toLowerCase t) (L "md")
  | None => false
  end.

(** A small cache of numbers, each as large as its value. *)
Definition smallCache : MemoryCache.t nat :=
  MemoryCache.mkCache [(L "a", MemoryCache.mkEntry 2 0%Z 1000%Z)] 10%Z 1000%Z.

Definition numberSize (n : nat) : nat := n.

(** * Properties *)

(** ** Strings and characters *)

Lemma eqStr_eq (a b : str) : eqStr a b = true <-> a = b.
Proof.
  revert b; induction a as [|x a IH]; intros [|y b]; simpl; split; intro H;
    try reflexivity; try discriminate.
  - apply andb_true_iff in H as [Hxy Hab].
    apply Ascii.eqb_eq in Hxy. apply IH in Hab. congruence.
  - injection H as -> ->. rewrite Ascii.eqb_refl. simpl. now apply IH.
Qed.

Lemma eqStr_refl (a : str) : eqStr a a = true.
Proof. now apply eqStr_eq. Qed.

Lemma memStr_In (x : str) (l : list str) : memStr x l = true <-> In x l.
Proof.
  unfold memStr. rewrite existsb_exists. split.
  - intros (y & Hy & E). apply eqStr_eq in E. now subst.
  - intro H. exists x. split; [assumption|apply eqStr_refl].
Qed.

Lemma memStr_not_In (x : str) (l : list str) : memStr x l = false <-> ~ In x l.
Proof.
  rewrite <- memStr_In. destruct (memStr x l); split; congruence.
Qed.

Lemma lowerChar_idem (c : ascii) : lowerChar (lowerChar c) = lowerChar c.
Proof.
  destruct c as [[] [] [] [] [] [] [] []]; reflexivity.
Qed.

Lemma toLowerCase_idem (s : str) : toLowerCase (toLowerCase s) = toLowerCase s.
Proof.
  unfold toLowerCase. rewrite map_map. apply map_ext. apply lowerChar_idem.
Qed.

(** ** The matcher *)

Lemma reaches_refl (x : pos) : reaches x x [].
Proof. split; reflexivity. Qed.

Lemma last_cons_default (A : Type) (l : list A) (a d d' : A) :
  last (a :: l) d = last (a :: l) d'.
Proof.
  revert a. induction l as [|b l IH]; intro a; [reflexivity|].
  change (last (b :: l) d = last (b :: l) d'). apply IH.
Qed.

Lemma last_app_default (A : Type) (l1 l2 : list A) (d : A) :
  last (l1 ++ l2) d = last l2 (last l1 d).
Proof.
  revert d. induction l1 as [|a l1 IH]; intro d; [reflexivity|].
  destruct l1 as [|b l1].
  - destruct l2 as [|c l2]; [reflexivity|].
    change (last (c :: l2) d = last (c :: l2) a). apply last_cons_default.
  - change (last ((b :: l1) ++ l2) d = last l2 (last (b :: l1) d)). apply IH.
Qed.

Lemma last_map_app (w v : str) (d : option ascii) :
  last (map Some (w ++ v)) d = last (map Some v) (last (map Some w) d).
Proof. rewrite map_app. apply last_app_default. Qed.

Lemma reaches_trans (x y z : pos) (w v : str) :
  reaches x y w -> reaches y z v -> reaches x z (w ++ v).
Proof.
  intros [H1 H2] [H3 H4]. split.
  - rewrite H1, H3. now rewrite app_assoc.
  - rewrite H4, H2. symmetry. apply last_map_app.
Qed.

Lemma rep_reaches (g : bool) (p : ascii -> bool) (s : str) :
  forall lo pv cp y,
    In y (rep g p lo pv s cp) ->
    exists w, reaches (mkPos pv s cp) y w /\ forallb p w = true
              /\ lo <= length w /\ cap y = cp.
Proof.
  induction s as [|c s IH]; intros lo pv cp y Hin.
  - assert (Hy : lo = 0 /\ y = mkPos pv [] cp).
    { simpl in Hin. destruct g, lo; simpl in Hin; intuition (try discriminate; auto). }
    destruct Hy as [-> ->]. exists []. repeat split; auto.
  - simpl in Hin.
    assert (Hcases :
      (lo = 0 /\ y = mkPos pv (c :: s) cp)
      \/ (p c = true /\ In y (rep g p (pred lo) (Some c) s cp))).
    { destruct g; apply in_app_or in Hin as [H|H];
        (destruct lo; simpl in H; [intuition auto|]); try contradiction;
        try (destruct (p c); [right; auto|contradiction]).
      all: destruct (p c); [right; auto|contradiction]. }
    destruct Hcases as [[-> ->]|[Hp Hy]].
    + exists []. repeat split; auto.
    + apply IH in Hy as (w & [Hr Hl] & Hw & Hlo & Hc). simpl in Hr, Hl.
      exists (c :: w). repeat split; simpl.
      * now rewrite Hr.
      * rewrite Hl. destruct w as [|a w]; [reflexivity|].
        change (last (Some a :: map Some w) (Some c) = last (Some a :: map Some w) pv).
        apply last_cons_default.
      * now rewrite Hp, Hw.
      * lia.
      * assumption.
Qed.

Lemma matches_reaches (r : regex) :
  forall x y, In y (matches r x) -> exists w, reaches x y w.
Proof.
  induction r as [|p|a IHa b IHb|a IHa b IHb|g lo p|m|m|a IHa];
    intros x y Hin; simpl in Hin.
  - destruct Hin as [->|[]]. exists []. apply reaches_refl.
  - destruct (rest x) as [|c s] eqn:E; [contradiction|].
    destruct (p c); [|contradiction]. destruct Hin as [<-|[]].
    exists [c]. split; simpl; [assumption|reflexivity].
  - apply in_flat_map in Hin as (z & Hz & Hy).
    apply IHa in Hz as [w Hw]. apply IHb in Hy as [v Hv].
    exists (w ++ v). eapply reaches_trans; eassumption.
  - apply in_app_or in Hin as [H|H]; [now apply IHa|now apply IHb].
  - destruct x as [pv s cp]. apply rep_reaches in Hin as (w & Hw & _).
    now exists w.
  - destruct (atLineStart m x); [|contradiction]. destruct Hin as [->|[]].
    exists []. apply reaches_refl.
  - destruct (atLineEnd m x); [|contradiction]. destruct Hin as [->|[]].
    exists []. apply reaches_refl.
  - apply in_map_iff in Hin as (z & <- & Hz). apply IHa in Hz as [w [H1 H2]].
    exists w. split; assumption.
Qed.

Lemma matchAt_reaches (r : regex) (x y : pos) :
  matchAt r x = Some y -> exists w, reaches x y w.
Proof.
  unfold matchAt. intro H. apply matches_reaches with (r := r).
  destruct (matches r x); simpl in H; [discriminate|].
  injection H as ->. now left.
Qed.

(** The scan does not depend on the fuel once there is enough of it. *)
Lemma replaceAllFrom_fuel (r : regex) (f : found -> str) :
  forall n m pv s, length s < n -> length s < m ->
    replaceAllFrom r f n pv s = replaceAllFrom r f m pv s.
Proof.
  induction n as [|n IH]; intros m pv s Hn Hm; [lia|].
  destruct m as [|m]; [lia|]. simpl.
  assert (Hstep :
    match s with [] => [] | c :: s' => c :: replaceAllFrom r f n (Some c) s' end
    = match s with [] => [] | c :: s' => c :: replaceAllFrom r f m (Some c) s' end).
  { destruct s as [|c s']; [reflexivity|]. simpl in Hn, Hm.
    f_equal. apply IH; lia. }
  destruct (matchAt r (start pv s)) as [y|] eqn:E; [|exact Hstep].
  f_equal. destruct (length (rest y) <? length s) eqn:El; [|exact Hstep].
  apply Nat.ltb_lt in El. apply IH; lia.
Qed.

(** The equation of the scan. *)
Lemma replaceAllAt_eq (r : regex) (f : found -> str) (pv : option ascii) (s : str) :
  replaceAllAt r f pv s =
  match matchAt r (start pv s) with
  | Some y =>
      f (foundAt (start pv s) y) ++
      (if length (rest y) <? length s
       then replaceAllAt r f (prev y) (rest y)
       else match s with
            | [] => []
            | c :: s' => c :: replaceAllAt r f (Some c) s'
            end)
  | None =>
      match s with
      | [] => []
      | c :: s' => c :: replaceAllAt r f (Some c) s'
      end
  end.
Proof.
  unfold replaceAllAt at 1. simpl.
  assert (Hstep :
    match s with [] => [] | c :: s' => c :: replaceAllFrom r f (length s) (Some c) s' end
    = match s with [] => [] | c :: s' => c :: replaceAllAt r f (Some c) s' end).
  { destruct s as [|c s']; reflexivity. }
  destruct (matchAt r (start pv s)) as [y|] eqn:E; [|exact Hstep].
  f_equal. destruct (length (rest y) <? length s) eqn:El; [|exact Hstep].
  apply Nat.ltb_lt in El. apply replaceAllFrom_fuel; lia.
Qed.

(** Where the pattern matches nowhere the scan changes nothing. *)
Lemma matchesNowhere_tail (r : regex) (c : ascii) (s : str) :
  matchesNowhere r (c :: s) -> matchesNowhere r s.
Proof.
  intros H pv a t E. apply (H pv (c :: a) t). now rewrite E.
Qed.

Lemma replaceAllAt_nowhere (r : regex) (f : found -> str) (s : str) :
  matchesNowhere r s -> forall pv, replaceAllAt r f pv s = s.
Proof.
  induction s as [|c s IH]; intros H pv; rewrite replaceAllAt_eq;
    unfold matchAt; rewrite (H pv [] _ eq_refl); simpl; [reflexivity|].
  f_equal. apply IH. eapply matchesNowhere_tail; eassumption.
Qed.

Lemma replaceAll_nowhere (r : regex) (f : found -> str) (s : str) :
  matchesNowhere r s -> replaceAll r f s = s.
Proof. intro H. now apply replaceAllAt_nowhere. Qed.

(** ** Sorting by score *)

Lemma insert_permutation (A : Type) (cmp : A -> A -> Z) (a : A) (l : list A) :
  Permutation (ExampleProcessor.insert cmp a l) (a :: l).
Proof.
  induction l as [|b l IH]; simpl; [apply Permutation_refl|].
  destruct (cmp a b <=? 0)%Z; [apply Permutation_refl|].
  eapply perm_trans; [apply perm_skip, IH|apply perm_swap].
Qed.

Lemma sort_permutation (A : Type) (cmp : A -> A -> Z) (l : list A) :
  Permutation (ExampleProcessor.sort cmp l) l.
Proof.
  induction l as [|a l IH]; simpl; [apply perm_nil|].
  eapply perm_trans; [apply insert_permutation|]. now apply perm_skip.
Qed.

Section SortByScore.

Variable A : Type.
Variable score : A -> Z.

Lemma insert_sorted (a : A * Z) (l : list (A * Z)) :
  StronglySorted (@descending A) l ->
  StronglySorted (@descending A) (ExampleProcessor.insert (@byScore A) a l).
Proof.
  induction 1 as [|b l Hl IH Hb]; simpl.
  - constructor; constructor.
  - destruct ((@byScore A) a b <=? 0)%Z eqn:E.
    + apply Z.leb_le in E. unfold byScore in E.
      constructor; [constructor; assumption|].
      constructor; [unfold descending; lia|].
      eapply Forall_impl; [|exact Hb].
      unfold descending. intros; lia.
    + apply Z.leb_gt in E. unfold byScore in E.
      constructor; [assumption|].
      eapply Permutation_Forall; [apply Permutation_sym, insert_permutation|].
      constructor; [unfold descending; lia|assumption].
Qed.

Lemma sort_sorted (l : list (A * Z)) :
  StronglySorted (@descending A) (ExampleProcessor.sort (@byScore A) l).
Proof.
  induction l as [|a l IH]; simpl; [constructor|]. now apply insert_sorted.
Qed.

Lemma insert_filter (k : Z) (a : A * Z) (l : list (A * Z)) :
  filter (fun p => (snd p =? k)%Z) (ExampleProcessor.insert (@byScore A) a l)
  = filter (fun p => (snd p =? k)%Z) (a :: l).
Proof.
  induction l as [|b l IH]; [reflexivity|].
  simpl ExampleProcessor.insert.
  destruct ((@byScore A) a b <=? 0)%Z eqn:E; [reflexivity|].
  apply Z.leb_gt in E. unfold byScore in E.
  simpl. simpl in IH. rewrite IH.
  destruct (snd a =? k)%Z eqn:Ea; [|reflexivity].
  apply Z.eqb_eq in Ea.
  assert (Hb : (snd b =? k)%Z = false) by (apply Z.eqb_neq; lia).
  now rewrite Hb.
Qed.

Lemma sort_filter (k : Z) (l : list (A * Z)) :
  filter (fun p => (snd p =? k)%Z) (ExampleProcessor.sort (@byScore A) l)
  = filter (fun p => (snd p =? k)%Z) l.
Proof.
  induction l as [|a l IH]; [reflexivity|].
  simpl ExampleProcessor.sort. rewrite insert_filter. simpl. now rewrite IH.
Qed.

Lemma sortByScore_perm (l : list A) : Permutation (sortByScore score l) l.
Proof.
  unfold sortByScore.
  eapply perm_trans; [apply Permutation_map, sort_permutation|].
  rewrite map_map. simpl. rewrite map_id. apply Permutation_refl.
Qed.

Lemma scored_consistent (l : list A) :
  Forall (fun p => snd p = score (fst p))
         (ExampleProcessor.sort (@byScore A) (map (withScore score) l)).
Proof.
  eapply Permutation_Forall; [apply Permutation_sym, sort_permutation|].
  apply Forall_forall. intros p Hp. apply in_map_iff in Hp as (e & <- & _).
  reflexivity.
Qed.

Lemma sortByScore_sorted (l : list A) :
  StronglySorted (fun a b => (score b <= score a)%Z) (sortByScore score l).
Proof.
  unfold sortByScore.
  pose proof (scored_consistent l) as Hc. pose proof (sort_sorted (map (withScore score) l)) as Hs.
  induction Hs as [|p ps Hps IH Hp]; simpl; [constructor|].
  inversion Hc as [|? ? Hp1 Hc1]; subst.
  constructor; [now apply IH|].
  apply Forall_forall. intros e He. apply in_map_iff in He as (q & <- & Hq).
  rewrite Forall_forall in Hp, Hc1. specialize (Hp q Hq). specialize (Hc1 q Hq).
  unfold descending in Hp. rewrite <- Hp1, <- Hc1. exact Hp.
Qed.

Lemma sortByScore_stable (k : Z) (l : list A) :
  filter (fun e => (score e =? k)%Z) (sortByScore score l)
  = filter (fun e => (score e =? k)%Z) l.
Proof.
  unfold sortByScore.
  assert (Hmap : forall L : list (A * Z),
             Forall (fun p => snd p = score (fst p)) L ->
             filter (fun e => (score e =? k)%Z) (map fst L)
             = map fst (filter (fun p => (snd p =? k)%Z) L)).
  { induction 1 as [|p L Hp HL IH]; [reflexivity|]. simpl.
    rewrite <- Hp. destruct (snd p =? k)%Z; simpl; now rewrite IH. }
  rewrite Hmap by apply scored_consistent.
  rewrite sort_filter. rewrite <- Hmap.
  - rewrite map_map. simpl. now rewrite map_id.
  - apply Forall_forall. intros p Hp. apply in_map_iff in Hp as (e & <- & _).
    reflexivity.
Qed.

End SortByScore.

Lemma sortExamplesByRelevance_eq (l : list UsageExample) :
  ExampleProcessor.sortExamplesByRelevance l
  = sortByScore ExampleProcessor.calculateRelevanceScore l.
Proof. reflexivity. Qed.

(** ** Deduplication *)

Lemma dedupLoop_spec (l : list UsageExample) :
  forall unique seen,
    (forall k, In k seen <-> In k (map key unique)) ->
    NoDup (map key unique) ->
    exists kept,
      ExampleProcessor.dedupLoop l unique seen = unique ++ kept
      /\ NoDup (map key (unique ++ kept))
      /\ length kept <= length l
      /\ Forall (fun e => exists pre post,
                     l = pre ++ e :: post
                     /\ ~ In (key e) (map key (unique ++ pre))) kept
      /\ Forall (fun e => In (key e) (map key (unique ++ kept))) l.
Proof.
  induction l as [|e l IH]; intros unique seen Hseen Hnd; simpl.
  - exists []. rewrite app_nil_r. repeat split; auto.
  - fold (key e). destruct (memStr (key e) seen) eqn:Em; simpl.
    + apply memStr_In in Em. apply Hseen in Em.
      destruct (IH unique seen Hseen Hnd) as (kept & E & Hn & Hlen & Hfirst & Hall).
      exists kept. repeat split; auto.
      * eapply Forall_impl; [|exact Hfirst].
        intros a (pre & post & -> & Hpre). exists (e :: pre), post. split; [reflexivity|].
        intro Hin. apply Hpre. rewrite map_app in *. simpl in Hin.
        apply in_app_or in Hin as [H|[H|H]]; apply in_or_app; auto.
        left. now rewrite <- H.
      * constructor; [|assumption]. rewrite map_app. apply in_or_app. now left.
    + apply memStr_not_In in Em.
      assert (Hseen' : forall k, In k (key e :: seen) <-> In k (map key (unique ++ [e]))).
      { intro k. rewrite map_app, in_app_iff. simpl. rewrite Hseen. tauto. }
      assert (Hnd' : NoDup (map key (unique ++ [e]))).
      { rewrite map_app. simpl. apply NoDup_app_remove_l with (l := []).
        simpl. apply Permutation_NoDup with (l := key e :: map key unique).
        - apply Permutation_cons_append.
        - constructor; [|assumption]. intro H. apply Em. now apply Hseen. }
      destruct (IH _ _ Hseen' Hnd') as (kept & E & Hn & Hlen & Hfirst & Hall).
      exists (e :: kept). rewrite E, <- app_assoc in *. simpl in *.
      repeat split; auto.
      * lia.
      * constructor.
        -- exists [], l. split; [reflexivity|]. rewrite app_nil_r.
           intro H. apply Em. now apply Hseen.
        -- eapply Forall_impl; [|exact Hfirst].
           intros a (pre & post & -> & Hpre). exists (e :: pre), post.
           split; [reflexivity|]. now rewrite <- app_assoc in Hpre.
      * constructor; [|assumption]. rewrite map_app. apply in_or_app. right. now left.
Qed.

Lemma deduplicateExamples_spec (l : list UsageExample) :
  NoDup (map key (ExampleProcessor.deduplicateExamples l))
  /\ length (ExampleProcessor.deduplicateExamples l) <= length l
  /\ Forall (firstOfKey l) (ExampleProcessor.deduplicateExamples l)
  /\ Forall (fun e => In (key e) (map key (ExampleProcessor.deduplicateExamples l))) l.
Proof.
  unfold ExampleProcessor.deduplicateExamples.
  destruct (@dedupLoop_spec l [] []) as (kept & E & Hn & Hlen & Hf & Ha).
  - intro k. simpl. tauto.
  - constructor.
  - rewrite E. simpl in *. repeat split; auto.
Qed.

(** ** The score in the words of the specification *)

Lemma calculateRelevanceScore_spec (e : UsageExample) :
  ExampleProcessor.calculateRelevanceScore e = specScore e.
Proof.
  unfold ExampleProcessor.calculateRelevanceScore, specScore,
    ExampleProcessor.isGoodTitle, README_CONFIG.IDEAL_EXAMPLE_LENGTH, bonus.
  set (n := length (code e)).
  assert (Htitle :
    negb (eqStr (title e) []) && existsb
      (fun keyword => includes (toLowerCase (title e)) keyword)
      [L "usage"; L "example"; L "quickstart"; L "basic"; L "simple";
       L "getting started"] =
    existsb (fun keyword => includes (toLowerCase (title e)) keyword)
      [L "usage"; L "example"; L "quickstart"; L "basic"; L "simple";
       L "getting started"]).
  { destruct (title e); reflexivity. }
  rewrite Htitle; clear Htitle.
  destruct (existsb _ _).
  all: assert (H1 : (50 <=? Z.of_nat n)%Z = (50 <=? n))
    by (destruct (50 <=? n) eqn:E;
        [apply Nat.leb_le in E; apply Z.leb_le; lia
        |apply Nat.leb_gt in E; apply Z.leb_gt; lia]).
  all: assert (H2 : (Z.of_nat n <=? 200)%Z = (n <=? 200))
    by (destruct (n <=? 200) eqn:E;
        [apply Nat.leb_le in E; apply Z.leb_le; lia
        |apply Nat.leb_gt in E; apply Z.leb_gt; lia]).
  all: assert (H3 : (200 <? Z.of_nat n)%Z = (200 <? n))
    by (destruct (200 <? n) eqn:E;
        [apply Nat.ltb_lt in E; apply Z.ltb_lt; lia
        |apply Nat.ltb_ge in E; apply Z.ltb_ge; lia]).
  all: assert (Hdiv : Z.of_nat ((n - 200) / 100)
                      = if 200 <? n then ((Z.of_nat n - 200) / 100)%Z else 0%Z)
    by (destruct (200 <? n) eqn:E;
        [apply Nat.ltb_lt in E; rewrite Nat2Z.inj_div, Nat2Z.inj_sub by lia;
         reflexivity
        |apply Nat.ltb_ge in E; replace (n - 200) with 0 by lia; reflexivity]).
  all: rewrite H1, H2, H3, Hdiv; clear H1 H2 H3 Hdiv.
  all: destruct (includes (code e) (L "import "));
    destruct (includes (code e) (L "from "));
    destruct (includes (code e) (L "=") && negb (includes (code e) (L "==")));
    destruct (test ExampleProcessor.reCall (code e));
    destruct (ExampleProcessor.truthy (description e)).
  all: destruct (Nat.leb_spec 50 n); destruct (Nat.leb_spec n 200);
    destruct (Nat.ltb_spec 200 n); simpl andb; cbv iota; lia.
Qed.

(** ** The extraction pipeline *)

Lemma blockLoop_invariant (I : ExampleExtractor.blockState -> Prop) :
  (forall st line, I st -> I (ExampleExtractor.blockStep st line)) ->
  forall lines st, I st -> I (ExampleExtractor.blockLoop lines st).
Proof.
  intros Hstep lines. unfold ExampleExtractor.blockLoop.
  induction lines as [|line lines IH]; intros st Hst; simpl; [assumption|].
  apply IH, Hstep, Hst.
Qed.


(** The examples of a step: those before, and at most one new one, built
    from a block that the classifier accepted. *)
Lemma blockStep_examples (st : ExampleExtractor.blockState) (line : str) :
  ExampleExtractor.examples (ExampleExtractor.blockStep st line)
  = ExampleExtractor.examples st
  \/ exists section,
      ExampleExtractor.isLikelyUsageExample
        (ExampleExtractor.currentCodeBlock st)
        (ExampleExtractor.currentLanguage st) section = true
      /\ ExampleExtractor.examples (ExampleExtractor.blockStep st line)
         = ExampleExtractor.examples st ++
           [mkExample (orElse (ExampleExtractor.formatTitle section) (L "Code Example"))
                      None
                      (trim (ExampleExtractor.currentCodeBlock st))
                      (orElse (ExampleExtractor.currentLanguage st) (L "python"))].
Proof.
  unfold ExampleExtractor.blockStep.
  set (section := if test ExampleExtractor.reHeading (trim line) then _ else _).
  destruct (startsWith (trim line) ExampleExtractor.FENCE).
  - destruct (ExampleExtractor.inCodeBlock st); simpl; [|now left].
    destruct (ExampleExtractor.isLikelyUsageExample _ _ section) eqn:E; [|now left].
    right. exists section. split; [assumption|reflexivity].
  - destruct (ExampleExtractor.inCodeBlock st); simpl; now left.
Qed.


Lemma Forall_firstn (A : Type) (P : A -> Prop) (n : nat) (l : list A) :
  Forall P l -> Forall P (firstn n l).
Proof.
  intro H. revert n. induction H as [|a l Ha Hl IH]; intros [|n]; simpl;
    constructor; auto.
Qed.

Lemma firstOfKey_In (l : list UsageExample) (e : UsageExample) :
  firstOfKey l e -> In e l.
Proof.
  intros (pre & post & -> & _). apply in_or_app. right. now left.
Qed.

(** Every example of the service is a raw example of the extractor. *)
Lemma service_examples_raw (P : UsageExample -> Prop) (x : str) :
  Forall P (ExampleExtractor.extractUsageExamples x) ->
  Forall P (ReadmeService.extractUsageExamples x).
Proof.
  intro H. unfold ReadmeService.extractUsageExamples.
  rewrite sortExamplesByRelevance_eq.
  eapply Permutation_Forall; [apply Permutation_sym, sortByScore_perm|].
  destruct (deduplicateExamples_spec (ExampleExtractor.extractUsageExamples x))
    as (_ & _ & Hfirst & _).
  apply Forall_forall. intros e He. rewrite Forall_forall in H, Hfirst.
  apply H. apply firstOfKey_In. now apply Hfirst.
Qed.

Lemma extractUsageExamples_eq (x : str) :
  ExampleExtractor.extractUsageExamples x
  = firstn README_CONFIG.MAX_EXAMPLES
      (ExampleExtractor.extractBlockExamples x
       ++ ExampleExtractor.extractInlineExamples x).
Proof. reflexivity. Qed.

Lemma extractor_examples (P : UsageExample -> Prop) (x : str) :
  Forall P (ExampleExtractor.extractBlockExamples x) ->
  Forall P (ExampleExtractor.extractInlineExamples x) ->
  Forall P (ExampleExtractor.extractUsageExamples x).
Proof.
  intros Hb Hi. rewrite extractUsageExamples_eq.
  apply Forall_firstn. apply Forall_app. now split.
Qed.

(** C9: for every input the list returned by the example-extraction entry
    point ([ExampleExtractor.extractUsageExamples], and the service that
    deduplicates and ranks its result) has at most [MAX_EXAMPLES] = 20
    elements; the entry point's only argument is the text. *)
Theorem C9_output_cap (readmeContent : str) :
  length (ExampleExtractor.extractUsageExamples readmeContent)
    <= README_CONFIG.MAX_EXAMPLES
  /\ length (ReadmeService.extractUsageExamples readmeContent)
    <= README_CONFIG.MAX_EXAMPLES
  /\ README_CONFIG.MAX_EXAMPLES = 20.
Proof.
  assert (Hraw : length (ExampleExtractor.extractUsageExamples readmeContent)
                 <= README_CONFIG.MAX_EXAMPLES).
  { rewrite extractUsageExamples_eq. apply firstn_le_length. }
  split; [exact Hraw|]. split; [|reflexivity].
  unfold ReadmeService.extractUsageExamples.
  rewrite sortExamplesByRelevance_eq.
  rewrite (Permutation_length (sortByScore_perm _ _)).
  destruct (deduplicateExamples_spec (ExampleExtractor.extractUsageExamples readmeContent))
    as (_ & Hlen & _).
  lia.
Qed.

(** C8: the list returned by the pipeline is the deduplicated list sorted by
    descending relevance score, examples of equal score keeping their
    relative order, and the score is the additive total of the
    specification: +50 for [import ], +45 for [from ], +30 for an [=] with no
    [==], +25 for a call [identifier.identifier(], +20 for a title holding a
    good-title keyword, +15 for a non-empty description, +10 for a length
    from 50 to 200, and minus floor((length - 200) / 100) above 200. *)
Theorem C8_ranking (readmeContent : str) :
  let score := ExampleProcessor.calculateRelevanceScore in
  let unique := ExampleProcessor.deduplicateExamples
                  (ExampleExtractor.extractUsageExamples readmeContent) in
  let out := ReadmeService.extractUsageExamples readmeContent in
  StronglySorted (fun a b => (score b <= score a)%Z) out
  /\ (forall k, filter (fun e => (score e =? k)%Z) out
                = filter (fun e => (score e =? k)%Z) unique)
  /\ Permutation out unique
  /\ (forall e, score e = specScore e).
Proof.
  intros score unique out.
  assert (E : out = sortByScore score unique) by reflexivity.
  rewrite E. repeat split.
  - apply sortByScore_sorted.
  - intro k. apply sortByScore_stable.
  - apply sortByScore_perm.
  - apply calculateRelevanceScore_spec.
Qed.



(** ** Length of the extracted code *)



Lemma blockExamples_invariant (P : UsageExample -> Prop) :
  (forall c language section,
      ExampleExtractor.isLikelyUsageExample c language section = true ->
      P (mkExample (orElse (ExampleExtractor.formatTitle section) (L "Code Example"))
                   None (trim c) (orElse language (L "python")))) ->
  forall lines st,
    Forall P (ExampleExtractor.examples st) ->
    Forall P (ExampleExtractor.examples (ExampleExtractor.blockLoop lines st)).
Proof.
  intros HP. apply blockLoop_invariant. intros st line Hst.
  destruct (blockStep_examples st line) as [->|(section & Hs & ->)]; [assumption|].
  apply Forall_app. split; [assumption|]. constructor; [|constructor].
  now apply HP.
Qed.



(** ** Unterminated fences *)



Lemma blockStep_examples_inside (st : ExampleExtractor.blockState) (line : str) :
  isFenceLine line = false ->
  ExampleExtractor.examples (ExampleExtractor.blockStep st line)
  = ExampleExtractor.examples st.
Proof.
  unfold isFenceLine, ExampleExtractor.blockStep. intros ->.
  destruct (ExampleExtractor.inCodeBlock st); reflexivity.
Qed.


Lemma blockLoop_no_fence (body : list str) :
  Forall (fun line => isFenceLine line = false) body ->
  forall st,
    ExampleExtractor.examples (ExampleExtractor.blockLoop body st)
    = ExampleExtractor.examples st.
Proof.
  unfold ExampleExtractor.blockLoop.
  induction 1 as [|line body Hline Hbody IH]; intro st; simpl; [reflexivity|].
  rewrite IH. now apply blockStep_examples_inside.
Qed.




(** ** Greedy repetition *)

Lemma hd_error_app (A : Type) (l l' : list A) (a : A) :
  hd_error l = Some a -> hd_error (l ++ l') = Some a.
Proof. destruct l; simpl; [discriminate|auto]. Qed.

(** The first candidate of a greedy repetition is the whole run. *)
Lemma rep_greedy_first (p : ascii -> bool) (w t : str) :
  forallb p w = true -> stopsAt p t ->
  forall lo pv cp, lo <= length w ->
    hd_error (rep true p lo pv (w ++ t) cp)
    = Some (mkPos (last (map Some w) pv) t cp).
Proof.
  intros Hw Ht. induction w as [|a w IH]; intros lo pv cp Hlo.
  - simpl in Hlo. assert (lo = 0) as -> by lia.
    destruct t as [|c t]; simpl; [reflexivity|].
    simpl in Ht. now rewrite Ht.
  - simpl in Hw. apply andb_true_iff in Hw as [Ha Hw].
    change ((a :: w) ++ t) with (a :: (w ++ t)).
    simpl rep. rewrite Ha. apply hd_error_app.
    rewrite (IH Hw) by (simpl in Hlo; lia).
    f_equal. f_equal. destruct w as [|b w]; [reflexivity|].
    change (last (Some b :: map Some w) (Some a) = last (Some b :: map Some w) pv).
    apply last_cons_default.
Qed.

Lemma firstn_app_exact (A : Type) (w t : list A) :
  firstn (length (w ++ t) - length t) (w ++ t) = w.
Proof.
  rewrite length_app. replace (length w + length t - length t) with (length w) by lia.
  rewrite firstn_app, Nat.sub_diag, firstn_all. simpl. apply app_nil_r.
Qed.


(** A pattern that starts with [^] (no m flag) matches at the start only. *)
Lemma execFrom_anchored (r : regex) (s : str) :
  forall c, execFrom (Seq (Bol false) r) (Some c) s = None.
Proof.
  induction s as [|d s IH]; intro c; simpl; [reflexivity|apply IH].
Qed.

Lemma exec_anchored (r : regex) (s : str) :
  matches r (start None s) = [] -> exec (Seq (Bol false) r) s = None.
Proof.
  intro H. unfold exec. destruct s as [|c s]; simpl; unfold matchAt; simpl;
    rewrite H; simpl; [reflexivity|apply execFrom_anchored].
Qed.


(** ** Languages of the examples *)






(** The older parser. *)



Lemma parserStep_examples (st : ReadmeParser.parserState) (line : str) :
  ReadmeParser.examples (ReadmeParser.parserStep st line) = ReadmeParser.examples st
  \/ exists ttl descr,
      ReadmeParser.isLikelyUsageExample
        (ReadmeParser.currentCodeBlock st) (ReadmeParser.currentLanguage st) ttl = true
      /\ ReadmeParser.examples (ReadmeParser.parserStep st line)
         = ReadmeParser.examples st ++
           [mkExample (orElse ttl (L "Code Example")) descr
                      (trim (ReadmeParser.currentCodeBlock st))
                      (orElse (ReadmeParser.currentLanguage st) (L "python"))].
Proof.
  unfold ReadmeParser.parserStep.
  set (isHeader := test ExampleExtractor.reHeading (trim line)).
  set (section := if isHeader then _ else _).
  set (ttl := if isHeader && ReadmeParser.isUsageSection section then _ else _).
  set (descr := if isHeader && ReadmeParser.isUsageSection section then _ else _).
  destruct (startsWith (trim line) ExampleExtractor.FENCE).
  - destruct (ReadmeParser.inCodeBlock st); simpl; [|now left].
    destruct (ReadmeParser.isLikelyUsageExample _ _ ttl) eqn:E; [|now left].
    right. exists ttl, (ReadmeParser.noneIfEmpty descr). split; [assumption|reflexivity].
  - destruct (ReadmeParser.inCodeBlock st); [now left|].
    destruct (ReadmeParser.isUsageSection section && negb (eqStr (trim line) [])
              && negb (startsWith (trim line) (L "#"))); now left.
Qed.





(** ** Installation commands *)

(** C2, as amended: in the older parser a block tagged bash whose trimmed
    body has 10 to 5000 characters and holds [pip install] or [pipx install]
    is accepted, whatever its title, provided the output-only test, which
    comes first, does not reject it; that parser returns exactly one example,
    of language bash, for Scenario 2.  The classifier of the current pipeline
    has no rule for installation commands: it accepts a bash block exactly
    when the length is in range, the trimmed body holds one of its code
    keywords, and the body has an [import ] or [from ], a usage section, or
    an [=] without [==]. *)
Theorem C2_install_command_acceptance :
  (forall body ttl,
      10 <= length (trim body) -> length (trim body) <= 5000 ->
      includes body (L "pip install") = true
      \/ includes body (L "pipx install") = true ->
      ReadmeParser.isOutputOnly body = false ->
      ReadmeParser.isLikelyUsageExample body (L "bash") ttl = true)
  /\ ReadmeParser.extractUsageExamples installOnly
     = [mkExample (L "Code Example") None (L "pip install foo") (L "bash")]
  /\ (forall body section,
         ExampleExtractor.isLikelyUsageExample body (L "bash") section
         = (README_CONFIG.MIN_CODE_BLOCK_LENGTH <=? length (trim body))
           && (length (trim body) <=? README_CONFIG.MAX_CODE_BLOCK_LENGTH)
           && negb (ExampleExtractor.isOutputOnly (trim body))
           && ExampleExtractor.hasUsageIndicators (trim body) (L "bash") section).
Proof.
  split; [|split].
  - intros body ttl Hmin Hmax Hpip Hout.
    unfold ReadmeParser.isLikelyUsageExample.
    apply Nat.ltb_ge in Hmin, Hmax. rewrite Hmin, Hmax, Hout.
    destruct Hpip as [Hpip|Hpip]; rewrite Hpip; try rewrite orb_true_r; reflexivity.
  - vm_compute. reflexivity.
  - intros body section. unfold ExampleExtractor.isLikelyUsageExample.
    change (negb (eqStr (L "bash") []) && negb (ExampleExtractor.isRelevantLanguage (L "bash")))
      with false.
    cbv iota.
    rewrite (Nat.leb_antisym (length (trim body))), (Nat.leb_antisym _ (length (trim body))).
    destruct (length (trim body) <? README_CONFIG.MIN_CODE_BLOCK_LENGTH);
      destruct (README_CONFIG.MAX_CODE_BLOCK_LENGTH <? length (trim body));
      simpl; try reflexivity.
    destruct (ExampleExtractor.isOutputOnly (trim body)); reflexivity.
Qed.

Lemma C2_install_command_acceptance_witness :
  ReadmeParser.isLikelyUsageExample (L "pip install foo
") (L "bash") [] = true.
Proof.
  apply (proj1 C2_install_command_acceptance).
  - vm_compute. lia.
  - vm_compute. lia.
  - left. vm_compute. reflexivity.
  - vm_compute. reflexivity.
Defined.

(** The claim C2 fails in both implementations: the current classifier
    rejects the body of Scenario 2, so that the pipeline returns nothing for
    it, and the older one rejects an installation command that its
    output-only test takes for a list item. *)
Lemma C2_counterexample :
  ExampleExtractor.isLikelyUsageExample (L "pip install foo
") (L "bash") [] = false
  /\ ReadmeService.extractUsageExamples installOnly = []
  /\ ReadmeParser.isLikelyUsageExample (L "- pip install foo
") (L "bash") [] = false.
Proof. repeat split; vm_compute; reflexivity. Qed.

(** ** Runs of a character class *)

(** A run shorter than the minimum gives no candidate. *)
Lemma rep_short (g : bool) (p : ascii -> bool) (w t : str) :
  forallb p w = true -> stopsAt p t ->
  forall lo pv cp, length w < lo -> rep g p lo pv (w ++ t) cp = [].
Proof.
  intros Hw Ht. induction w as [|a w IH]; intros lo pv cp Hlo.
  - destruct lo as [|lo]; [simpl in Hlo; lia|].
    destruct t as [|c t]; simpl.
    + now destruct g.
    + simpl in Ht. rewrite Ht. now destruct g.
  - simpl in Hw. apply andb_true_iff in Hw as [Ha Hw].
    destruct lo as [|lo]; [simpl in Hlo; lia|].
    change ((a :: w) ++ t) with (a :: (w ++ t)). simpl rep. rewrite Ha.
    rewrite (IH Hw) by (simpl in Hlo; simpl; lia).
    now destruct g.
Qed.

Lemma flat_map_nil (A B : Type) (f : A -> list B) (l : list A) :
  (forall a, In a l -> f a = []) -> flat_map f l = [].
Proof.
  induction l as [|a l IH]; intro H; simpl; [reflexivity|].
  rewrite (H a) by now left. apply IH. intros b Hb. apply H. now right.
Qed.

(** ** Patterns without anchors

    What such a pattern matches does not depend on the code unit before the
    position. *)

Lemma rep_view (g : bool) (p : ascii -> bool) (s : str) :
  forall lo pv pv' cp,
    map view (rep g p lo pv s cp) = map view (rep g p lo pv' s cp).
Proof.
  induction s as [|c s IH]; intros lo pv pv' cp; simpl.
  - destruct g, lo; reflexivity.
  - destruct g; rewrite !map_app; f_equal;
      try (destruct lo; reflexivity);
      try (destruct (p c); [apply IH|reflexivity]).
Qed.

Lemma map_cons_inv (A B : Type) (f : A -> B) (a a' : A) (l l' : list A) :
  map f (a :: l) = map f (a' :: l') -> f a = f a' /\ map f l = map f l'.
Proof.
  intro H. split.
  - apply (f_equal (@hd_error B)) in H. simpl in H. congruence.
  - apply (f_equal (@tl B)) in H. exact H.
Qed.

Lemma matches_view (r : regex) :
  anchorFree r = true ->
  forall x x', view x = view x' ->
    map view (matches r x) = map view (matches r x').
Proof.
  induction r as [|p|a IHa b IHb|a IHa b IHb|g lo p|m|m|a IHa];
    simpl; intros Hr x x' E; try discriminate.
  - now rewrite E.
  - destruct x as [pv s cp], x' as [pv' s' cp']. unfold view in E. simpl in E.
    injection E as <- <-. simpl. destruct s as [|c s]; [reflexivity|].
    destruct (p c); reflexivity.
  - apply andb_true_iff in Hr as [Ha Hb].
    specialize (IHa Ha x x' E). specialize (IHb Hb).
    revert IHa. generalize (matches a x) (matches a x').
    induction l as [|y l IHl]; intros [|y' l'] El; try discriminate.
    + reflexivity.
    + apply map_cons_inv in El as [Ey El]. simpl. rewrite !map_app. f_equal.
      * now apply IHb.
      * now apply IHl.
  - apply andb_true_iff in Hr as [Ha Hb]. rewrite !map_app. f_equal.
    + now apply IHa.
    + now apply IHb.
  - destruct x as [pv s cp], x' as [pv' s' cp']. unfold view in E. simpl in E.
    injection E as <- <-. simpl. apply rep_view.
  - specialize (IHa Hr x x' E). rewrite !map_map.
    assert (Erest : rest x = rest x') by (unfold view in E; congruence).
    revert IHa. generalize (matches a x) (matches a x').
    induction l as [|y l IHl]; intros [|y' l'] El; try discriminate.
    + reflexivity.
    + apply map_cons_inv in El as [Ey El]. simpl. f_equal.
      * unfold view, consumed. simpl. unfold view in Ey.
        injection Ey as Ey1 Ey2. now rewrite Erest, Ey1.
      * now apply IHl.
Qed.

Lemma matchAt_view (r : regex) (pv pv' : option ascii) (s : str) :
  anchorFree r = true ->
  option_map view (matchAt r (start pv s)) = option_map view (matchAt r (start pv' s)).
Proof.
  intro Hr. unfold matchAt.
  pose proof (@matches_view r Hr (start pv s) (start pv' s) eq_refl) as H.
  destruct (matches r (start pv s)), (matches r (start pv' s));
    try discriminate; [reflexivity|].
  apply map_cons_inv in H as [H _]. simpl. now rewrite H.
Qed.

Lemma replaceAllFrom_prev (r : regex) (f : found -> str) :
  anchorFree r = true ->
  forall n pv pv' s,
    replaceAllFrom r f n pv s = replaceAllFrom r f n pv' s.
Proof.
  intro Hr. induction n as [|n IH]; intros pv pv' s; [reflexivity|]. simpl.
  pose proof (@matchAt_view r pv pv' s Hr) as H.
  destruct (matchAt r (start pv s)) as [y|], (matchAt r (start pv' s)) as [y'|];
    simpl in H; try discriminate; [|reflexivity].
  assert (H1 : rest y = rest y') by (unfold view in H; simpl in H; congruence).
  assert (H2 : cap y = cap y') by (unfold view in H; simpl in H; congruence).
  unfold foundAt, consumed. simpl rest. rewrite H1, H2. f_equal.
  destruct (length (rest y') <? length s); [|reflexivity].
  apply IH.
Qed.

Lemma replaceAllAt_prev (r : regex) (f : found -> str) (pv : option ascii) (s : str) :
  anchorFree r = true -> replaceAllAt r f pv s = replaceAll r f s.
Proof. intro Hr. now apply replaceAllFrom_prev. Qed.

(** The equation of the scan for a pattern without anchors. *)
Lemma replaceAll_eq (r : regex) (f : found -> str) (s : str) :
  anchorFree r = true ->
  replaceAll r f s =
  match matchAt r (start None s) with
  | Some y =>
      f (foundAt (start None s) y) ++
      (if length (rest y) <? length s
       then replaceAll r f (rest y)
       else match s with
            | [] => []
            | c :: s' => c :: replaceAll r f s'
            end)
  | None =>
      match s with
      | [] => []
      | c :: s' => c :: replaceAll r f s'
      end
  end.
Proof.
  intro Hr. unfold replaceAll at 1. rewrite replaceAllAt_eq.
  destruct (matchAt r (start None s)) as [y|].
  - rewrite (@replaceAllAt_prev r f (prev y) (rest y) Hr).
    destruct s as [|c s']; [reflexivity|].
    now rewrite (@replaceAllAt_prev r f (Some c) s' Hr).
  - destruct s as [|c s']; [reflexivity|].
    now rewrite (@replaceAllAt_prev r f (Some c) s' Hr).
Qed.

(** ** The newline-collapsing step as a scanner *)

Lemma run_split (p : ascii -> bool) (s : str) :
  forallb p (firstn (runLength p s) s) = true
  /\ stopsAt p (skipn (runLength p s) s)
  /\ length (firstn (runLength p s) s) = runLength p s.
Proof.
  induction s as [|c s (H1 & H2 & H3)]; simpl; [auto|].
  destruct (p c) eqn:E; simpl; [|auto].
  rewrite E, H1, H3. auto.
Qed.

Lemma runLength_le (p : ascii -> bool) (s : str) : runLength p s <= length s.
Proof.
  induction s as [|c s IH]; simpl; [lia|]. destruct (p c); simpl; lia.
Qed.

(** The best candidate of a greedy repetition on its own: the longest run,
    when it is long enough. *)
Lemma matchAt_rep_greedy (p : ascii -> bool) (lo : nat) (pv : option ascii) (s : str) :
  matchAt (Rep true lo p) (start pv s) =
  if lo <=? runLength p s
  then Some (mkPos (last (map Some (firstn (runLength p s) s)) pv)
                   (skipn (runLength p s) s) None)
  else None.
Proof.
  destruct (run_split p s) as (Hw & Ht & Hlen).
  unfold matchAt, start. simpl matches.
  rewrite <- (firstn_skipn (runLength p s) s) at 1.
  destruct (Nat.leb_spec lo (runLength p s)) as [H|H].
  - apply rep_greedy_first; auto. lia.
  - rewrite rep_short; auto. lia.
Qed.

(** [collapse] replaces each run of three or more line feeds by two. *)
Lemma collapse_eq (s : str) :
  collapse s =
  if 3 <=? runLength isLF s
  then LF :: LF :: collapse (skipn (runLength isLF s) s)
  else match s with
       | [] => []
       | c :: s' => c :: collapse s'
       end.
Proof.
  unfold collapse. rewrite replaceAll_eq by reflexivity.
  unfold ReadmeContentCleaner.reBlankLines.
  change (isChar LF) with isLF.
  rewrite matchAt_rep_greedy.
  destruct (Nat.leb_spec 3 (runLength isLF s)) as [H3|H3]; [|reflexivity].
  simpl rest. replace (length (skipn (runLength isLF s) s) <? length s) with true;
    [reflexivity|].
  symmetry. apply Nat.ltb_lt. rewrite length_skipn.
  pose proof (runLength_le isLF s). lia.
Qed.

Lemma isLF_eq (c : ascii) : isLF c = true -> c = LF.
Proof. unfold isLF, isChar. apply Ascii.eqb_eq. Qed.

(** Induction along the scan. *)
Lemma collapse_ind (P : str -> str -> Prop) :
  P [] [] ->
  (forall s r, 3 <= runLength isLF s ->
               P (skipn (runLength isLF s) s) r -> P s (LF :: LF :: r)) ->
  (forall c s r, runLength isLF (c :: s) < 3 -> P s r -> P (c :: s) (c :: r)) ->
  forall s, P s (collapse s).
Proof.
  intros Hnil Hrun Hstep s.
  remember (length s) as n eqn:En. revert s En.
  induction n as [n IH] using lt_wf_ind. intros s En.
  rewrite collapse_eq.
  destruct (Nat.leb_spec 3 (runLength isLF s)) as [H3|H3].
  - apply Hrun; [assumption|].
    apply (IH (length (skipn (runLength isLF s) s))); [|reflexivity].
    rewrite length_skipn. pose proof (runLength_le isLF s). lia.
  - destruct s as [|c s]; [exact Hnil|].
    apply Hstep; [assumption|]. apply (IH (length s)); [simpl in En; lia|reflexivity].
Qed.

Lemma runLength_head (p : ascii -> bool) (s : str) :
  1 <= runLength p s -> exists c s', s = c :: s' /\ p c = true.
Proof.
  destruct s as [|c s]; simpl; [lia|]. destruct (p c) eqn:E; [|lia].
  intros _. now exists c, s.
Qed.

Lemma collapse_Forall (Q : ascii -> Prop) (s : str) :
  Forall Q s -> Forall Q (collapse s).
Proof.
  revert s. apply (collapse_ind (fun s r => Forall Q s -> Forall Q r)).
  - auto.
  - intros s r H3 IH Hs.
    destruct (@runLength_head isLF s) as (c & s' & -> & Hc); [lia|].
    apply isLF_eq in Hc. subst c.
    inversion Hs as [|? ? HLF _]; subst.
    repeat (constructor; [assumption|]). apply IH.
    rewrite <- (firstn_skipn (runLength isLF (LF :: s')) (LF :: s')) in Hs.
    apply Forall_app in Hs. tauto.
  - intros c s r _ IH Hs. inversion Hs; subst. constructor; auto.
Qed.

Lemma noRun3_cons (c : ascii) (s : str) :
  noRun3 (c :: s) <-> startsWith (c :: s) threeLF = false /\ noRun3 s.
Proof.
  unfold noRun3. change (includes (c :: s) threeLF)
    with (startsWith (c :: s) threeLF || includes s threeLF).
  apply orb_false_iff.
Qed.

Lemma startsWith_threeLF (s : str) :
  startsWith s threeLF = (3 <=? runLength isLF s).
Proof.
  unfold threeLF.
  destruct s as [|a s]; [reflexivity|].
  cbn [startsWith runLength]. unfold isLF at 1, isChar.
  destruct (Ascii.eqb a LF); [|reflexivity].
  destruct s as [|b s]; [reflexivity|].
  cbn [startsWith runLength andb]. unfold isLF at 1, isChar.
  destruct (Ascii.eqb b LF); [|reflexivity].
  destruct s as [|c s]; [reflexivity|].
  cbn [startsWith runLength andb]. unfold isLF at 1, isChar.
  destruct (Ascii.eqb c LF); [|reflexivity].
  destruct s; reflexivity.
Qed.

Lemma runLength_skipn (p : ascii -> bool) (s : str) :
  runLength p (skipn (runLength p s) s) = 0.
Proof.
  induction s as [|c s IH]; simpl; [reflexivity|].
  destruct (p c) eqn:E; simpl; [assumption|now rewrite E].
Qed.

Lemma collapse_run (s : str) :
  runLength isLF (collapse s) = Nat.min (runLength isLF s) 2 /\ noRun3 (collapse s).
Proof.
  revert s.
  apply (collapse_ind (fun s r => runLength isLF r = Nat.min (runLength isLF s) 2
                                  /\ noRun3 r)).
  - split; reflexivity.
  - intros s r H3 [Hr Hn]. rewrite runLength_skipn in Hr. simpl in Hr.
    split.
    + change (S (S (runLength isLF r)) = Nat.min (runLength isLF s) 2). lia.
    + apply noRun3_cons. split.
      * rewrite startsWith_threeLF. apply Nat.leb_gt.
        change (S (S (runLength isLF r)) < 3). lia.
      * apply noRun3_cons. split; [|assumption].
        rewrite startsWith_threeLF. apply Nat.leb_gt.
        change (S (runLength isLF r) < 3). lia.
  - intros c s r H3 [Hr Hn]. simpl in H3. simpl runLength.
    destruct (isLF c) eqn:Ec.
    + split; [lia|]. apply noRun3_cons. split; [|assumption].
      rewrite startsWith_threeLF. apply Nat.leb_gt. simpl. rewrite Ec. lia.
    + split; [reflexivity|]. apply noRun3_cons. split; [|assumption].
      rewrite startsWith_threeLF. simpl. now rewrite Ec.
Qed.

Lemma collapse_fixed (s : str) : noRun3 s -> collapse s = s.
Proof.
  induction s as [|c s IH]; intro H; rewrite collapse_eq.
  - reflexivity.
  - apply noRun3_cons in H as [H1 H2]. rewrite startsWith_threeLF in H1.
    rewrite H1. f_equal. now apply IH.
Qed.

(** ** Trimming *)

Lemma dropWhile_skipn (p : ascii -> bool) (s : str) :
  dropWhile p s = skipn (runLength p s) s.
Proof.
  induction s as [|c s IH]; simpl; [reflexivity|].
  destruct (p c); [exact IH|reflexivity].
Qed.

Lemma dropWhile_stops (p : ascii -> bool) (s : str) : stopsAt p (dropWhile p s).
Proof.
  rewrite dropWhile_skipn. apply run_split.
Qed.

Lemma dropWhile_fixed (p : ascii -> bool) (s : str) :
  stopsAt p s -> dropWhile p s = s.
Proof.
  destruct s as [|c s]; simpl; [reflexivity|]. now intros ->.
Qed.

Lemma trimEnd_firstn (s : str) :
  trimEnd s = firstn (length s - runLength isSpace (rev s)) s.
Proof.
  unfold trimEnd. rewrite dropWhile_skipn, skipn_rev. apply rev_involutive.
Qed.

Lemma trimEnd_stops (s : str) : stopsAt isSpace (rev (trimEnd s)).
Proof.
  unfold trimEnd. rewrite rev_involutive. apply dropWhile_stops.
Qed.

Lemma trimEnd_fixed (s : str) : stopsAt isSpace (rev s) -> trimEnd s = s.
Proof.
  intro H. unfold trimEnd. rewrite dropWhile_fixed by assumption.
  apply rev_involutive.
Qed.

Lemma stopsAt_firstn (p : ascii -> bool) (n : nat) (s : str) :
  stopsAt p s -> stopsAt p (firstn n s).
Proof.
  destruct s as [|c s], n; simpl; auto.
Qed.

Lemma trim_stops (s : str) :
  stopsAt isSpace (trim s) /\ stopsAt isSpace (rev (trim s)).
Proof.
  unfold trim. split; [|apply trimEnd_stops].
  rewrite trimEnd_firstn. apply stopsAt_firstn. apply dropWhile_stops.
Qed.

Lemma trim_fixed (s : str) :
  stopsAt isSpace s -> stopsAt isSpace (rev s) -> trim s = s.
Proof.
  intros H1 H2. unfold trim, trimStart. rewrite dropWhile_fixed by assumption.
  now apply trimEnd_fixed.
Qed.

Lemma trim_idem (s : str) : trim (trim s) = trim s.
Proof. apply trim_fixed; apply trim_stops. Qed.

(** The trimmed text is a segment of the text. *)
Lemma trim_segment (s : str) : exists a b, s = a ++ trim s ++ b.
Proof.
  unfold trim, trimStart. rewrite trimEnd_firstn, dropWhile_skipn.
  set (m := skipn (runLength isSpace s) s).
  exists (firstn (runLength isSpace s) s),
         (skipn (length m - runLength isSpace (rev m)) m).
  rewrite firstn_skipn. unfold m. now rewrite firstn_skipn.
Qed.

Lemma trim_Forall (Q : ascii -> Prop) (s : str) : Forall Q s -> Forall Q (trim s).
Proof.
  intro H. destruct (trim_segment s) as (a & b & E). rewrite E in H.
  apply Forall_app in H as [_ H]. apply Forall_app in H. tauto.
Qed.

Lemma startsWith_app (s t p : str) :
  startsWith s p = true -> startsWith (s ++ t) p = true.
Proof.
  revert s. induction p as [|x p IH]; intros s H; [destruct s; [destruct t|]; reflexivity|].
  destruct s as [|y s]; [discriminate|]. simpl in H.
  apply andb_true_iff in H as [H1 H2]. simpl. rewrite H1. simpl. now apply IH.
Qed.

Lemma includes_app_l (s t p : str) :
  includes s p = true -> includes (s ++ t) p = true.
Proof.
  induction s as [|c s IH]; simpl; intro H.
  - rewrite orb_false_r in H. destruct p; [|discriminate].
    destruct t; reflexivity.
  - apply orb_true_iff in H as [H|H]; apply orb_true_iff.
    + left. now apply (startsWith_app (c :: s) t p).
    + right. now apply IH.
Qed.

Lemma includes_app_r (a s p : str) :
  includes s p = true -> includes (a ++ s) p = true.
Proof.
  intro H. induction a as [|c a IH]; [exact H|].
  simpl. apply orb_true_iff. now right.
Qed.

Lemma includes_segment (a s b p : str) :
  includes (a ++ s ++ b) p = false -> includes s p = false.
Proof.
  intro H. destruct (includes s p) eqn:E; [|reflexivity].
  rewrite includes_app_r in H; [discriminate|]. now apply includes_app_l.
Qed.

Lemma trim_noRun3 (s : str) : noRun3 s -> noRun3 (trim s).
Proof.
  unfold noRun3. intro H. destruct (trim_segment s) as (a & b & E).
  rewrite E in H. eapply includes_segment; eassumption.
Qed.

(** ** Lines without trailing blanks *)

Lemma trailingFree_suffix (a t : str) :
  trailingFree (a ++ t) = true -> trailingFree t = true.
Proof.
  induction a as [|c a IH]; simpl; [auto|].
  intro H. apply andb_true_iff in H as [_ H]. now apply IH.
Qed.

Lemma trailingFree_run (w r : str) :
  w <> [] -> forallb ReadmeContentCleaner.isBlank w = true ->
  trailingFree (w ++ r) = true -> atEol r = false.
Proof.
  induction w as [|c w IH]; [contradiction|]. intros _ Hw H.
  simpl in Hw. apply andb_true_iff in Hw as [Hc Hw].
  simpl in H. apply andb_true_iff in H as [H1 H2].
  destruct w as [|d w].
  - simpl in H1. rewrite Hc in H1. simpl in H1. now destruct (atEol r).
  - apply IH; [discriminate|assumption|assumption].
Qed.




Lemma atEol_hd (r s : str) : hd_error r = hd_error s -> atEol r = atEol s.
Proof.
  destruct r, s; simpl; intro H; try discriminate; [reflexivity|congruence].
Qed.

Lemma collapse_trailingFree (s : str) :
  trailingFree s = true -> trailingFree (collapse s) = true.
Proof.
  assert (H : hd_error (collapse s) = hd_error s
              /\ (trailingFree s = true -> trailingFree (collapse s) = true));
    [|tauto].
  revert s.
  apply (collapse_ind (fun s r => hd_error r = hd_error s
                                  /\ (trailingFree s = true -> trailingFree r = true))).
  - auto.
  - intros s r H3 [_ IH]. split.
    + destruct (@runLength_head isLF s) as (c & s' & -> & Hc); [lia|].
      apply isLF_eq in Hc. now subst.
    + intro Hs. change (trailingFree r = true). apply IH.
      apply trailingFree_suffix with (a := firstn (runLength isLF s) s).
      now rewrite firstn_skipn.
  - intros c s r _ [Hhd IH]. split; [reflexivity|].
    intro Hs. simpl in Hs. apply andb_true_iff in Hs as [H1 H2].
    simpl. rewrite (atEol_hd _ _ Hhd), H1. now apply IH.
Qed.

(** ** Text on which only collapsing and trimming act *)

Lemma plainText_parts (s : str) :
  plainText s = true <->
  forallb quietChar s = true /\ trailingFree s = true
  /\ includes s commentOpen = false /\ ruleRunFree s = true.
Proof.
  unfold plainText. rewrite !andb_true_iff, negb_true_iff. tauto.
Qed.

Lemma quiet_stops (p : ascii -> bool) (a t : str) :
  (forall c, quietChar c = true -> p c = false) ->
  forallb quietChar (a ++ t) = true -> stopsAt p t.
Proof.
  intros Hp H. rewrite forallb_app in H. apply andb_true_iff in H as [_ H].
  destruct t as [|c t]; simpl; [exact I|].
  apply Hp. simpl in H. apply andb_true_iff in H. tauto.
Qed.

Lemma quiet_not_CR (c : ascii) : quietChar c = true -> isChar CR c = false.
Proof.
  unfold quietChar. intro H. apply negb_true_iff in H.
  repeat (apply orb_false_iff in H as [H ?]). assumption.
Qed.

Lemma quiet_not_bar (c : ascii) : quietChar c = true -> isChar "|" c = false.
Proof.
  unfold quietChar. intro H. apply negb_true_iff in H.
  repeat (apply orb_false_iff in H as [H ?]). assumption.
Qed.

Lemma quiet_not_bracket (c : ascii) : quietChar c = true -> isChar "[" c = false.
Proof.
  unfold quietChar. intro H. apply negb_true_iff in H.
  repeat (apply orb_false_iff in H as [H ?]). assumption.
Qed.

(** A pattern whose first item is a character fails where that character
    is not. *)
Lemma matches_first_char (p : ascii -> bool) (r : regex) (x : pos) :
  stopsAt p (rest x) -> matches (Seq (Chr p) r) x = [].
Proof.
  intro H. simpl. destruct (rest x) as [|c t]; [reflexivity|].
  simpl in H. now rewrite H.
Qed.

Lemma nowhere_first_char (p : ascii -> bool) (r : regex) (s : str) :
  (forall c, quietChar c = true -> p c = false) ->
  forallb quietChar s = true -> matchesNowhere (Seq (Chr p) r) s.
Proof.
  intros Hp Hs pv a t E. apply matches_first_char. simpl.
  apply quiet_stops with (a := a); [assumption|]. now rewrite <- E.
Qed.

Lemma nowhere_CRLF (s : str) :
  forallb quietChar s = true -> matchesNowhere ReadmeContentCleaner.reCRLF s.
Proof. apply nowhere_first_char. apply quiet_not_CR. Qed.

Lemma nowhere_table (s : str) :
  forallb quietChar s = true -> matchesNowhere ReadmeContentCleaner.reTable s.
Proof. apply nowhere_first_char. apply quiet_not_bar. Qed.

Lemma nowhere_emptyLink (s : str) :
  forallb quietChar s = true -> matchesNowhere ReadmeContentCleaner.reEmptyLink s.
Proof. apply nowhere_first_char. apply quiet_not_bracket. Qed.

(** Runs of rule characters. *)

Lemma ruleRunFree_suffix (a t : str) :
  ruleRunFree (a ++ t) = true -> ruleRunFree t = true.
Proof.
  induction a as [|c a IH]; [auto|].
  change ((c :: a) ++ t) with (c :: (a ++ t)). cbn [ruleRunFree].
  intro H. apply andb_true_iff in H as [_ H]. now apply IH.
Qed.

Lemma ruleRunFree_head (s : str) :
  ruleRunFree s = true -> runLength ReadmeContentCleaner.isRuleChar s < 3.
Proof.
  destruct s as [|c s]; [simpl; lia|]. cbn [ruleRunFree].
  intro H. apply andb_true_iff in H as [H _]. now apply Nat.ltb_lt.
Qed.

Lemma ruleRunFree_intro (s : str) :
  (forall a t, s = a ++ t -> runLength ReadmeContentCleaner.isRuleChar t < 3) ->
  ruleRunFree s = true.
Proof.
  induction s as [|c s IH]; intro H; [reflexivity|]. cbn [ruleRunFree].
  apply andb_true_iff. split.
  - apply Nat.ltb_lt. now apply (H []).
  - apply IH. intros a t E. apply (H (c :: a)). now rewrite E.
Qed.



Lemma rep_run_short (g : bool) (p : ascii -> bool) (lo : nat)
      (pv : option ascii) (s : str) (cp : option str) :
  runLength p s < lo -> rep g p lo pv s cp = [].
Proof.
  intro H. destruct (run_split p s) as (Hw & Ht & Hlen).
  rewrite <- (firstn_skipn (runLength p s) s).
  apply rep_short; auto. lia.
Qed.

Lemma nowhere_rule (s : str) :
  ruleRunFree s = true -> matchesNowhere ReadmeContentCleaner.reRule s.
Proof.
  intros Hs pv a t E.
  assert (Ht : ruleRunFree t = true)
    by (apply ruleRunFree_suffix with (a := a); now rewrite <- E).
  assert (Hbody : forall x, ruleRunFree (rest x) = true ->
            matches (Seq (Rep true 0 isSpace)
                       (Seq (Rep true 3 ReadmeContentCleaner.isRuleChar)
                          (Seq (Rep true 0 isSpace) (Eol true)))) x = []).
  { intros x Hx. simpl. apply flat_map_nil. intros y Hy.
    destruct x as [pv' u cp]. simpl in Hy, Hx.
    apply rep_reaches in Hy as (w & [Hw _] & _). simpl in Hw.
    assert (Hy : ruleRunFree (rest y) = true)
      by (apply ruleRunFree_suffix with (a := w); now rewrite <- Hw).
    simpl matches. rewrite rep_run_short by now apply ruleRunFree_head.
    reflexivity. }
  change (matches ReadmeContentCleaner.reRule (start pv t))
    with (flat_map (matches (Seq (Rep true 0 isSpace)
                       (Seq (Rep true 3 ReadmeContentCleaner.isRuleChar)
                          (Seq (Rep true 0 isSpace) (Eol true)))))
            (if atLineStart true (start pv t) then [start pv t] else [])).
  destruct (atLineStart true (start pv t)); [|reflexivity].
  apply flat_map_nil. intros x [<-|[]]. apply Hbody. exact Ht.
Qed.

(** The candidates of a literal. *)
Lemma matches_lit (p : str) :
  forall pv s cp,
    matches (lit p) (mkPos pv s cp) =
    if startsWith s p
    then [mkPos (last (map Some p) pv) (skipn (length p) s) cp]
    else [].
Proof.
  induction p as [|x p IH]; intros pv s cp.
  - destruct s; reflexivity.
  - destruct p as [|x' p].
    + destruct s as [|c s]; [reflexivity|]. simpl. unfold isChar.
      destruct (Ascii.eqb_spec c x) as [->|]; [destruct s|]; reflexivity.
    + change (lit (x :: x' :: p)) with (Seq (Chr (isChar x)) (lit (x' :: p))).
      simpl matches. destruct s as [|c s]; [reflexivity|].
      change (isChar x c) with (Ascii.eqb c x).
      change (startsWith (c :: s) (x :: x' :: p))
        with (Ascii.eqb c x && startsWith s (x' :: p)).
      destruct (Ascii.eqb c x); [|reflexivity].
      simpl flat_map. rewrite IH, app_nil_r. simpl andb.
      destruct (startsWith s (x' :: p)); [|reflexivity].
      f_equal. f_equal.
      change (last (Some x' :: map Some p) (Some c)
              = last (Some x' :: map Some p) pv).
      apply last_cons_default.
Qed.

Lemma includes_suffix (a t p : str) :
  includes (a ++ t) p = false -> startsWith t p = false.
Proof.
  intro H. destruct (startsWith t p) eqn:E; [|reflexivity].
  rewrite includes_app_r in H; [discriminate|].
  destruct t; cbn [includes]; now rewrite E.
Qed.

Lemma includes_intro (s p : str) :
  (forall a t, s = a ++ t -> startsWith t p = false) -> includes s p = false.
Proof.
  induction s as [|c s IH]; intro H; cbn [includes].
  - rewrite (H [] [] eq_refl). reflexivity.
  - rewrite (H [] (c :: s) eq_refl). simpl. apply IH.
    intros a t E. apply (H (c :: a)). now rewrite E.
Qed.

Lemma nowhere_comment (s : str) :
  includes s commentOpen = false ->
  matchesNowhere ReadmeContentCleaner.reComment s.
Proof.
  intros H pv a t E.
  change (matches ReadmeContentCleaner.reComment (start pv t))
    with (flat_map (matches (Seq (Rep false 0 anyChar) (lit commentClose)))
            (matches (lit commentOpen) (mkPos pv t None))).
  rewrite matches_lit. rewrite E in H. now rewrite (includes_suffix _ _ _ H).
Qed.

Lemma nowhere_trailing (s : str) :
  trailingFree s = true -> matchesNowhere ReadmeContentCleaner.reTrailing s.
Proof.
  intros Hs pv a t E.
  assert (Ht : trailingFree t = true)
    by (apply trailingFree_suffix with (a := a); now rewrite <- E).
  unfold ReadmeContentCleaner.reTrailing. simpl matches.
  apply flat_map_nil. intros y Hy.
  apply rep_reaches in Hy as (w & [Hw _] & Hblank & Hlen & _). simpl in Hw.
  rewrite Hw in Ht.
  assert (Heol : atEol (rest y) = false).
  { apply trailingFree_run with (w := w); auto. destruct w; [simpl in Hlen; lia|discriminate]. }
  unfold atLineEnd. unfold atEol in Heol.
  destruct (rest y); [discriminate|]. simpl. now rewrite Heol.
Qed.

(** What collapsing keeps. *)

Lemma run_inside (p : ascii -> bool) (s : str) :
  forall j, j < runLength p s ->
    exists c, skipn j s = c :: skipn (S j) s /\ p c = true.
Proof.
  induction s as [|c s IH]; intros j Hj; simpl in Hj; [lia|].
  destruct (p c) eqn:E; [|lia].
  destruct j as [|j]; [now exists c|]. simpl. apply IH. lia.
Qed.

(** Every suffix of the collapsed text is the collapsed form of a suffix
    of the text. *)
Lemma collapse_suffix (s : str) :
  forall a' t', collapse s = a' ++ t' ->
    exists a t, s = a ++ t /\ t' = collapse t.
Proof.
  remember (length s) as n eqn:En. revert s En.
  induction n as [n IH] using lt_wf_ind. intros s En a' t' E.
  destruct a' as [|x a']; [exists [], s; split; [reflexivity|symmetry; exact E]|].
  rewrite collapse_eq in E.
  destruct (Nat.leb_spec 3 (runLength isLF s)) as [H3|H3].
  - set (k := runLength isLF s) in *.
    destruct a' as [|x' a'].
    + (* the second of the two line feeds *)
      injection E as _ E.
      destruct (@run_inside isLF s (k - 1)) as (c & Hc & Hlf); [lia|].
      apply isLF_eq in Hlf. subst c.
      replace (S (k - 1)) with k in Hc by lia.
      exists (firstn (k - 1) s), (skipn (k - 1) s). split.
      * now rewrite firstn_skipn.
      * rewrite Hc, collapse_eq.
        assert (Hrun : runLength isLF (LF :: skipn k s) = 1).
        { simpl. unfold k. now rewrite runLength_skipn. }
        rewrite Hrun. simpl. symmetry. exact E.
    + injection E as _ _ E.
      destruct (IH (length (skipn k s))) with (s := skipn k s) (a' := a') (t' := t')
        as (a & t & Ea & Et); auto.
      * rewrite length_skipn. pose proof (runLength_le isLF s). fold k in H. lia.
      * exists (firstn k s ++ a), t. split; [|assumption].
        rewrite <- app_assoc, <- Ea. now rewrite firstn_skipn.
  - destruct s as [|c s]; [discriminate|]. injection E as _ E.
    destruct (IH (length s)) with (s := s) (a' := a') (t' := t')
      as (a & t & Ea & Et); auto.
    + simpl in En. lia.
    + exists (c :: a), t. split; [now rewrite Ea|assumption].
Qed.

Lemma collapse_runLength (p : ascii -> bool) (s : str) :
  p LF = false -> runLength p (collapse s) = runLength p s.
Proof.
  intro Hp. induction s as [|c s IH]; rewrite collapse_eq; [reflexivity|].
  destruct (Nat.leb_spec 3 (runLength isLF (c :: s))) as [H3|H3].
  - destruct (@runLength_head isLF (c :: s)) as (c' & s' & E & Hc); [lia|].
    injection E as <- <-. apply isLF_eq in Hc. subst c.
    simpl. now rewrite Hp.
  - simpl. now rewrite IH.
Qed.

Lemma collapse_startsWith (p : str) :
  forallb (fun c => negb (isLF c)) p = true ->
  forall s, startsWith (collapse s) p = startsWith s p.
Proof.
  induction p as [|x p IH]; intros Hp s.
  - destruct s, (collapse _); reflexivity.
  - simpl in Hp. apply andb_true_iff in Hp as [Hx Hp].
    rewrite collapse_eq. destruct s as [|c s]; [reflexivity|].
    destruct (Nat.leb_spec 3 (runLength isLF (c :: s))) as [H3|H3].
    + destruct (@runLength_head isLF (c :: s)) as (c' & s' & E & Hc); [lia|].
      injection E as <- <-. apply isLF_eq in Hc. subst c.
      apply negb_true_iff in Hx. unfold isLF, isChar in Hx.
      rewrite Ascii.eqb_sym in Hx.
      cbn [startsWith]. now rewrite Hx.
    + cbn [startsWith]. now rewrite IH.
Qed.

Lemma collapse_plainText (s : str) :
  plainText s = true -> plainText (collapse s) = true.
Proof.
  intro H. apply plainText_parts in H as (Hq & Ht & Ho & Hr).
  apply plainText_parts. repeat split.
  - apply forallb_forall. apply Forall_forall.
    apply collapse_Forall. apply Forall_forall. now apply forallb_forall.
  - now apply collapse_trailingFree.
  - apply includes_intro. intros a' t' E.
    apply collapse_suffix in E as (a & t & Ea & ->).
    rewrite collapse_startsWith by reflexivity.
    rewrite Ea in Ho. now apply includes_suffix in Ho.
  - apply ruleRunFree_intro. intros a' t' E.
    apply collapse_suffix in E as (a & t & Ea & ->).
    rewrite collapse_runLength by reflexivity.
    apply ruleRunFree_head. apply ruleRunFree_suffix with (a := a).
    now rewrite <- Ea.
Qed.


(** On plain text the cleaner collapses and trims. *)
Lemma clean_plain (s : str) :
  plainText s = true ->
  ReadmeContentCleaner.cleanReadmeContent s = trim (collapse s).
Proof.
  intros Hs. destruct s as [|c s]; [reflexivity|].
  unfold ReadmeContentCleaner.cleanReadmeContent,
    ReadmeContentCleaner.cleanReadmeContentOf, ReadmeContentCleaner.cleanSteps,
    ReadmeContentCleaner.cleanMarkdownArtifacts.
  simpl guarded. fold (collapse (c :: s)).
  apply collapse_plainText, plainText_parts in Hs as (Hq & Ht & Ho & Hr).
  rewrite (replaceAll_nowhere _ (nowhere_trailing Ht)).
  rewrite (replaceAll_nowhere _ (nowhere_CRLF Hq)).
  rewrite (replaceAll_nowhere _ (nowhere_comment Ho)).
  rewrite (replaceAll_nowhere _ (nowhere_rule Hr)).
  rewrite (replaceAll_nowhere _ (nowhere_table Hq)).
  rewrite (replaceAll_nowhere _ (nowhere_emptyLink Hq)).
  reflexivity.
Qed.


(** Text the cleaner returns as it is. *)
Lemma clean_fixed (s : str) :
  plainText s = true -> noRun3 s -> trim s = s ->
  ReadmeContentCleaner.cleanReadmeContent s = s.
Proof.
  intros Hs Hn Htrim. rewrite clean_plain by assumption.
  now rewrite collapse_fixed.
Qed.




(** ** Removing HTML comments *)

Lemma includes_cons_false (c : ascii) (s p : str) :
  includes (c :: s) p = false -> startsWith (c :: s) p = false /\ includes s p = false.
Proof. simpl. apply orb_false_iff. Qed.

(** An opener cannot begin in text that holds none and end in an opener
    that follows it. *)
Lemma commentOpen_straddle (a u : str) :
  a <> [] -> includes a commentOpen = false ->
  startsWith (a ++ commentOpen ++ u) commentOpen = false.
Proof.
  intros Hne H. destruct a as [|c1 a]; [contradiction|].
  apply includes_cons_false in H as [H _]. revert H.
  unfold commentOpen. simpl.
  destruct (Ascii.eqb c1 "<"); [|reflexivity]. simpl.
  destruct a as [|c2 a]; [reflexivity|]. simpl.
  destruct (Ascii.eqb c2 "!"); [|reflexivity]. simpl.
  destruct a as [|c3 a]; [reflexivity|]. simpl.
  destruct (Ascii.eqb c3 "-"); [|reflexivity]. simpl.
  destruct a as [|c4 a]; [reflexivity|]. simpl.
  destruct (Ascii.eqb c4 "-"); [|reflexivity]. simpl.
  destruct a; discriminate.
Qed.

Lemma commentClose_straddle (a u : str) :
  a <> [] -> includes a commentClose = false ->
  startsWith (a ++ commentClose ++ u) commentClose = false.
Proof.
  intros Hne H. destruct a as [|c1 a]; [contradiction|].
  apply includes_cons_false in H as [H _]. revert H.
  unfold commentClose. simpl.
  destruct (Ascii.eqb c1 "-"); [|reflexivity]. simpl.
  destruct a as [|c2 a]; [reflexivity|]. simpl.
  destruct (Ascii.eqb c2 "-"); [|reflexivity]. simpl.
  destruct a as [|c3 a]; [reflexivity|]. simpl.
  destruct (Ascii.eqb c3 ">"); [|reflexivity]. simpl.
  destruct a; discriminate.
Qed.

Lemma startsWith_self_app (p u : str) : startsWith (p ++ u) p = true.
Proof.
  induction p as [|x p IH]; simpl; [destruct u; reflexivity|].
  now rewrite Ascii.eqb_refl.
Qed.

Lemma skipn_self_app (A : Type) (p u : list A) : skipn (length p) (p ++ u) = u.
Proof. induction p; simpl; auto. Qed.

(** The lazy scan for the closing mark stops at its first occurrence. *)
Lemma lazy_close_first (body u : str) :
  includes body commentClose = false ->
  forall pv cp,
    exists y,
      hd_error (flat_map (matches (lit commentClose))
                         (rep false anyChar 0 pv (body ++ commentClose ++ u) cp))
      = Some y /\ rest y = u.
Proof.
  induction body as [|c body IH]; intros H pv cp.
  - change ([] ++ commentClose ++ u) with (commentClose ++ u).
    assert (E : rep false anyChar 0 pv (commentClose ++ u) cp
                = mkPos pv (commentClose ++ u) cp ::
                  rep false anyChar 0 (Some "-"%char) (L "->" ++ u) cp)
      by reflexivity.
    rewrite E. cbn [flat_map]. rewrite matches_lit, startsWith_self_app.
    eexists. split; [reflexivity|]. reflexivity.
  - assert (E : rep false anyChar 0 pv ((c :: body) ++ commentClose ++ u) cp
                = mkPos pv ((c :: body) ++ commentClose ++ u) cp ::
                  rep false anyChar 0 (Some c) (body ++ commentClose ++ u) cp)
      by reflexivity.
    rewrite E. cbn [flat_map]. rewrite matches_lit.
    rewrite commentClose_straddle by (auto; discriminate).
    change ([] ++ ?l) with l. apply IH. now apply includes_cons_false in H.
Qed.

Lemma matchAt_comment (body u : str) (pv : option ascii) :
  includes body commentClose = false ->
  exists y,
    matchAt ReadmeContentCleaner.reComment
            (start pv (commentOpen ++ body ++ commentClose ++ u)) = Some y
    /\ rest y = u.
Proof.
  intro H. unfold matchAt.
  change (matches ReadmeContentCleaner.reComment
            (start pv (commentOpen ++ body ++ commentClose ++ u)))
    with (flat_map (fun x => flat_map (matches (lit commentClose))
                               (rep false anyChar 0 (prev x) (rest x) (cap x)))
            (matches (lit commentOpen)
               (mkPos pv (commentOpen ++ body ++ commentClose ++ u) None))).
  rewrite matches_lit, startsWith_self_app, skipn_self_app.
  cbn [flat_map prev rest cap]. rewrite app_nil_r. now apply lazy_close_first.
Qed.

(** Text without an opener is kept up to the first comment; the comment,
    up to its first closing mark, is removed; the scan goes on after it. *)
Lemma stripComments_first (a body b : str) :
  includes a commentOpen = false ->
  includes body commentClose = false ->
  stripComments (a ++ commentOpen ++ body ++ commentClose ++ b)
  = a ++ stripComments b.
Proof.
  intros Ha Hbody. unfold stripComments.
  induction a as [|c a IH].
  - change ([] ++ ?l) with l. rewrite replaceAll_eq by reflexivity.
    destruct (@matchAt_comment body b None Hbody) as (y & -> & Hy).
    rewrite Hy. unfold const.
    replace (length b <? length (commentOpen ++ body ++ commentClose ++ b)) with true;
      [reflexivity|].
    symmetry. apply Nat.ltb_lt. rewrite !length_app. simpl. lia.
  - rewrite replaceAll_eq by reflexivity.
    assert (E : matchAt ReadmeContentCleaner.reComment
                  (start None ((c :: a) ++ commentOpen ++ body ++ commentClose ++ b))
                = None).
    { unfold matchAt.
      change (matches ReadmeContentCleaner.reComment (start None ?s))
        with (flat_map (matches (Seq (Rep false 0 anyChar) (lit commentClose)))
                (matches (lit commentOpen) (mkPos None s None))).
      rewrite matches_lit, commentOpen_straddle by (auto; discriminate).
      reflexivity. }
    rewrite E. simpl. f_equal. apply IH.
    now apply includes_cons_false in Ha.
Qed.

(** ** Stripping tags (the older parser) *)

Lemma matchAt_tag (t b : str) (pv : option ascii) :
  forallb notGt t = true ->
  exists y,
    matchAt ReadmeParser.reTag (start pv (L "<" ++ t ++ L ">" ++ b)) = Some y
    /\ rest y = b.
Proof.
  intro Ht. unfold matchAt.
  change (matches ReadmeParser.reTag (start pv (L "<" ++ t ++ L ">" ++ b)))
    with (flat_map (matches (Chr (isChar ">")))
            (rep true notGt 0 (Some "<"%char) (t ++ L ">" ++ b) None) ++ []).
  rewrite app_nil_r.
  pose proof (@rep_greedy_first notGt t (L ">" ++ b) Ht eq_refl 0
                (Some "<"%char) None (Nat.le_0_l _)) as H.
  destruct (rep true notGt 0 (Some "<"%char) (t ++ L ">" ++ b) None) as [|y ys];
    [discriminate|].
  simpl in H. injection H as ->. simpl. eexists. split; reflexivity.
Qed.

(** Text without [<] is kept up to the first tag; the tag is removed; the
    scan goes on after it. *)
Lemma stripTags_first (a t b : str) :
  forallb (fun c => negb (isChar "<" c)) a = true ->
  forallb notGt t = true ->
  stripTags (a ++ L "<" ++ t ++ L ">" ++ b) = a ++ stripTags b.
Proof.
  intros Ha Ht. unfold stripTags. induction a as [|c a IH].
  - change ([] ++ ?l) with l. rewrite replaceAll_eq by reflexivity.
    destruct (@matchAt_tag t b None Ht) as (y & -> & Hy).
    rewrite Hy. unfold const.
    replace (length b <? length (L "<" ++ t ++ L ">" ++ b)) with true;
      [reflexivity|].
    symmetry. apply Nat.ltb_lt. rewrite !length_app. simpl. lia.
  - simpl in Ha. apply andb_true_iff in Ha as [Hc Ha].
    rewrite replaceAll_eq by reflexivity.
    assert (E : matches ReadmeParser.reTag
                  (start None ((c :: a) ++ L "<" ++ t ++ L ">" ++ b)) = [])
      by (apply matches_first_char; simpl; now apply negb_true_iff).
    unfold matchAt. rewrite E. simpl. f_equal. now apply IH.
Qed.

(** ** The key of an example, in the words of the specification *)

Lemma replace_quotes (s : str) :
  replaceAll ExampleProcessor.reQuote (const [DQUOTE]) s = unifyQuotes s.
Proof.
  induction s as [|c s IH]; rewrite replaceAll_eq by reflexivity; [reflexivity|].
  unfold matchAt, ExampleProcessor.reQuote. simpl matches.
  fold (isQuote c). simpl unifyQuotes.
  destruct (isQuote c); simpl.
  - replace (length s <? S (length s)) with true
      by (symmetry; apply Nat.ltb_lt; lia).
    f_equal. exact IH.
  - f_equal. exact IH.
Qed.

Lemma squeezeFrom_run (s : str) :
  squeezeFrom true s = squeezeFrom false (skipn (runLength isSpace s) s).
Proof.
  induction s as [|c s IH]; simpl; [reflexivity|].
  destruct (isSpace c) eqn:E; simpl; [exact IH|now rewrite E].
Qed.

Lemma replace_spaces (s : str) :
  replaceAll ExampleProcessor.reSpaces (const (L " ")) s = squeezeSpaces s.
Proof.
  remember (length s) as n eqn:En. revert s En.
  induction n as [n IH] using lt_wf_ind. intros s En.
  rewrite replaceAll_eq by reflexivity.
  unfold ExampleProcessor.reSpaces. rewrite matchAt_rep_greedy.
  destruct s as [|c s]; [reflexivity|].
  unfold squeezeSpaces. simpl runLength. simpl squeezeFrom.
  destruct (isSpace c) eqn:Ec.
  - simpl Nat.leb. cbv iota. simpl rest. simpl skipn.
    replace (length (skipn (runLength isSpace s) s) <? length (c :: s)) with true.
    + unfold const. simpl. f_equal. rewrite squeezeFrom_run.
      apply (IH (length (skipn (runLength isSpace s) s))); [|reflexivity].
      rewrite length_skipn. simpl in En. lia.
    + symmetry. apply Nat.ltb_lt. rewrite length_skipn. simpl. lia.
  - simpl Nat.leb. cbv iota. f_equal.
    apply (IH (length s)); [simpl in En; lia|reflexivity].
Qed.

Lemma isSpace_lower (c : ascii) : isSpace (lowerChar c) = isSpace c.
Proof. destruct c as [[] [] [] [] [] [] [] []]; reflexivity. Qed.

Lemma isQuote_lower (c : ascii) :
  lowerChar (if isQuote c then DQUOTE else c)
  = if isQuote (lowerChar c) then DQUOTE else lowerChar c.
Proof. destruct c as [[] [] [] [] [] [] [] []]; reflexivity. Qed.

Lemma toLowerCase_squeeze (b : bool) (s : str) :
  toLowerCase (squeezeFrom b s) = squeezeFrom b (toLowerCase s).
Proof.
  revert b. induction s as [|c s IH]; intro b; simpl; [reflexivity|].
  rewrite isSpace_lower. destruct (isSpace c); [destruct b|]; simpl;
    now rewrite IH.
Qed.

Lemma toLowerCase_unifyQuotes (s : str) :
  toLowerCase (unifyQuotes s) = unifyQuotes (toLowerCase s).
Proof.
  unfold toLowerCase, unifyQuotes. rewrite !map_map. apply map_ext.
  apply isQuote_lower.
Qed.

Lemma toLowerCase_dropWhile (s : str) :
  toLowerCase (dropWhile isSpace s) = dropWhile isSpace (toLowerCase s).
Proof.
  induction s as [|c s IH]; simpl; [reflexivity|].
  rewrite isSpace_lower. destruct (isSpace c); [exact IH|reflexivity].
Qed.

Lemma toLowerCase_rev (s : str) : toLowerCase (rev s) = rev (toLowerCase s).
Proof. apply map_rev. Qed.

Lemma toLowerCase_trim (s : str) : toLowerCase (trim s) = trim (toLowerCase s).
Proof.
  unfold trim, trimEnd, trimStart.
  now rewrite <- toLowerCase_dropWhile, <- toLowerCase_rev,
    <- toLowerCase_dropWhile, <- toLowerCase_rev.
Qed.

Lemma normalizeCode_spec (c : str) : ExampleProcessor.normalizeCode c = specKey c.
Proof.
  unfold ExampleProcessor.normalizeCode, specKey.
  rewrite replace_spaces, replace_quotes.
  rewrite toLowerCase_trim, toLowerCase_unifyQuotes.
  unfold squeezeSpaces. now rewrite toLowerCase_squeeze.
Qed.

(** C6: for every input, no two examples returned by the pipeline have the
    same normalized code key; every returned example is the first raw
    example, in extraction order, with its key, and every key of a raw
    example is the key of a returned one.  The key, [normalizeCode] of the
    code, is the code lower-cased, with every whitespace run collapsed to
    one space, both quote characters unified to the double quote, and
    trimmed. *)
Theorem C6_no_duplicate_keys (readmeContent : str) :
  let raw := ExampleExtractor.extractUsageExamples readmeContent in
  let out := ReadmeService.extractUsageExamples readmeContent in
  NoDup (map (fun e => ExampleProcessor.normalizeCode (code e)) out)
  /\ Forall (fun e => exists pre post,
                 raw = pre ++ e :: post
                 /\ ~ In (ExampleProcessor.normalizeCode (code e))
                         (map (fun e' => ExampleProcessor.normalizeCode (code e')) pre))
            out
  /\ Forall (fun e => In (ExampleProcessor.normalizeCode (code e))
                         (map (fun e' => ExampleProcessor.normalizeCode (code e')) out))
            raw
  /\ (forall c, ExampleProcessor.normalizeCode c = specKey c).
Proof.
  intros raw out.
  destruct (deduplicateExamples_spec raw) as (Hnd & _ & Hfirst & Hall).
  assert (Hperm : Permutation out (ExampleProcessor.deduplicateExamples raw)).
  { unfold out, ReadmeService.extractUsageExamples. fold raw.
    rewrite sortExamplesByRelevance_eq. apply sortByScore_perm. }
  change (fun e => ExampleProcessor.normalizeCode (code e)) with key.
  repeat split.
  - eapply Permutation_NoDup; [|exact Hnd].
    apply Permutation_map, Permutation_sym, Hperm.
  - eapply Permutation_Forall; [apply Permutation_sym, Hperm|]. exact Hfirst.
  - eapply Forall_impl; [|exact Hall].
    intros e He. eapply Permutation_in; [|exact He].
    apply Permutation_map, Permutation_sym, Hperm.
  - apply normalizeCode_spec.
Qed.

(** ** Text without comments or tags, and what tag stripping leaves *)

Lemma stripComments_none (a : str) :
  includes a commentOpen = false -> stripComments a = a.
Proof. intro H. now apply replaceAll_nowhere, nowhere_comment. Qed.

Lemma stripTags_none (a : str) : forallb notLt a = true -> stripTags a = a.
Proof.
  intro H. apply replaceAll_nowhere. intros pv a' t E.
  apply matches_first_char. simpl. rewrite E, forallb_app in H.
  apply andb_true_iff in H as [_ H]. destruct t as [|c t]; [exact I|].
  simpl in H. apply andb_true_iff in H as [H _]. now apply negb_true_iff.
Qed.

Lemma matchAt_tag_unclosed (s : str) (pv : option ascii) :
  forallb notGt s = true ->
  matchAt ReadmeParser.reTag (start pv (L "<" ++ s)) = None.
Proof.
  intro H. unfold matchAt.
  change (matches ReadmeParser.reTag (start pv (L "<" ++ s)))
    with (flat_map (matches (Chr (isChar ">")))
            (rep true notGt 0 (Some "<"%char) s None) ++ []).
  rewrite app_nil_r, flat_map_nil; [reflexivity|].
  intros y Hy. apply rep_reaches in Hy as (w & [Hw _] & _). simpl in Hw.
  rewrite Hw, forallb_app in H. apply andb_true_iff in H as [_ H].
  simpl. destruct (rest y) as [|c t]; [reflexivity|].
  simpl in H. apply andb_true_iff in H as [H _]. unfold notGt in H.
  apply negb_true_iff in H. now rewrite H.
Qed.

Lemma run_all (p : ascii -> bool) (s : str) :
  length s <= runLength p s -> forallb p s = true.
Proof.
  induction s as [|c s IH]; simpl; [reflexivity|].
  destruct (p c); simpl; [intro; apply IH; lia|lia].
Qed.

Lemma run_stop (p : ascii -> bool) (s : str) :
  runLength p s < length s ->
  exists c, skipn (runLength p s) s = c :: skipn (S (runLength p s)) s
            /\ p c = false.
Proof.
  induction s as [|c s IH]; simpl; [lia|].
  destruct (p c) eqn:E; simpl.
  - intro H. apply IH. lia.
  - intros _. now exists c.
Qed.

(** Tag stripping as a scanner: a [<] is dropped with everything up to the
    next [>] when there is one, and kept otherwise. *)
Lemma stripTags_eq (s : str) :
  stripTags s =
  match s with
  | [] => []
  | c :: s' =>
      if isChar "<" c && (runLength notGt s' <? length s')
      then stripTags (skipn (S (runLength notGt s')) s')
      else c :: stripTags s'
  end.
Proof.
  unfold stripTags. rewrite replaceAll_eq by reflexivity.
  destruct s as [|c s']; [reflexivity|].
  destruct (isChar "<" c) eqn:Ec.
  - apply Ascii.eqb_eq in Ec. subst c.
    destruct (Nat.ltb_spec (runLength notGt s') (length s')) as [Hk|Hk]; simpl andb;
      cbv iota.
    + destruct (run_stop notGt s' Hk) as (d & Hd & Hgt).
      unfold notGt in Hgt. apply negb_false_iff, Ascii.eqb_eq in Hgt. subst d.
      destruct (run_split notGt s') as (Hw & _ & _).
      destruct (@matchAt_tag (firstn (runLength notGt s') s')
                  (skipn (S (runLength notGt s')) s') None Hw) as (y & E & Hy).
      change (L ">" ++ skipn (S (runLength notGt s')) s')
        with (">"%char :: skipn (S (runLength notGt s')) s') in E.
      rewrite <- Hd, firstn_skipn in E.
      change (L "<" ++ s') with ("<"%char :: s') in E. rewrite E, Hy.
      replace (length (skipn (S (runLength notGt s')) s') <? length ("<"%char :: s'))
        with true; [reflexivity|].
      symmetry. apply Nat.ltb_lt. rewrite length_skipn. simpl. lia.
    + pose proof (@matchAt_tag_unclosed s' None (run_all notGt s' Hk)) as E.
      change (L "<" ++ s') with ("<"%char :: s') in E. now rewrite E.
  - assert (E : matches ReadmeParser.reTag (start None (c :: s')) = [])
      by (apply matches_first_char; exact Ec).
    unfold matchAt. now rewrite E.
Qed.

Lemma stripTags_Forall (Q : ascii -> Prop) (s : str) :
  Forall Q s -> Forall Q (stripTags s).
Proof.
  remember (length s) as n eqn:En. revert s En.
  induction n as [n IH] using lt_wf_ind. intros s En Hs.
  rewrite stripTags_eq. destruct s as [|c s']; [constructor|].
  inversion Hs as [|? ? Hc Hs']; subst.
  destruct (isChar "<" c && (runLength notGt s' <? length s')).
  - apply (IH (length (skipn (S (runLength notGt s')) s'))); [|reflexivity|].
    + rewrite length_skipn. simpl. lia.
    + rewrite <- (firstn_skipn (S (runLength notGt s')) s') in Hs'.
      apply Forall_app in Hs'. tauto.
  - constructor; [assumption|]. apply (IH (length s')); auto.
Qed.

(** Tag stripping leaves no [<] with a [>] after it. *)
Lemma stripTags_noTag (s : str) : hasTag (stripTags s) = false.
Proof.
  remember (length s) as n eqn:En. revert s En.
  induction n as [n IH] using lt_wf_ind. intros s En.
  rewrite stripTags_eq. destruct s as [|c s']; [reflexivity|].
  destruct (isChar "<" c) eqn:Ec; simpl andb.
  - destruct (Nat.ltb_spec (runLength notGt s') (length s')) as [Hk|Hk].
    + apply (IH (length (skipn (S (runLength notGt s')) s'))); [|reflexivity].
      rewrite length_skipn. simpl in En. lia.
    + simpl hasTag. rewrite Ec. simpl andb.
      rewrite (IH (length s')) by (simpl in En; auto; lia).
      rewrite orb_false_r.
      assert (H : Forall (fun d => notGt d = true) (stripTags s')).
      { apply stripTags_Forall. apply Forall_forall.
        apply forallb_forall. now apply run_all. }
      destruct (existsb (isChar ">") (stripTags s')) eqn:Ex; [|reflexivity].
      apply existsb_exists in Ex as (d & Hd & Hgt).
      rewrite Forall_forall in H. specialize (H d Hd). unfold notGt in H.
      rewrite Hgt in H. discriminate.
  - simpl hasTag. rewrite Ec. simpl.
    apply (IH (length s')); [simpl in En; lia|reflexivity].
Qed.

(** ** Steps that only delete *)

Lemma subseq_refl (s : str) : subseq s s.
Proof. induction s; [apply subseq_nil|now apply subseq_keep]. Qed.

Lemma subseq_app_skip (w a b : str) : subseq a b -> subseq a (w ++ b).
Proof. intro H. induction w; simpl; [assumption|now constructor]. Qed.

Lemma subseq_trans (a b c : str) : subseq a b -> subseq b c -> subseq a c.
Proof.
  intros Hab Hbc. revert a Hab.
  induction Hbc as [|x b c Hbc IH|x b c Hbc IH]; intros a Hab.
  - assumption.
  - constructor. now apply IH.
  - inversion Hab; subst.
    + apply subseq_skip. now apply IH.
    + apply subseq_keep. now apply IH.
Qed.

Lemma subseq_existsb (p : ascii -> bool) (a b : str) :
  subseq a b -> existsb p a = true -> existsb p b = true.
Proof.
  induction 1 as [|c a b H IH|c a b H IH]; simpl; intro E.
  - discriminate.
  - rewrite IH by assumption. apply orb_true_r.
  - apply orb_true_iff in E as [E|E]; [now rewrite E|].
    rewrite IH by assumption. apply orb_true_r.
Qed.

Lemma subseq_hasTag (a b : str) :
  subseq a b -> hasTag b = false -> hasTag a = false.
Proof.
  intros H Hb. destruct (hasTag a) eqn:Ha; [|reflexivity].
  rewrite <- Hb. clear Hb. symmetry.
  induction H as [|c a b H IH|c a b H IH]; simpl in *.
  - discriminate.
  - rewrite IH by assumption. apply orb_true_r.
  - apply orb_true_iff in Ha as [Ha|Ha].
    + apply andb_true_iff in Ha as [H1 H2]. rewrite H1.
      now rewrite (subseq_existsb _ H H2).
    + rewrite IH by assumption. apply orb_true_r.
Qed.

Lemma replaceAllFrom_subseq (r : regex) (n : nat) :
  forall pv s, subseq (replaceAllFrom r (const []) n pv s) s.
Proof.
  induction n as [|n IH]; intros pv s; simpl; [apply subseq_refl|].
  assert (Hstep : subseq match s with
                         | [] => []
                         | c :: s' => c :: replaceAllFrom r (const []) n (Some c) s'
                         end s).
  { destruct s as [|c s']; [apply subseq_nil|apply subseq_keep, IH]. }
  destruct (matchAt r (start pv s)) as [y|] eqn:E; [|exact Hstep].
  unfold const. simpl app.
  destruct (length (rest y) <? length s); [|exact Hstep].
  apply matchAt_reaches in E as (w & Hw & _). simpl in Hw. rewrite Hw.
  apply subseq_app_skip, IH.
Qed.

Lemma collapse_subseq (s : str) : subseq (collapse s) s.
Proof.
  revert s. apply (collapse_ind (fun s r => subseq r s)).
  - constructor.
  - intros s r H3 Hr.
    rewrite <- (firstn_skipn (runLength isLF s) s).
    destruct (run_split isLF s) as (Hw & _ & Hlen).
    destruct (firstn (runLength isLF s) s) as [|a [|b w]] eqn:Ew;
      try (simpl in Hlen; lia).
    simpl in Hw. apply andb_true_iff in Hw as [Ha Hw].
    apply andb_true_iff in Hw as [Hb _].
    apply isLF_eq in Ha, Hb. subst a b.
    simpl. do 2 apply subseq_keep. now apply subseq_app_skip.
  - intros c s r _ Hr. now apply subseq_keep.
Qed.

Lemma subseq_app_left (a b w : str) : subseq a b -> subseq a (b ++ w).
Proof.
  induction 1; simpl.
  - induction w; [apply subseq_nil|now apply subseq_skip].
  - now apply subseq_skip.
  - now apply subseq_keep.
Qed.

Lemma trim_subseq (s : str) : subseq (trim s) s.
Proof.
  destruct (trim_segment s) as (a & b & E). rewrite E at 2.
  apply subseq_app_skip, subseq_app_left, subseq_refl.
Qed.

(** The older cleaner returns a text without tags. *)
Lemma parser_clean_noTag (content : str) :
  hasTag (ReadmeParser.cleanReadmeContent content) = false.
Proof.
  unfold ReadmeParser.cleanReadmeContent, ReadmeParser.cleanSteps. simpl guarded.
  fold (stripTags content).
  eapply subseq_hasTag; [|apply (stripTags_noTag content)].
  eapply subseq_trans; [apply trim_subseq|].
  eapply subseq_trans; [apply collapse_subseq|].
  apply replaceAllFrom_subseq.
Qed.

(** C4, as amended: the current cleaner removes HTML comments and nothing
    else of HTML.  Its comment step deletes a comment from its opening mark
    to the first closing mark after it, line feeds included, keeps the text
    before it and goes on after it, and keeps a text without an opening mark
    as it is; there is no step for tags: a trimmed plain text with no run
    of three line feeds is returned unchanged, tags included.  Tags are
    stripped by
    the older parser's cleaner only: its first step deletes each [<...>] and
    keeps the text around it, and the text it returns holds no [<] with a
    [>] after it. *)
Theorem C4_comments_removed_tags_kept :
  (forall content, content <> [] ->
      ReadmeContentCleaner.cleanReadmeContent content
      = trim (ReadmeContentCleaner.cleanMarkdownArtifacts
                (stripComments
                   (replaceAll ReadmeContentCleaner.reCRLF (const [LF])
                      (replaceAll ReadmeContentCleaner.reTrailing (const [])
                         (collapse content))))))
  /\ (forall a body b,
         includes a commentOpen = false -> includes body commentClose = false ->
         stripComments (a ++ commentOpen ++ body ++ commentClose ++ b)
         = a ++ stripComments b)
  /\ (forall a, includes a commentOpen = false -> stripComments a = a)
  /\ (forall s,
         plainText s = true -> noRun3 s -> trim s = s ->
         ReadmeContentCleaner.cleanReadmeContent s = s)
  /\ plainText (L "<a href='x'>y</a> <br/>") = true
  /\ (forall content,
         ReadmeParser.cleanReadmeContent content
         = trim (collapse (replaceAll ReadmeParser.reBadge (const [])
                             (stripTags content))))
  /\ (forall a t b,
         forallb notLt a = true -> forallb notGt t = true ->
         stripTags (a ++ L "<" ++ t ++ L ">" ++ b) = a ++ stripTags b)
  /\ (forall a, forallb notLt a = true -> stripTags a = a)
  /\ (forall content, hasTag (ReadmeParser.cleanReadmeContent content) = false).
Proof.
  split; [|split; [|split; [|split; [|split; [|split; [|split; [|split]]]]]]].
  - intros [|c s] H; [contradiction|reflexivity].
  - exact stripComments_first.
  - exact stripComments_none.
  - exact clean_fixed.
  - reflexivity.
  - reflexivity.
  - exact stripTags_first.
  - exact stripTags_none.
  - exact parser_clean_noTag.
Qed.

Lemma C4_comments_removed_tags_kept_witness :
  stripComments (L "See " ++ commentOpen ++ L " a
note " ++ commentClose ++ L " the <b>docs</b>")
  = L "See " ++ stripComments (L " the <b>docs</b>")
  /\ ReadmeContentCleaner.cleanReadmeContent (L "the <b>docs</b>") = L "the <b>docs</b>"
  /\ stripTags (L "the " ++ L "<" ++ L "b" ++ L ">" ++ L "docs</b>")
     = L "the " ++ stripTags (L "docs</b>").
Proof.
  destruct C4_comments_removed_tags_kept
    as (_ & Hcomment & _ & Hfixed & _ & _ & Htag & _).
  split; [|split].
  - apply Hcomment; reflexivity.
  - apply Hfixed; reflexivity.
  - apply Htag; reflexivity.
Defined.

(** The claim C4 fails on a text with a tag: the current cleaner returns it
    with the tag in place. *)
Lemma C4_counterexample :
  ReadmeContentCleaner.cleanReadmeContent (L "Some <b>bold</b> text")
  = L "Some <b>bold</b> text"
  /\ includes (ReadmeContentCleaner.cleanReadmeContent (L "Some <b>bold</b> text"))
              (L "<b>") = true.
Proof. split; vm_compute; reflexivity. Qed.

(** * Further properties of the cleaner *)

(** ** What a scan keeps *)

Lemma consumed_reaches (x y : pos) (w : str) :
  reaches x y w -> consumed x y = w.
Proof.
  intros [H _]. unfold consumed. rewrite H. apply firstn_app_exact.
Qed.

(** A scan whose replacements stay in a character set stays in it. *)
Lemma replaceAllFrom_Forall (Q : ascii -> Prop) (r : regex) (f : found -> str) :
  (forall m, Forall Q (text m) -> Forall Q (f m)) ->
  forall n pv s, Forall Q s -> Forall Q (replaceAllFrom r f n pv s).
Proof.
  intros Hf. induction n as [|n IH]; intros pv s Hs; simpl; [assumption|].
  assert (Hstep : Forall Q match s with
                           | [] => []
                           | c :: s' => c :: replaceAllFrom r f n (Some c) s'
                           end).
  { destruct s as [|c s']; [constructor|].
    inversion Hs; subst. constructor; [assumption|now apply IH]. }
  destruct (matchAt r (start pv s)) as [y|] eqn:E; [|exact Hstep].
  apply matchAt_reaches in E as (w & Hw).
  pose proof (consumed_reaches Hw) as Hc. destruct Hw as [Hw _]. simpl in Hw.
  assert (Hparts : Forall Q w /\ Forall Q (rest y)).
  { rewrite Hw in Hs. now apply Forall_app in Hs. }
  destruct Hparts as [Hpw Hpy].
  apply Forall_app. split.
  - apply Hf. unfold foundAt. simpl. now rewrite Hc.
  - destruct (length (rest y) <? length s); [now apply IH|exact Hstep].
Qed.

Lemma replaceAll_Forall (Q : ascii -> Prop) (r : regex) (f : found -> str) (s : str) :
  (forall m, Forall Q (text m) -> Forall Q (f m)) ->
  Forall Q s -> Forall Q (replaceAll r f s).
Proof. intros Hf Hs. now apply replaceAllFrom_Forall. Qed.

(** A pattern whose first item is a character fails where the character
    does not occur. *)
Lemma nowhere_absent (p : ascii -> bool) (r : regex) (s : str) :
  forallb (fun c => negb (p c)) s = true -> matchesNowhere (Seq (Chr p) r) s.
Proof.
  intros Hs pv a t E. apply matches_first_char. simpl. subst s.
  rewrite forallb_app in Hs. apply andb_true_iff in Hs as [_ Ht].
  destruct t as [|c t]; simpl in *; [exact I|].
  apply andb_true_iff in Ht as [Hc _]. now apply negb_true_iff in Hc.
Qed.

Lemma includes_absent (a : ascii) (p s : str) :
  forallb (fun c => negb (isChar a c)) s = true -> includes s (a :: p) = false.
Proof.
  induction s as [|c s IH]; intro Hs; [reflexivity|].
  simpl in Hs. apply andb_true_iff in Hs as [Hc Hs].
  apply negb_true_iff in Hc. unfold isChar in Hc.
  simpl. rewrite Hc. simpl. now apply IH.
Qed.

Lemma forallb_weaken (p q : ascii -> bool) (s : str) :
  (forall c, p c = true -> q c = true) -> forallb p s = true -> forallb q s = true.
Proof.
  intros Hpq Hs. rewrite forallb_forall in *. auto.
Qed.

Lemma forallb_Forall_true (p : ascii -> bool) (s : str) :
  forallb p s = true <-> Forall (fun c => p c = true) s.
Proof.
  rewrite forallb_forall, Forall_forall. reflexivity.
Qed.

(** ** Text that holds nothing but whitespace *)

Lemma space_not_rule (c : ascii) :
  isSpace c = true -> ReadmeContentCleaner.isRuleChar c = false.
Proof. destruct c as [[] [] [] [] [] [] [] []]; vm_compute; congruence. Qed.

Lemma space_not_mark (c : ascii) :
  isSpace c = true ->
  isChar "<" c = false /\ isChar "|" c = false /\ isChar "[" c = false.
Proof.
  destruct c as [[] [] [] [] [] [] [] []]; vm_compute; intro H;
    try discriminate H; repeat split.
Qed.

Lemma blank_ruleRunFree (s : str) : forallb isSpace s = true -> ruleRunFree s = true.
Proof.
  intro Hs. apply ruleRunFree_intro. intros a t ->.
  rewrite forallb_app in Hs. apply andb_true_iff in Hs as [_ Ht].
  destruct t as [|c t]; simpl in *; [lia|].
  apply andb_true_iff in Ht as [Hc _]. rewrite (space_not_rule _ Hc). lia.
Qed.

Lemma blank_trim (s : str) : forallb isSpace s = true -> trim s = [].
Proof.
  intro Hs. unfold trim, trimStart.
  assert (E : dropWhile isSpace s = []).
  { induction s as [|c s IH]; [reflexivity|]. simpl in *.
    apply andb_true_iff in Hs as [Hc Hs]. rewrite Hc. now apply IH. }
  now rewrite E.
Qed.

Lemma blank_scan (r : regex) (w s : str) :
  forallb isSpace w = true -> forallb isSpace s = true ->
  forallb isSpace (replaceAll r (const w) s) = true.
Proof.
  intros Hw Hs. apply forallb_Forall_true. apply replaceAll_Forall.
  - intros m _. unfold const. now apply forallb_Forall_true.
  - now apply forallb_Forall_true.
Qed.

Lemma blank_clean (content : str) :
  forallb isSpace content = true ->
  ReadmeContentCleaner.cleanReadmeContent content = [].
Proof.
  intro Hs. destruct content as [|c s]; [reflexivity|].
  unfold ReadmeContentCleaner.cleanReadmeContent,
    ReadmeContentCleaner.cleanReadmeContentOf, ReadmeContentCleaner.cleanSteps,
    ReadmeContentCleaner.cleanMarkdownArtifacts.
  simpl guarded.
  set (s1 := replaceAll ReadmeContentCleaner.reBlankLines _ _).
  set (s2 := replaceAll ReadmeContentCleaner.reTrailing _ _).
  set (s3 := replaceAll ReadmeContentCleaner.reCRLF _ _).
  assert (H3 : forallb isSpace s3 = true).
  { repeat apply blank_scan; auto. }
  clearbody s3. clear s1 s2.
  assert (Hno : forall a : ascii,
            (forall c, isSpace c = true -> isChar a c = false) ->
            forallb (fun c => negb (isChar a c)) s3 = true).
  { intros a Ha. apply forallb_weaken with (p := isSpace); [|assumption].
    intros c0 Hc0. now rewrite (Ha _ Hc0). }
  assert (Hlt : forallb (fun c => negb (isChar "<" c)) s3 = true)
    by (apply Hno; intros c0 H0; apply (space_not_mark c0 H0)).
  assert (Hbar : forallb (fun c => negb (isChar "|" c)) s3 = true)
    by (apply Hno; intros c0 H0; apply (space_not_mark c0 H0)).
  assert (Hbr : forallb (fun c => negb (isChar "[" c)) s3 = true)
    by (apply Hno; intros c0 H0; apply (space_not_mark c0 H0)).
  assert (Hopen : includes s3 commentOpen = false)
    by (apply includes_absent; exact Hlt).
  rewrite (replaceAll_nowhere _ (nowhere_comment Hopen)).
  rewrite (replaceAll_nowhere _ (nowhere_rule (blank_ruleRunFree _ H3))).
  assert (Htable : matchesNowhere ReadmeContentCleaner.reTable s3)
    by (apply nowhere_absent; exact Hbar).
  assert (Hlink : matchesNowhere ReadmeContentCleaner.reEmptyLink s3)
    by (apply nowhere_absent; exact Hbr).
  rewrite (replaceAll_nowhere _ Htable).
  rewrite (replaceAll_nowhere _ Hlink).
  now apply blank_trim.
Qed.

(** ** What a match consumes *)

Lemma reaches_length (x y : pos) (w : str) :
  reaches x y w -> length (rest x) = length w + length (rest y).
Proof. intros [H _]. rewrite H. apply length_app. Qed.

Lemma matches_minLen (r : regex) :
  forall x y, In y (matches r x) -> length (rest y) + minLen r <= length (rest x).
Proof.
  induction r as [|p|a IHa b IHb|a IHa b IHb|g lo p|m|m|a IHa];
    intros x y Hin; simpl in Hin; simpl minLen.
  - destruct Hin as [->|[]]. lia.
  - destruct (rest x) as [|c s] eqn:E; [contradiction|].
    destruct (p c); [|contradiction]. destruct Hin as [<-|[]]. simpl. lia.
  - apply in_flat_map in Hin as (z & Hz & Hy).
    apply IHa in Hz. apply IHb in Hy. lia.
  - apply in_app_or in Hin as [H|H]; [apply IHa in H|apply IHb in H]; lia.
  - destruct x as [pv s cp]. apply rep_reaches in Hin as (w & Hw & _ & Hlo & _).
    apply reaches_length in Hw. simpl in *. lia.
  - destruct (atLineStart m x); [|contradiction]. destruct Hin as [->|[]]. lia.
  - destruct (atLineEnd m x); [|contradiction]. destruct Hin as [->|[]]. lia.
  - apply in_map_iff in Hin as (z & <- & Hz). apply IHa in Hz. simpl. lia.
Qed.

Lemma matches_shorter (r : regex) (x y : pos) :
  In y (matches r x) -> length (rest y) <= length (rest x).
Proof. intro H. apply matches_minLen in H. lia. Qed.

Lemma consumed_length (x y : pos) :
  length (rest y) <= length (rest x) ->
  length (consumed x y) = length (rest x) - length (rest y).
Proof. intro H. unfold consumed. rewrite length_firstn. lia. Qed.

(** Group 1 holds a part of what the match consumed. *)
Lemma matches_cap (r : regex) :
  forall x y, In y (matches r x) ->
    cap y = cap x \/ capLength (cap y) + length (rest y) <= length (rest x).
Proof.
  induction r as [|p|a IHa b IHb|a IHa b IHb|g lo p|m|m|a IHa];
    intros x y Hin; pose proof (matches_shorter _ _ _ Hin) as Hlen;
    simpl in Hin.
  - destruct Hin as [->|[]]. now left.
  - destruct (rest x) as [|c s] eqn:E; [contradiction|].
    destruct (p c); [|contradiction]. destruct Hin as [<-|[]]. now left.
  - apply in_flat_map in Hin as (z & Hz & Hy).
    pose proof (matches_shorter _ _ _ Hz) as Hxz.
    pose proof (matches_shorter _ _ _ Hy) as Hzy.
    apply IHa in Hz. apply IHb in Hy.
    destruct Hy as [Hy|Hy]; [|right; lia].
    rewrite Hy. destruct Hz as [Hz|Hz]; [now left|right; lia].
  - apply in_app_or in Hin as [H|H]; [now apply IHa|now apply IHb].
  - destruct x as [pv s cp]. apply rep_reaches in Hin as (w & _ & _ & _ & Hc).
    now left.
  - destruct (atLineStart m x); [|contradiction]. destruct Hin as [->|[]]. now left.
  - destruct (atLineEnd m x); [|contradiction]. destruct Hin as [->|[]]. now left.
  - apply in_map_iff in Hin as (z & <- & Hz). right. simpl.
    apply matches_shorter in Hz. rewrite consumed_length by assumption. lia.
Qed.

Lemma matchAt_In (r : regex) (x y : pos) : matchAt r x = Some y -> In y (matches r x).
Proof.
  unfold matchAt. destruct (matches r x); simpl; [discriminate|].
  intro H. injection H as ->. now left.
Qed.

(** A scan whose replacements are no longer than the matches does not
    lengthen the text. *)
Lemma replaceAllFrom_length (r : regex) (f : found -> str) :
  (forall x y, In y (matches r x) -> cap x = None ->
               length (f (foundAt x y)) <= length (rest x) - length (rest y)) ->
  forall n pv s, length (replaceAllFrom r f n pv s) <= length s.
Proof.
  intros Hf. induction n as [|n IH]; intros pv s; simpl; [lia|].
  assert (Hstep : length match s with
                         | [] => []
                         | c :: s' => c :: replaceAllFrom r f n (Some c) s'
                         end <= length s).
  { destruct s as [|c s']; simpl; [lia|]. specialize (IH (Some c) s'). lia. }
  destruct (matchAt r (start pv s)) as [y|] eqn:E; [|exact Hstep].
  apply matchAt_In in E.
  pose proof (matches_shorter _ _ _ E) as Hle.
  specialize (Hf _ _ E eq_refl). simpl in Hf, Hle.
  rewrite length_app.
  destruct (length (rest y) <? length s) eqn:El.
  - specialize (IH (prev y) (rest y)). lia.
  - apply Nat.ltb_ge in El. lia.
Qed.

Lemma replaceAll_const_length (r : regex) (w s : str) :
  length w <= minLen r -> length (replaceAll r (const w) s) <= length s.
Proof.
  intro Hw. apply replaceAllFrom_length. intros x y Hin _.
  apply matches_minLen in Hin. unfold const. lia.
Qed.

Lemma trim_length (s : str) : length (trim s) <= length s.
Proof.
  destruct (trim_segment s) as (a & b & E).
  rewrite E at 2. rewrite !length_app. lia.
Qed.

Lemma clean_length (content : str) :
  length (ReadmeContentCleaner.cleanReadmeContent content) <= length content.
Proof.
  destruct content as [|c s]; [simpl; lia|].
  unfold ReadmeContentCleaner.cleanReadmeContent,
    ReadmeContentCleaner.cleanReadmeContentOf, ReadmeContentCleaner.cleanSteps,
    ReadmeContentCleaner.cleanMarkdownArtifacts.
  simpl guarded.
  set (s1 := replaceAll ReadmeContentCleaner.reBlankLines _ _).
  set (s2 := replaceAll ReadmeContentCleaner.reTrailing _ _).
  set (s3 := replaceAll ReadmeContentCleaner.reCRLF _ _).
  set (s4 := replaceAll ReadmeContentCleaner.reComment _ _).
  set (s5 := replaceAll ReadmeContentCleaner.reRule _ _).
  set (s6 := replaceAll ReadmeContentCleaner.reTable _ _).
  set (s7 := replaceAll ReadmeContentCleaner.reEmptyLink _ _).
  assert (H1 : length s1 <= length (c :: s))
    by (apply replaceAll_const_length; simpl; lia).
  assert (H2 : length s2 <= length s1)
    by (apply replaceAll_const_length; simpl; lia).
  assert (H3 : length s3 <= length s2)
    by (apply replaceAll_const_length; simpl; lia).
  assert (H4 : length s4 <= length s3)
    by (apply replaceAll_const_length; simpl; lia).
  assert (H5 : length s5 <= length s4)
    by (apply replaceAll_const_length; simpl; lia).
  assert (H6 : length s6 <= length s5).
  { apply replaceAllFrom_length. intros x y Hin _.
    pose proof (matches_shorter _ _ _ Hin) as Hle.
    unfold foundAt. cbn [text].
    rewrite <- (consumed_length _ _ Hle).
    apply replaceAll_const_length. simpl. lia. }
  assert (H7 : length s7 <= length s6).
  { apply replaceAllFrom_length. intros x y Hin Hx.
    apply matches_cap in Hin. unfold foundAt, dollar1. cbn [group1].
    destruct Hin as [Hc|Hc].
    - rewrite Hc, Hx. simpl. lia.
    - destruct (cap y); simpl in *; lia. }
  pose proof (trim_length s7). lia.
Qed.

(** * Further properties of the extraction pipeline *)

(** ** What every example carries *)

Lemma inlineExamples_trimmed (P : UsageExample -> Prop) :
  (forall g, ExampleExtractor.isSimpleUsageExample (trim g) = true ->
             P (mkExample (L "Quick Example") None (trim g) (L "python"))) ->
  forall content, Forall P (ExampleExtractor.extractInlineExamples content).
Proof.
  intros HP content. unfold ExampleExtractor.extractInlineExamples.
  assert (H : forall ms acc, Forall P acc ->
            Forall P (fold_left ExampleExtractor.inlineStep ms acc)).
  { induction ms as [|m ms IH]; intros acc Hacc; simpl; [assumption|].
    apply IH. unfold ExampleExtractor.inlineStep.
    destruct (ExampleExtractor.isSimpleUsageExample _) eqn:E; [|assumption].
    apply Forall_app. split; [assumption|]. constructor; [|constructor].
    now apply HP. }
  apply H. constructor.
Qed.

Lemma orElse_nonempty (a b : str) : b <> [] -> orElse a b <> [].
Proof. destruct a; simpl; [auto|discriminate]. Qed.

Lemma service_examples (P : UsageExample -> Prop) (x : str) :
  (forall c language section,
      ExampleExtractor.isLikelyUsageExample c language section = true ->
      P (mkExample (orElse (ExampleExtractor.formatTitle section) (L "Code Example"))
                   None (trim c) (orElse language (L "python")))) ->
  (forall g, ExampleExtractor.isSimpleUsageExample (trim g) = true ->
             P (mkExample (L "Quick Example") None (trim g) (L "python"))) ->
  Forall P (ReadmeService.extractUsageExamples x).
Proof.
  intros Hb Hi. apply service_examples_raw. apply extractor_examples.
  - unfold ExampleExtractor.extractBlockExamples.
    apply blockExamples_invariant; [assumption|constructor].
  - now apply inlineExamples_trimmed.
Qed.

(** ** Bounds of the score *)

Lemma bonus_bounds (b : bool) (n : Z) : (0 <= n -> 0 <= bonus b n <= n)%Z.
Proof. destruct b; simpl; lia. Qed.

Lemma score_bounds (e : UsageExample) :
  let len := Z.of_nat (length (code e)) in
  (ExampleProcessor.calculateRelevanceScore e
     <= 180 + bonus (ExampleProcessor.truthy (description e)) 15
   /\ 0 <= ExampleProcessor.calculateRelevanceScore e + len / 100
   /\ (len <= 299 -> 0 <= ExampleProcessor.calculateRelevanceScore e))%Z.
Proof.
  intro len. rewrite calculateRelevanceScore_spec. unfold specScore. fold len.
  pose proof (@bonus_bounds (includes (code e) (L "import ")) 50).
  pose proof (@bonus_bounds (includes (code e) (L "from ")) 45).
  pose proof (@bonus_bounds
                (includes (code e) (L "=") && negb (includes (code e) (L "=="))) 30).
  pose proof (@bonus_bounds (test ExampleProcessor.reCall (code e)) 25).
  pose proof (@bonus_bounds
                (existsb (fun keyword => includes (toLowerCase (title e)) keyword)
                   [L "usage"; L "example"; L "quickstart"; L "basic";
                    L "simple"; L "getting started"]) 20).
  pose proof (@bonus_bounds (ExampleProcessor.truthy (description e)) 15).
  assert (Hlen : (0 <= len)%Z) by (unfold len; lia).
  pose proof (@bonus_bounds ((50 <=? len)%Z && (len <=? 200)%Z) 10) as Hmid.
  assert (Hpen : (if (200 <? len)%Z then (len - 200) / 100 else 0)%Z
                 = (if (200 <? len)%Z then len / 100 - 2 else 0)%Z).
  { destruct (200 <? len)%Z; [|reflexivity].
    replace (len - 200)%Z with (len + (-2) * 100)%Z by lia.
    rewrite Z.div_add by lia. lia. }
  rewrite Hpen.
  assert (Hz : (bonus ((50 <=? len)%Z && (len <=? 200)%Z) 10 = 0
                \/ (200 <? len)%Z = false)%Z).
  { destruct (Z.ltb_spec 200 len) as [Hgt|Hle]; [left|now right].
    destruct (Z.leb_spec len 200); [lia|]. now rewrite andb_false_r. }
  assert (Hdiv : (0 <= len / 100)%Z) by (apply Z.div_pos; lia).
  assert (Hdiv2 : (200 < len -> 2 <= len / 100)%Z).
  { intro. apply Z.div_le_lower_bound; lia. }
  assert (Hdiv3 : (len <= 299 -> len / 100 <= 2)%Z).
  { intro. apply Z.lt_succ_r. apply Z.div_lt_upper_bound; lia. }
  destruct (Z.ltb_spec 200 len) as [Hgt|Hle]; destruct Hz as [Hz|Hz];
    try discriminate Hz; repeat split; lia.
Qed.

(** ** Text without a backtick *)

Lemma split_Forall (Q : ascii -> Prop) (sep : ascii) (s : str) :
  Forall Q s -> Forall (Forall Q) (split sep s).
Proof.
  induction 1 as [|c s Hc Hs IH]; simpl; [repeat constructor|].
  destruct (Ascii.eqb c sep).
  - constructor; [constructor|assumption].
  - destruct (split sep s) as [|l ls]; [repeat constructor; assumption|].
    inversion IH; subst. constructor; [constructor|]; assumption.
Qed.

Lemma noBacktick_Forall (s : str) :
  noBacktick s = true
  <-> Forall (fun c => isChar ExampleExtractor.BACKTICK c = false) s.
Proof.
  unfold noBacktick. rewrite forallb_forall, Forall_forall.
  split; intros H c Hc; specialize (H c Hc);
    [now apply negb_true_iff in H|now apply negb_true_iff].
Qed.

Lemma noBacktick_not_fence (line : str) :
  Forall (fun c => isChar ExampleExtractor.BACKTICK c = false) line ->
  isFenceLine line = false.
Proof.
  intro H. unfold isFenceLine.
  apply trim_Forall in H. destruct (trim line) as [|c t]; [reflexivity|].
  inversion H as [|? ? Hc _]; subst. unfold isChar in Hc.
  simpl. now rewrite Hc.
Qed.

Lemma matchAllFrom_nowhere (r : regex) (s : str) :
  matchesNowhere r s -> forall n pv, matchAllFrom r n pv s = [].
Proof.
  induction s as [|c s IH]; intros H n pv; destruct n as [|n]; simpl;
    try reflexivity; unfold matchAt; rewrite (H pv [] _ eq_refl); simpl;
    [reflexivity|].
  apply IH. eapply matchesNowhere_tail; eassumption.
Qed.

Lemma noBacktick_blocks (x : str) :
  noBacktick x = true -> ExampleExtractor.extractBlockExamples x = [].
Proof.
  intro H. unfold ExampleExtractor.extractBlockExamples.
  rewrite blockLoop_no_fence; [reflexivity|].
  apply noBacktick_Forall in H.
  eapply Forall_impl; [|apply split_Forall; exact H].
  intros line Hl. now apply noBacktick_not_fence.
Qed.

Lemma noBacktick_matches (x : str) :
  noBacktick x = true -> matchAll ExampleExtractor.reInlineCode x = [].
Proof.
  intro H. unfold matchAll. apply matchAllFrom_nowhere.
  unfold ExampleExtractor.reInlineCode. cbn [cat]. now apply nowhere_absent.
Qed.

Lemma noBacktick_extractor (x : str) :
  noBacktick x = true -> ExampleExtractor.extractUsageExamples x = [].
Proof.
  intro H. rewrite extractUsageExamples_eq, (noBacktick_blocks _ H).
  unfold ExampleExtractor.extractInlineExamples.
  now rewrite (noBacktick_matches _ H).
Qed.

(** ** Evidence of usage *)

Lemma startsWith_prefix (s p q : str) :
  startsWith s (p ++ q) = true -> startsWith s p = true.
Proof.
  revert s. induction p as [|a p IH]; intros s H; [destruct s; reflexivity|].
  destruct s as [|c s]; [discriminate|]. simpl in *.
  apply andb_true_iff in H as [Hc H]. rewrite Hc. simpl. now apply IH with (1 := H).
Qed.

Lemma includes_prefix (s p q : str) :
  includes s (p ++ q) = true -> includes s p = true.
Proof.
  assert (Heq : forall t u : str,
            includes t u = startsWith t u
                           || match t with [] => false | _ :: t' => includes t' u end).
  { intros [|c t] u; reflexivity. }
  induction s as [|c s IH]; intro H; rewrite Heq in H |- *;
    apply orb_true_iff in H as [H|H]; apply orb_true_iff.
  - left. exact (startsWith_prefix _ _ _ H).
  - discriminate.
  - left. exact (startsWith_prefix _ _ _ H).
  - right. now apply IH.
Qed.

Lemma likely_not_output (c language section : str) :
  ExampleExtractor.isLikelyUsageExample c language section = true ->
  ExampleExtractor.isOutputOnly (trim c) = false
  /\ ExampleExtractor.hasUsageIndicators (trim c) language section = true.
Proof.
  unfold ExampleExtractor.isLikelyUsageExample.
  destruct (_ || _); [discriminate|].
  destruct (_ && _); [discriminate|].
  destruct (ExampleExtractor.isOutputOnly (trim c)); [discriminate|].
  intro H. now split.
Qed.

Lemma simple_evidence (c : str) :
  ExampleExtractor.isSimpleUsageExample c = true ->
  ExampleExtractor.isOutputOnly c = false
  \/ test ExampleExtractor.reCallAtStart c = true.
Proof.
  unfold ExampleExtractor.isSimpleUsageExample, ExampleExtractor.isOutputOnly.
  intro H. apply orb_true_iff in H as [H|H]; [|now right].
  left. apply negb_false_iff. cbn [existsb].
  apply orb_true_iff in H as [H|H].
  - apply (@includes_prefix c (L "import") (L " ")) in H. now rewrite H.
  - apply andb_true_iff in H as [H _]. rewrite H. now rewrite !orb_true_r.
Qed.

(** ** Deduplication and sorting applied twice *)

Lemma dedupLoop_fixed (l : list UsageExample) :
  forall unique seen,
    (forall k, In k seen <-> In k (map key unique)) ->
    NoDup (map key (unique ++ l)) ->
    ExampleProcessor.dedupLoop l unique seen = unique ++ l.
Proof.
  induction l as [|e l IH]; intros unique seen Hseen Hnd; simpl;
    [now rewrite app_nil_r|].
  fold (key e).
  assert (Hnot : ~ In (key e) (map key unique)).
  { rewrite map_app in Hnd. simpl in Hnd.
    apply NoDup_remove_2 in Hnd. intro H. apply Hnd. apply in_or_app. now left. }
  assert (Em : memStr (key e) seen = false).
  { apply memStr_not_In. intro H. apply Hnot. now apply Hseen. }
  rewrite Em. simpl. rewrite IH.
  - now rewrite <- app_assoc.
  - intro k. rewrite map_app, in_app_iff. simpl. rewrite Hseen. tauto.
  - now rewrite <- app_assoc.
Qed.

Lemma dedup_fixed (l : list UsageExample) :
  NoDup (map key l) -> ExampleProcessor.deduplicateExamples l = l.
Proof.
  intro H. unfold ExampleProcessor.deduplicateExamples.
  rewrite dedupLoop_fixed; [reflexivity| |assumption].
  intro k. simpl. tauto.
Qed.

Lemma insert_head (A : Type) (a : A * Z) (l : list (A * Z)) :
  Forall (fun b => (snd b <= snd a)%Z) l ->
  ExampleProcessor.insert (@byScore A) a l = a :: l.
Proof.
  intros H. destruct l as [|b l]; [reflexivity|]. simpl.
  inversion H as [|? ? Hb _]; subst. unfold byScore.
  destruct (Z.leb_spec (snd b - snd a) 0); [reflexivity|lia].
Qed.

Lemma sort_fixed (A : Type) (l : list (A * Z)) :
  StronglySorted (@descending A) l -> ExampleProcessor.sort (@byScore A) l = l.
Proof.
  induction 1 as [|a l Hl IH Ha]; [reflexivity|].
  simpl. rewrite IH. now apply insert_head.
Qed.

Lemma sortByScore_fixed (A : Type) (score : A -> Z) (l : list A) :
  StronglySorted (fun a b => (score b <= score a)%Z) l -> sortByScore score l = l.
Proof.
  intro H. unfold sortByScore. rewrite sort_fixed.
  - rewrite map_map. simpl. apply map_id.
  - induction H as [|a l Hl IH Ha]; simpl; constructor; [assumption|].
    apply Forall_forall. intros p Hp. apply in_map_iff in Hp as (b & <- & Hb).
    rewrite Forall_forall in Ha. unfold descending. simpl. now apply Ha.
Qed.

(** ** The key is a normal form *)

Lemma squeezeFrom_squeezed (s : str) :
  forall b, squeezed b (squeezeFrom b s) = true.
Proof.
  induction s as [|c s IH]; intro b; [reflexivity|]. simpl.
  destruct (isSpace c) eqn:Ec.
  - destruct b; [apply IH|]. simpl. now rewrite IH.
  - simpl. rewrite Ec. apply IH.
Qed.

Lemma squeezed_fixed (s : str) :
  forall b, squeezed b s = true -> squeezeFrom b s = s.
Proof.
  induction s as [|c s IH]; intros b H; [reflexivity|]. simpl in *.
  destruct (isSpace c).
  - apply andb_true_iff in H as [H Hs]. apply andb_true_iff in H as [Hb Hc].
    destruct b; [discriminate|]. unfold isChar in Hc. apply Ascii.eqb_eq in Hc.
    subst c. f_equal. now apply IH.
  - f_equal. now apply IH.
Qed.

Lemma squeezed_weaken (s : str) (b : bool) :
  squeezed b s = true -> squeezed false s = true.
Proof.
  destruct s as [|c s]; [reflexivity|]. simpl.
  destruct (isSpace c); [|auto]. destruct b; [discriminate|auto].
Qed.

Lemma squeezed_app (a t : str) :
  forall b, squeezed b (a ++ t) = true ->
            squeezed b a = true /\ squeezed false t = true.
Proof.
  induction a as [|c a IH]; intros b H; simpl in *.
  - split; [reflexivity|]. eapply squeezed_weaken; eassumption.
  - destruct (isSpace c).
    + apply andb_true_iff in H as [H Hs]. rewrite H. simpl. now apply IH.
    + now apply IH.
Qed.

Lemma squeezed_map (g : ascii -> ascii) (s : str) :
  (forall c, isSpace (g c) = isSpace c) ->
  (forall c, isSpace c = true -> isChar " " (g c) = isChar " " c) ->
  forall b, squeezed b (map g s) = squeezed b s.
Proof.
  intros Hs Hc. induction s as [|c s IH]; intro b; [reflexivity|]. simpl.
  rewrite Hs. destruct (isSpace c) eqn:E; [|apply IH].
  now rewrite Hc, IH.
Qed.

Lemma squeezeFrom_map (g : ascii -> ascii) (s : str) :
  (forall c, isSpace (g c) = isSpace c) -> g " "%char = " "%char ->
  forall b, squeezeFrom b (map g s) = map g (squeezeFrom b s).
Proof.
  intros Hs Hg. induction s as [|c s IH]; intro b; [reflexivity|]. simpl.
  rewrite Hs. destruct (isSpace c) eqn:E.
  - destruct b; [apply IH|]. simpl. now rewrite IH, Hg.
  - simpl. now rewrite IH.
Qed.

Lemma unifyChar_space (c : ascii) : isSpace (unifyChar c) = isSpace c.
Proof. destruct c as [[] [] [] [] [] [] [] []]; reflexivity. Qed.

Lemma unifyChar_idem (c : ascii) : unifyChar (unifyChar c) = unifyChar c.
Proof. destruct c as [[] [] [] [] [] [] [] []]; reflexivity. Qed.

Lemma unifyQuotes_map (s : str) : unifyQuotes s = map unifyChar s.
Proof. reflexivity. Qed.

Lemma unifyQuotes_idem (s : str) : unifyQuotes (unifyQuotes s) = unifyQuotes s.
Proof.
  rewrite (unifyQuotes_map (unifyQuotes s)), (unifyQuotes_map s), map_map.
  apply map_ext. apply unifyChar_idem.
Qed.

Lemma squeeze_unify (s : str) :
  squeezeSpaces (unifyQuotes s) = unifyQuotes (squeezeSpaces s).
Proof.
  unfold squeezeSpaces. rewrite !unifyQuotes_map.
  apply squeezeFrom_map; [apply unifyChar_space|reflexivity].
Qed.

Lemma squeeze_idem (s : str) : squeezeSpaces (squeezeSpaces s) = squeezeSpaces s.
Proof. apply squeezed_fixed, squeezeFrom_squeezed. Qed.

Lemma dropWhile_map (g : ascii -> ascii) (s : str) :
  (forall c, isSpace (g c) = isSpace c) ->
  dropWhile isSpace (map g s) = map g (dropWhile isSpace s).
Proof.
  intro Hg. induction s as [|c s IH]; [reflexivity|]. simpl.
  rewrite Hg. destruct (isSpace c); [apply IH|reflexivity].
Qed.

Lemma trim_map (g : ascii -> ascii) (s : str) :
  (forall c, isSpace (g c) = isSpace c) -> trim (map g s) = map g (trim s).
Proof.
  intro Hg. unfold trim, trimEnd, trimStart.
  rewrite (dropWhile_map _ _ Hg), <- map_rev, (dropWhile_map _ _ Hg), map_rev.
  reflexivity.
Qed.

Lemma trim_unify (s : str) : trim (unifyQuotes s) = unifyQuotes (trim s).
Proof. rewrite !unifyQuotes_map. apply trim_map, unifyChar_space. Qed.

Lemma trim_squeezed (s : str) : squeezed false s = true -> squeezed false (trim s) = true.
Proof.
  intro H. destruct (trim_segment s) as (a & b & E). rewrite E in H.
  apply squeezed_app in H as [_ H]. now apply squeezed_app in H as [H _].
Qed.

Lemma specKey_idem (c : str) : specKey (specKey c) = specKey c.
Proof.
  set (k := specKey c).
  assert (Hk : k = trim (unifyQuotes (squeezeSpaces (toLowerCase c)))) by reflexivity.
  set (u := squeezeSpaces (toLowerCase c)) in Hk.
  assert (Hsq : squeezed false u = true) by apply squeezeFrom_squeezed.
  assert (Hlow : toLowerCase u = u).
  { unfold u, squeezeSpaces. now rewrite toLowerCase_squeeze, toLowerCase_idem. }
  clearbody u k.
  assert (H1 : toLowerCase k = k).
  { rewrite Hk. now rewrite toLowerCase_trim, toLowerCase_unifyQuotes, Hlow. }
  assert (H2 : squeezeSpaces k = k).
  { apply squeezed_fixed. rewrite Hk. apply trim_squeezed.
    rewrite unifyQuotes_map.
    rewrite squeezed_map; [assumption|apply unifyChar_space|].
    intros d _. destruct d as [[] [] [] [] [] [] [] []]; reflexivity. }
  assert (H3 : unifyQuotes k = k).
  { rewrite Hk. now rewrite <- trim_unify, unifyQuotes_idem. }
  assert (H4 : trim k = k).
  { rewrite Hk. apply trim_idem. }
  unfold specKey. now rewrite H1, H2, H3, H4.
Qed.

Lemma specKey_lower (c : str) : specKey (toLowerCase c) = specKey c.
Proof. unfold specKey. now rewrite toLowerCase_idem. Qed.

Lemma specKey_unify (c : str) : specKey (unifyQuotes c) = specKey c.
Proof.
  unfold specKey.
  now rewrite toLowerCase_unifyQuotes, squeeze_unify, unifyQuotes_idem.
Qed.

Lemma specKey_squeeze (c : str) : specKey (squeezeSpaces c) = specKey c.
Proof.
  unfold specKey. unfold squeezeSpaces at 2.
  rewrite toLowerCase_squeeze. fold (squeezeSpaces (toLowerCase c)).
  now rewrite squeeze_idem.
Qed.


(** * Further properties of the older parser *)

(** ** Sorting with a comparator *)

Section SortByComparator.

Variable A : Type.
Variable cmp : A -> A -> Z.
Variable sameRank : A -> bool.

Hypothesis cmp_total : forall a b, (0 < cmp a b)%Z -> (cmp b a <= 0)%Z.
Hypothesis cmp_trans :
  forall a b c, (cmp a b <= 0)%Z -> (cmp b c <= 0)%Z -> (cmp a c <= 0)%Z.
Hypothesis cmp_rank :
  forall a b, (0 < cmp a b)%Z -> sameRank a = true -> sameRank b = false.

Lemma insert_ordered (a : A) (l : list A) :
  StronglySorted (fun x y => (cmp x y <= 0)%Z) l ->
  StronglySorted (fun x y => (cmp x y <= 0)%Z) (ExampleProcessor.insert cmp a l).
Proof.
  induction 1 as [|b l Hl IH Hb]; simpl.
  - constructor; constructor.
  - destruct (cmp a b <=? 0)%Z eqn:E.
    + apply Z.leb_le in E.
      constructor; [constructor; assumption|].
      constructor; [assumption|].
      eapply Forall_impl; [|exact Hb]. intros c Hc. eapply cmp_trans; eassumption.
    + apply Z.leb_gt in E.
      constructor; [assumption|].
      eapply Permutation_Forall; [apply Permutation_sym, insert_permutation|].
      constructor; [now apply cmp_total|assumption].
Qed.

Lemma sort_ordered (l : list A) :
  StronglySorted (fun x y => (cmp x y <= 0)%Z) (ExampleProcessor.sort cmp l).
Proof.
  induction l as [|a l IH]; simpl; [constructor|]. now apply insert_ordered.
Qed.

Lemma insert_rank (a : A) (l : list A) :
  filter sameRank (ExampleProcessor.insert cmp a l) = filter sameRank (a :: l).
Proof.
  induction l as [|b l IH]; [reflexivity|].
  simpl ExampleProcessor.insert.
  destruct (cmp a b <=? 0)%Z eqn:E; [reflexivity|].
  apply Z.leb_gt in E.
  simpl. simpl in IH. rewrite IH.
  destruct (sameRank a) eqn:Ea; [|reflexivity].
  now rewrite (@cmp_rank a b E Ea).
Qed.

Lemma sort_rank (l : list A) :
  filter sameRank (ExampleProcessor.sort cmp l) = filter sameRank l.
Proof.
  induction l as [|a l IH]; [reflexivity|].
  simpl ExampleProcessor.sort. rewrite insert_rank. simpl. now rewrite IH.
Qed.

End SortByComparator.

Lemma compareExamples_before (a b : UsageExample) :
  (ReadmeParser.compareExamples a b <= 0)%Z <-> parserBefore a b.
Proof.
  unfold ReadmeParser.compareExamples, parserBefore, lengthScore.
  destruct (Z.eqb_spec (ReadmeParser.getRelevanceScore a)
                       (ReadmeParser.getRelevanceScore b)) as [E|E]; simpl; lia.
Qed.

Lemma compareExamples_rank (k : Z * Z) (a b : UsageExample) :
  (0 < ReadmeParser.compareExamples a b)%Z -> rankIs k a = true -> rankIs k b = false.
Proof.
  unfold ReadmeParser.compareExamples, rankIs, parserRank, lengthScore. simpl.
  intros H Ha. apply andb_true_iff in Ha as [H1 H2].
  apply Z.eqb_eq in H1, H2. apply andb_false_iff.
  destruct (Z.eqb_spec (ReadmeParser.getRelevanceScore a)
                       (ReadmeParser.getRelevanceScore b)) as [E|E]; simpl in H.
  - right. apply Z.eqb_neq. lia.
  - left. apply Z.eqb_neq. lia.
Qed.

Lemma parser_sort_ordered (l : list UsageExample) :
  StronglySorted parserBefore (ReadmeParser.sortExamplesByRelevance l).
Proof.
  unfold ReadmeParser.sortExamplesByRelevance.
  assert (H : StronglySorted
                (fun x y => (ReadmeParser.compareExamples x y <= 0)%Z)
                (ExampleProcessor.sort ReadmeParser.compareExamples l)).
  { apply sort_ordered.
    - intros a b. rewrite compareExamples_before.
      unfold ReadmeParser.compareExamples, parserBefore, lengthScore.
      destruct (Z.eqb_spec (ReadmeParser.getRelevanceScore a)
                           (ReadmeParser.getRelevanceScore b)); simpl; lia.
    - intros a b c. rewrite !compareExamples_before.
      unfold parserBefore. lia. }
  induction H as [|a s Hs IH Ha]; constructor; [assumption|].
  eapply Forall_impl; [|exact Ha]. intros b. apply compareExamples_before.
Qed.

Lemma parser_sort_stable (k : Z * Z) (l : list UsageExample) :
  filter (rankIs k) (ReadmeParser.sortExamplesByRelevance l) = filter (rankIs k) l.
Proof.
  unfold ReadmeParser.sortExamplesByRelevance. apply sort_rank.
  intros a b. apply compareExamples_rank.
Qed.

(** ** Deduplication by title and code *)

Lemma parser_dedupLoop_spec (l : list UsageExample) :
  forall unique seen,
    (forall k, In k seen <-> In k (map parserKey unique)) ->
    NoDup (map parserKey unique) ->
    exists kept,
      ReadmeParser.dedupLoop l unique seen = unique ++ kept
      /\ NoDup (map parserKey (unique ++ kept))
      /\ Forall (fun e => In e l) kept
      /\ Forall (fun e => In (parserKey e) (map parserKey (unique ++ kept))) l.
Proof.
  induction l as [|e l IH]; intros unique seen Hseen Hnd;
    cbn [ReadmeParser.dedupLoop]; cbv zeta.
  - exists []. rewrite app_nil_r. repeat split; auto.
  - change (title e ++ L ":" ++ code e) with (parserKey e).
    destruct (memStr (parserKey e) seen) eqn:Em; cbn [negb].
    + apply memStr_In in Em. apply Hseen in Em.
      destruct (IH unique seen Hseen Hnd) as (kept & E & Hn & Hin & Hall).
      exists kept. repeat split; auto.
      * eapply Forall_impl; [|exact Hin]. intros a Ha. now right.
      * constructor; [|assumption]. rewrite map_app. apply in_or_app. now left.
    + apply memStr_not_In in Em.
      assert (Hseen' : forall k, In k (parserKey e :: seen)
                                 <-> In k (map parserKey (unique ++ [e]))).
      { intro k. rewrite map_app, in_app_iff. simpl. rewrite Hseen. tauto. }
      assert (Hnd' : NoDup (map parserKey (unique ++ [e]))).
      { rewrite map_app. simpl. apply NoDup_app_remove_l with (l := []).
        simpl. apply Permutation_NoDup with (l := parserKey e :: map parserKey unique).
        - apply Permutation_cons_append.
        - constructor; [|assumption]. intro H. apply Em. now apply Hseen. }
      destruct (IH _ _ Hseen' Hnd') as (kept & E & Hn & Hin & Hall).
      exists (e :: kept). rewrite <- app_assoc in E, Hn, Hall. simpl in E, Hn, Hall.
      repeat split; auto.
      * constructor; [now left|].
        eapply Forall_impl; [|exact Hin]. intros a Ha. now right.
      * constructor; [|assumption]. rewrite map_app. apply in_or_app. right. now left.
Qed.

Lemma parser_dedup_spec (l : list UsageExample) :
  NoDup (map parserKey (ReadmeParser.deduplicateExamples l))
  /\ Forall (fun e => In e l) (ReadmeParser.deduplicateExamples l)
  /\ Forall (fun e => In (parserKey e)
                         (map parserKey (ReadmeParser.deduplicateExamples l))) l.
Proof.
  unfold ReadmeParser.deduplicateExamples.
  destruct (@parser_dedupLoop_spec l [] []) as (kept & E & Hn & Hin & Ha).
  - intro k. simpl. tauto.
  - constructor.
  - rewrite E. simpl in *. repeat split; auto.
Qed.

Lemma parser_pipeline (x : str) :
  ReadmeParser.extractUsageExamples x
  = ReadmeParser.sortExamplesByRelevance
      (ReadmeParser.deduplicateExamples
         (parserBlockExamples x ++ ReadmeParser.extractInlineExamples x)).
Proof. reflexivity. Qed.

(** ** Length of the code the older parser extracts *)

Lemma parser_likely_length (c language ttl : str) :
  ReadmeParser.isLikelyUsageExample c language ttl = true ->
  10 <= length (trim c) <= 5000.
Proof.
  unfold ReadmeParser.isLikelyUsageExample.
  destruct (Nat.ltb_spec (length (trim c)) 10); [discriminate|].
  destruct (Nat.ltb_spec 5000 (length (trim c))); [discriminate|].
  intros _. lia.
Qed.

Lemma parserBlocks_invariant (P : UsageExample -> Prop) (x : str) :
  (forall c language ttl descr,
      ReadmeParser.isLikelyUsageExample c language ttl = true ->
      P (mkExample (orElse ttl (L "Code Example")) descr (trim c)
                   (orElse language (L "python")))) ->
  Forall P (parserBlockExamples x).
Proof.
  intro HP. unfold parserBlockExamples.
  assert (H : forall lines st,
             Forall P (ReadmeParser.examples st) ->
             Forall P (ReadmeParser.examples (fold_left ReadmeParser.parserStep lines st))).
  { induction lines as [|line lines IH]; intros st Hst; simpl; [assumption|].
    apply IH.
    destruct (parserStep_examples st line) as [->|(ttl & descr & Hs & ->)];
      [assumption|].
    apply Forall_app. split; [assumption|]. constructor; [|constructor].
    now apply HP. }
  apply H. constructor.
Qed.

(** Every match of a scan is a candidate of the pattern at some position. *)
Lemma matchAllFrom_found (r : regex) :
  forall n pv s,
    Forall (fun m => exists x y, In y (matches r x) /\ cap x = None
                                 /\ m = foundAt x y)
           (matchAllFrom r n pv s).
Proof.
  induction n as [|n IH]; intros pv s; simpl; [constructor|].
  assert (Hstep : Forall (fun m => exists x y, In y (matches r x) /\ cap x = None
                                               /\ m = foundAt x y)
                         match s with
                         | [] => []
                         | c :: s' => matchAllFrom r n (Some c) s'
                         end).
  { destruct s as [|c s']; [constructor|apply IH]. }
  destruct (matchAt r (start pv s)) as [y|] eqn:E; [|exact Hstep].
  constructor.
  - exists (start pv s), y. split; [now apply matchAt_In|]. now split.
  - destruct (length (rest y) <? length s); [apply IH|exact Hstep].
Qed.

Lemma found_text_length (r : regex) (x y : pos) :
  In y (matches r x) -> minLen r <= length (text (foundAt x y)).
Proof.
  intro H. pose proof (matches_minLen _ _ _ H) as Hm.
  unfold foundAt. cbn [text]. rewrite consumed_length; lia.
Qed.

Lemma join_length (sep p : str) (ps : list str) :
  length p <= length (join sep (p :: ps)).
Proof.
  destruct ps as [|q ps]; simpl; [lia|]. rewrite length_app. lia.
Qed.

Lemma parserInline_invariant (P : UsageExample -> Prop) (x : str) :
  (forall c, 8 <= length c -> P (mkExample (L "Basic Import") None c (L "python"))) ->
  (forall c, 10 < length c < 200 ->
             includes c (L "import") || includes c (L "=") || includes c (L "(") = true ->
             P (mkExample (L "Inline Example") None c (L "python"))) ->
  Forall P (ReadmeParser.extractInlineExamples x).
Proof.
  intros Hb Hi. unfold ReadmeParser.extractInlineExamples.
  set (f := fun examples m => _).
  assert (H : forall ms acc, Forall P acc -> Forall P (fold_left f ms acc)).
  { induction ms as [|m ms IH]; intros acc Hacc; simpl; [assumption|].
    apply IH. unfold f.
    destruct ((10 <? length (dollar1 m)) && (length (dollar1 m) <? 200)) eqn:E1;
      [|assumption].
    destruct (includes (dollar1 m) (L "import") || includes (dollar1 m) (L "=")
              || includes (dollar1 m) (L "(")) eqn:E2; [|assumption].
    simpl. apply Forall_app. split; [assumption|]. constructor; [|constructor].
    apply andb_true_iff in E1 as [Ha Hc].
    apply Nat.ltb_lt in Ha, Hc. apply Hi; [lia|assumption]. }
  apply H.
  pose proof (matchAllFrom_found ReadmeParser.reImportLine
                (S (length x)) None x) as Hm.
  fold (matchAll ReadmeParser.reImportLine x) in Hm.
  destruct (matchAll ReadmeParser.reImportLine x) as [|m ms]; [constructor|].
  cbn [map]. constructor; [|constructor]. apply Hb.
  inversion Hm as [|? ? (x0 & y0 & Hin & _ & ->) _]; subst.
  cbn [firstn]. eapply Nat.le_trans; [|apply join_length].
  apply (found_text_length _ _ _ Hin).
Qed.

(** ** The older cleaner *)

Lemma parser_clean_subseq (content : str) :
  subseq (ReadmeParser.cleanReadmeContent content) content.
Proof.
  unfold ReadmeParser.cleanReadmeContent, ReadmeParser.cleanSteps. simpl guarded.
  eapply subseq_trans; [apply trim_subseq|].
  eapply subseq_trans; [apply collapse_subseq|].
  eapply subseq_trans; apply replaceAllFrom_subseq.
Qed.

Lemma parser_clean_shape (content : str) :
  noRun3 (ReadmeParser.cleanReadmeContent content)
  /\ trim (ReadmeParser.cleanReadmeContent content)
     = ReadmeParser.cleanReadmeContent content.
Proof.
  unfold ReadmeParser.cleanReadmeContent, ReadmeParser.cleanSteps. simpl guarded.
  split; [|apply trim_idem].
  apply trim_noRun3. apply (collapse_run _).
Qed.

Lemma subseq_length (a b : str) : subseq a b -> length a <= length b.
Proof. induction 1; simpl; lia. Qed.

(** ** Text without a backtick and without an import *)

Lemma startsWith_includes (s p : str) : startsWith s p = true -> includes s p = true.
Proof. destruct s; simpl; intro H; now rewrite H. Qed.

Lemma nowhere_import (s : str) :
  includes s (L "import") = false -> matchesNowhere ReadmeParser.reImportLine s.
Proof.
  intros Hs pv a t E.
  destruct (matches ReadmeParser.reImportLine (start pv t)) as [|y ys] eqn:Em;
    [reflexivity|].
  exfalso.
  assert (Hin : In y (matches ReadmeParser.reImportLine (start pv t)))
    by (rewrite Em; now left).
  unfold ReadmeParser.reImportLine in Hin. cbn [cat] in Hin.
  change (matches (Seq ?a ?b) ?x) with (flat_map (matches b) (matches a x)) in Hin.
  apply in_flat_map in Hin as (z1 & Hz1 & Hin).
  change (matches (Seq ?a ?b) ?x) with (flat_map (matches b) (matches a x)) in Hin.
  apply in_flat_map in Hin as (z2 & Hz2 & Hin).
  change (matches (Seq ?a ?b) ?x) with (flat_map (matches b) (matches a x)) in Hin.
  apply in_flat_map in Hin as (z3 & Hz3 & _).
  apply matches_reaches in Hz1 as (w1 & Hw1 & _).
  apply matches_reaches in Hz2 as (w2 & Hw2 & _).
  destruct z2 as [pv2 s2 cp2]. rewrite matches_lit in Hz3.
  destruct (startsWith s2 (L "import")) eqn:Est; [|contradiction].
  simpl in Hw1, Hw2.
  assert (Hinc : includes s (L "import") = true).
  { rewrite E. apply includes_app_r. rewrite Hw1. apply includes_app_r.
    rewrite Hw2. apply includes_app_r. now apply startsWith_includes. }
  congruence.
Qed.

Lemma parser_blocks_noBacktick (x : str) :
  noBacktick x = true -> parserBlockExamples x = [].
Proof.
  intro H. unfold parserBlockExamples.
  assert (Hlines : Forall (fun line => isFenceLine line = false) (split LF x)).
  { apply noBacktick_Forall in H.
    eapply Forall_impl; [|apply split_Forall; exact H].
    intros line Hl. now apply noBacktick_not_fence. }
  assert (Hloop : forall lines st,
             Forall (fun line => isFenceLine line = false) lines ->
             ReadmeParser.examples (fold_left ReadmeParser.parserStep lines st)
             = ReadmeParser.examples st).
  { induction lines as [|line lines IH]; intros st Hl; [reflexivity|].
    inversion Hl as [|? ? Hline Hrest]; subst. simpl. rewrite IH by assumption.
    unfold ReadmeParser.parserStep. unfold isFenceLine in Hline. rewrite Hline.
    destruct (ReadmeParser.inCodeBlock st); [reflexivity|].
    destruct (_ && _ && _); reflexivity. }
  now rewrite Hloop.
Qed.

Lemma parser_noBacktick (x : str) :
  noBacktick x = true -> includes x (L "import") = false ->
  ReadmeParser.extractUsageExamples x = [].
Proof.
  intros Hb Hi. rewrite parser_pipeline, (parser_blocks_noBacktick _ Hb).
  unfold ReadmeParser.extractInlineExamples.
  rewrite (noBacktick_matches _ Hb).
  unfold matchAll at 1.
  rewrite matchAllFrom_nowhere by (apply nowhere_import; exact Hi).
  reflexivity.
Qed.

(** * Properties of the further code *)

(** ** The logger *)

Lemma indexOf_levels (x : str) :
  (-1 <= Logger.indexOf Logger.levels x <= 3)%Z.
Proof.
  unfold Logger.indexOf, Logger.levels. simpl.
  repeat match goal with |- context [if ?b then _ else _] => destruct b end; lia.
Qed.

Lemma shouldLog_error (logLevel : str) : Logger.error logLevel = true.
Proof.
  unfold Logger.error, Logger.shouldLog.
  change (Logger.indexOf Logger.levels (toLowerCase (L "error"))) with 3%Z.
  apply Z.leb_le. apply indexOf_levels.
Qed.

Lemma shouldLog_unknown (logLevel level : str) :
  Logger.indexOf Logger.levels (toLowerCase logLevel) = (-1)%Z ->
  Logger.shouldLog logLevel level = true.
Proof.
  intro H. unfold Logger.shouldLog. rewrite H. apply Z.leb_le. apply indexOf_levels.
Qed.

Lemma shouldLog_monotone (logLevel : str) :
  (Logger.debug logLevel = true -> Logger.info logLevel = true)
  /\ (Logger.info logLevel = true -> Logger.warn logLevel = true)
  /\ (Logger.warn logLevel = true -> Logger.error logLevel = true).
Proof.
  unfold Logger.debug, Logger.info, Logger.warn, Logger.error, Logger.shouldLog.
  change (Logger.indexOf Logger.levels (toLowerCase (L "debug"))) with 0%Z.
  change (Logger.indexOf Logger.levels (toLowerCase (L "info"))) with 1%Z.
  change (Logger.indexOf Logger.levels (toLowerCase (L "warn"))) with 2%Z.
  change (Logger.indexOf Logger.levels (toLowerCase (L "error"))) with 3%Z.
  repeat split; intro H; apply Z.leb_le in H; apply Z.leb_le; lia.
Qed.

(** ** The installation commands *)

Lemma existsb_app_l (A : Type) (f : A -> bool) (l l' : list A) :
  existsb f l = true -> existsb f (l ++ l') = true.
Proof. intro H. rewrite existsb_app, H. reflexivity. Qed.

Lemma hasConsoleScripts_more (packageInfo : PyPI.PackageInfo) (l more : list str) :
  InstallationInfoBuilder.hasConsoleScripts (withClassifiers packageInfo l) = true ->
  InstallationInfoBuilder.hasConsoleScripts (withClassifiers packageInfo (l ++ more)) = true.
Proof.
  unfold InstallationInfoBuilder.hasConsoleScripts, withClassifiers.
  cbn [PyPI.info PyPI.classifiers PyPI.name].
  intro H. apply orb_true_iff in H as [H|H]; apply orb_true_iff; [left|now right].
  now apply existsb_app_l.
Qed.

Lemma hasConsoleScripts_name (packageInfo : PyPI.PackageInfo) (keyword : str) :
  In keyword [L "cli"; L "command"; L "tool"; L "utility"; L "script"] ->
  includes (toLowerCase (PyPI.name (PyPI.info packageInfo))) keyword = true ->
  InstallationInfoBuilder.hasConsoleScripts packageInfo = true.
Proof.
  intros Hk Hi. unfold InstallationInfoBuilder.hasConsoleScripts.
  apply orb_true_iff. right. apply existsb_exists. exists keyword. now split.
Qed.

(** ** The cache *)

Section CacheLemmas.

Variable V : Type.
Variable jsonLength : V -> nat.

Lemma mapGet_mapSet_same (key : str) (e : MemoryCache.CacheEntry V) (m : list (str * MemoryCache.CacheEntry V)) :
  MemoryCache.mapGet key (MemoryCache.mapSet key e m) = Some e.
Proof.
  induction m as [|[k e'] m IH]; simpl.
  - now rewrite eqStr_refl.
  - destruct (eqStr k key) eqn:E; simpl; rewrite E; [reflexivity|exact IH].
Qed.

Lemma mapGet_mapSet_other (key key' : str) (e : MemoryCache.CacheEntry V) (m : list (str * MemoryCache.CacheEntry V)) :
  key' <> key ->
  MemoryCache.mapGet key' (MemoryCache.mapSet key e m) = MemoryCache.mapGet key' m.
Proof.
  intro Hne. induction m as [|[k e'] m IH]; simpl.
  - destruct (eqStr key key') eqn:E; [|reflexivity].
    apply eqStr_eq in E. congruence.
  - destruct (eqStr k key) eqn:E; simpl.
    + apply eqStr_eq in E. subst k.
      destruct (eqStr key key') eqn:E'; [|reflexivity].
      apply eqStr_eq in E'. congruence.
    + now rewrite IH.
Qed.

Lemma mapGet_mapDelete_same (key : str) (m : list (str * MemoryCache.CacheEntry V)) :
  MemoryCache.mapGet key (MemoryCache.mapDelete key m) = None.
Proof.
  induction m as [|[k e] m IH]; [reflexivity|].
  unfold MemoryCache.mapDelete in *. simpl.
  destruct (eqStr k key) eqn:E; simpl; [exact IH|]. now rewrite E.
Qed.

Lemma mapGet_filter (key : str) (e : MemoryCache.CacheEntry V) (keep : MemoryCache.CacheEntry V -> bool) (m : list (str * MemoryCache.CacheEntry V)) :
  MemoryCache.mapGet key m = Some e -> keep e = true ->
  MemoryCache.mapGet key (filter (fun ke => keep (snd ke)) m) = Some e.
Proof.
  induction m as [|[k e'] m IH]; [discriminate|]. simpl.
  destruct (eqStr k key) eqn:E.
  - intros H Hk. injection H as ->. rewrite Hk. simpl. now rewrite E.
  - intros H Hk. destruct (keep e'); simpl; [rewrite E|]; now apply IH.
Qed.

(** The sum of the estimated sizes. *)
Lemma fold_sum_shift (f : str * MemoryCache.CacheEntry V -> Z) (m : list (str * MemoryCache.CacheEntry V)) (z : Z) :
  fold_left (fun total ke => (total + f ke)%Z) m z
  = (z + fold_left (fun total ke => (total + f ke)%Z) m 0)%Z.
Proof.
  revert z. induction m as [|ke m IH]; intro z; cbn [fold_left]; [lia|].
  rewrite (IH (z + f ke)%Z), (IH (0 + f ke)%Z). lia.
Qed.

Lemma currentSize_cons (ke : str * MemoryCache.CacheEntry V) (m : list (str * MemoryCache.CacheEntry V)) (a b : Z) :
  MemoryCache.getCurrentSize jsonLength (MemoryCache.mkCache (ke :: m) a b)
  = (MemoryCache.estimateSize jsonLength (MemoryCache.data (snd ke))
     + MemoryCache.getCurrentSize jsonLength (MemoryCache.mkCache m a b))%Z.
Proof.
  unfold MemoryCache.getCurrentSize. simpl. rewrite fold_sum_shift. lia.
Qed.

Lemma estimateSize_nonneg (v : V) : (0 <= MemoryCache.estimateSize jsonLength v)%Z.
Proof. unfold MemoryCache.estimateSize. lia. Qed.

Lemma currentSize_nil (a b : Z) :
  MemoryCache.getCurrentSize jsonLength (MemoryCache.mkCache (V := V) [] a b) = 0%Z.
Proof. reflexivity. Qed.

Lemma currentSize_mapSet (key : str) (e : MemoryCache.CacheEntry V)
      (m : list (str * MemoryCache.CacheEntry V)) (a b : Z) :
  (MemoryCache.getCurrentSize jsonLength
     (MemoryCache.mkCache (MemoryCache.mapSet key e m) a b)
   <= MemoryCache.getCurrentSize jsonLength (MemoryCache.mkCache m a b)
      + MemoryCache.estimateSize jsonLength (MemoryCache.data e))%Z.
Proof.
  induction m as [|[k e'] m IH]; cbn [MemoryCache.mapSet].
  - rewrite currentSize_cons, currentSize_nil. cbn [snd]. lia.
  - destruct (eqStr k key); rewrite !currentSize_cons; cbn [snd].
    + pose proof (estimateSize_nonneg (MemoryCache.data e')). lia.
    + lia.
Qed.

End CacheLemmas.

Section CacheProperties.

Variable V : Type.
Variable jsonLength : V -> nat.

Lemma set_store (stamp now : Z) (key : str) (value : V) (ttl : option Z)
      (c : MemoryCache.t V) :
  MemoryCache.cache (MemoryCache.set jsonLength stamp now key value ttl c)
  = MemoryCache.mapSet key (storedEntry stamp value ttl c)
      (if (MemoryCache.maxSize c
           <? MemoryCache.getCurrentSize jsonLength (MemoryCache.cleanup now c)
              + MemoryCache.estimateSize jsonLength value)%Z
       then []
       else MemoryCache.cache (MemoryCache.cleanup now c)).
Proof.
  unfold MemoryCache.set. cbn [MemoryCache.cache MemoryCache.maxSize MemoryCache.cleanup].
  destruct (_ <? _)%Z; reflexivity.
Qed.

Lemma set_fields (stamp now : Z) (key : str) (value : V) (ttl : option Z)
      (c : MemoryCache.t V) :
  MemoryCache.maxSize (MemoryCache.set jsonLength stamp now key value ttl c)
  = MemoryCache.maxSize c
  /\ MemoryCache.defaultTtl (MemoryCache.set jsonLength stamp now key value ttl c)
     = MemoryCache.defaultTtl c.
Proof.
  unfold MemoryCache.set.
  cbn [MemoryCache.cache MemoryCache.maxSize MemoryCache.defaultTtl MemoryCache.cleanup].
  destruct (_ <? _)%Z; split; reflexivity.
Qed.

Lemma set_lookup (stamp now : Z) (key : str) (value : V) (ttl : option Z)
      (c : MemoryCache.t V) :
  MemoryCache.mapGet key
    (MemoryCache.cache (MemoryCache.set jsonLength stamp now key value ttl c))
  = Some (storedEntry stamp value ttl c).
Proof. rewrite set_store. apply mapGet_mapSet_same. Qed.

Lemma get_set_live (stamp now now' : Z) (key : str) (value : V) (ttl : option Z)
      (c : MemoryCache.t V) :
  (now' - stamp <= orNumber ttl (MemoryCache.defaultTtl c))%Z ->
  MemoryCache.get now' key (MemoryCache.set jsonLength stamp now key value ttl c)
  = (Some value, MemoryCache.set jsonLength stamp now key value ttl c).
Proof.
  intro H. unfold MemoryCache.get. rewrite set_lookup.
  unfold MemoryCache.expired, storedEntry.
  cbn [MemoryCache.ttl MemoryCache.timestamp MemoryCache.data].
  destruct (Z.ltb_spec (orNumber ttl (MemoryCache.defaultTtl c)) (now' - stamp));
    [lia|reflexivity].
Qed.

Lemma get_set_expired (stamp now now' : Z) (key : str) (value : V) (ttl : option Z)
      (c : MemoryCache.t V) :
  (orNumber ttl (MemoryCache.defaultTtl c) < now' - stamp)%Z ->
  let r := MemoryCache.get now' key
             (MemoryCache.set jsonLength stamp now key value ttl c) in
  fst r = None /\ MemoryCache.mapGet key (MemoryCache.cache (snd r)) = None.
Proof.
  intro H. unfold MemoryCache.get. rewrite set_lookup.
  unfold MemoryCache.expired, storedEntry.
  cbn [MemoryCache.ttl MemoryCache.timestamp MemoryCache.data].
  destruct (Z.ltb_spec (orNumber ttl (MemoryCache.defaultTtl c)) (now' - stamp));
    [|lia].
  cbn [fst snd MemoryCache.cache]. split; [reflexivity|apply mapGet_mapDelete_same].
Qed.

Lemma set_size (stamp now : Z) (key : str) (value : V) (ttl : option Z)
      (c : MemoryCache.t V) :
  let c' := MemoryCache.set jsonLength stamp now key value ttl c in
  (MemoryCache.getCurrentSize jsonLength c' <= MemoryCache.maxSize c)%Z
  \/ MemoryCache.cache c' = [(key, storedEntry stamp value ttl c)].
Proof.
  intro c'. pose proof (set_store stamp now key value ttl c) as Hs. fold c' in Hs.
  destruct (Z.ltb_spec (MemoryCache.maxSize c)
              (MemoryCache.getCurrentSize jsonLength (MemoryCache.cleanup now c)
               + MemoryCache.estimateSize jsonLength value)) as [Hover|Hfit].
  - right. exact Hs.
  - left. destruct c' as [m a b] eqn:Ec. cbn [MemoryCache.cache] in Hs. rewrite Hs.
    eapply Z.le_trans; [apply currentSize_mapSet|].
    unfold storedEntry. cbn [MemoryCache.data].
    unfold MemoryCache.getCurrentSize in *. cbn [MemoryCache.cache] in *. exact Hfit.
Qed.

Lemma set_keeps (stamp now : Z) (key key' : str) (value : V) (ttl : option Z)
      (c : MemoryCache.t V) (e : MemoryCache.CacheEntry V) :
  key' <> key ->
  MemoryCache.mapGet key' (MemoryCache.cache c) = Some e ->
  MemoryCache.expired now e = false ->
  (MemoryCache.getCurrentSize jsonLength (MemoryCache.cleanup now c)
   + MemoryCache.estimateSize jsonLength value <= MemoryCache.maxSize c)%Z ->
  MemoryCache.mapGet key'
    (MemoryCache.cache (MemoryCache.set jsonLength stamp now key value ttl c))
  = Some e.
Proof.
  intros Hne Hget Hlive Hfit. rewrite set_store.
  destruct (Z.ltb_spec (MemoryCache.maxSize c)
              (MemoryCache.getCurrentSize jsonLength (MemoryCache.cleanup now c)
               + MemoryCache.estimateSize jsonLength value)); [lia|].
  rewrite mapGet_mapSet_other by assumption.
  cbn [MemoryCache.cleanup MemoryCache.cache].
  apply mapGet_filter with (keep := fun e0 => negb (MemoryCache.expired now e0));
    [assumption|].
  now rewrite Hlive.
Qed.

Lemma set_overflow (stamp now : Z) (key : str) (value : V) (ttl : option Z)
      (c : MemoryCache.t V) :
  (MemoryCache.maxSize c
   < MemoryCache.getCurrentSize jsonLength (MemoryCache.cleanup now c)
     + MemoryCache.estimateSize jsonLength value)%Z ->
  MemoryCache.cache (MemoryCache.set jsonLength stamp now key value ttl c)
  = [(key, storedEntry stamp value ttl c)].
Proof.
  intro H. rewrite set_store.
  destruct (Z.ltb_spec (MemoryCache.maxSize c)
              (MemoryCache.getCurrentSize jsonLength (MemoryCache.cleanup now c)
               + MemoryCache.estimateSize jsonLength value)); [reflexivity|lia].
Qed.

Lemma create_bounds (options : MemoryCache.CacheOptions) :
  (CACHE_CONFIG.MIN_SIZE <= MemoryCache.maxSize (MemoryCache.create V options)
   /\ CACHE_CONFIG.MIN_TTL <= MemoryCache.defaultTtl (MemoryCache.create V options))%Z.
Proof. unfold MemoryCache.create. cbn [MemoryCache.maxSize MemoryCache.defaultTtl]. lia. Qed.

End CacheProperties.

(** ** Package names *)

Lemma last_Some_cons (c : ascii) (w : str) (pv : option ascii) :
  last (map Some (c :: w)) pv = last (map Some w) (Some c).
Proof.
  destruct w as [|a w]; [reflexivity|].
  change (last (Some a :: map Some w) pv = last (Some a :: map Some w) (Some c)).
  apply last_cons_default.
Qed.

(** Every run of the character class is a candidate of the repetition. *)
Lemma rep_In (g : bool) (p : ascii -> bool) (w t : str) :
  forallb p w = true ->
  forall lo pv cp, lo <= length w ->
    In (mkPos (last (map Some w) pv) t cp) (rep g p lo pv (w ++ t) cp).
Proof.
  induction w as [|c w IH]; intros Hw lo pv cp Hlo.
  - simpl in Hlo. assert (lo = 0) by lia. subst lo.
    destruct t as [|d t]; simpl; destruct g; try (destruct (p d));
      simpl; auto; apply in_or_app; simpl; auto.
  - simpl in Hw. apply andb_true_iff in Hw as [Hc Hw].
    rewrite last_Some_cons.
    assert (Hin : In (mkPos (last (map Some w) (Some c)) t cp)
                     (rep g p (pred lo) (Some c) (w ++ t) cp)).
    { apply IH; [assumption|]. simpl in Hlo. lia. }
    simpl. rewrite Hc. destruct g; apply in_or_app; auto.
Qed.

Lemma test_anchored (r : regex) (s : str) :
  test (Seq (Bol false) r) s
  = match matches r (start None s) with
    | [] => false
    | _ :: _ => true
    end.
Proof.
  unfold test. destruct (matches r (start None s)) as [|y ys] eqn:E.
  - now rewrite exec_anchored.
  - unfold exec. destruct s as [|c s]; simpl; unfold matchAt; simpl;
      rewrite E; reflexivity.
Qed.

Lemma alnum_nameChar (c : ascii) :
  Validators.isAlnum c = true -> Validators.isNameChar c = true.
Proof. unfold Validators.isNameChar. now intros ->. Qed.

Lemma test_reName (t : str) :
  test Validators.reName t = true
  <-> exists a w b, t = a :: w ++ [b]
                    /\ Validators.isAlnum a = true
                    /\ forallb Validators.isNameChar w = true
                    /\ Validators.isAlnum b = true.
Proof.
  unfold Validators.reName. cbn [cat]. rewrite test_anchored.
  set (body := Seq (Chr Validators.isAlnum) _).
  split.
  - destruct (matches body (start None t)) as [|y ys] eqn:E; [discriminate|].
    intros _.
    assert (Hin : In y (matches body (start None t))) by (rewrite E; now left).
    unfold body in Hin.
    change (matches (Seq ?a ?b) ?x) with (flat_map (matches b) (matches a x)) in Hin.
    apply in_flat_map in Hin as (z1 & Hz1 & Hin).
    change (matches (Seq ?a ?b) ?x) with (flat_map (matches b) (matches a x)) in Hin.
    apply in_flat_map in Hin as (z2 & Hz2 & Hin).
    change (matches (Seq ?a ?b) ?x) with (flat_map (matches b) (matches a x)) in Hin.
    apply in_flat_map in Hin as (z3 & Hz3 & Hin).
    simpl in Hz1. destruct t as [|a t1]; [contradiction|].
    destruct (Validators.isAlnum a) eqn:Ea; [|contradiction].
    destruct Hz1 as [<-|[]].
    cbn [matches prev rest cap] in Hz2.
    apply rep_reaches in Hz2 as (w & [Hw _] & Hfw & _ & _). simpl in Hw.
    simpl in Hz3. destruct (rest z2) as [|b t3] eqn:E2; [contradiction|].
    destruct (Validators.isAlnum b) eqn:Eb; [|contradiction].
    destruct Hz3 as [<-|[]].
    simpl in Hin. unfold atLineEnd in Hin. simpl in Hin.
    destruct t3 as [|d t3]; [|contradiction].
    exists a, w, b. subst t1. repeat split; assumption.
  - intros (a & w & b & -> & Ha & Hw & Hb).
    assert (Hin : In (mkPos (Some b) [] None) (matches body (start None (a :: w ++ [b])))).
    { unfold body.
      change (matches (Seq ?a ?b) ?x) with (flat_map (matches b) (matches a x)).
      apply in_flat_map. exists (mkPos (Some a) (w ++ [b]) None). split.
      { simpl. rewrite Ha. now left. }
      change (matches (Seq ?a ?b) ?x) with (flat_map (matches b) (matches a x)).
      apply in_flat_map. exists (mkPos (last (map Some w) (Some a)) [b] None). split.
      { cbn [matches prev rest cap]. apply rep_In; [assumption|lia]. }
      change (matches (Seq ?a ?b) ?x) with (flat_map (matches b) (matches a x)).
      apply in_flat_map. exists (mkPos (Some b) [] None). split.
      { simpl. rewrite Hb. now left. }
      simpl. now left. }
    destruct (matches body (start None (a :: w ++ [b]))); [contradiction|reflexivity].
Qed.

Lemma test_reSingle (a : ascii) :
  test Validators.reSingle [a] = Validators.isAlnum a.
Proof.
  unfold Validators.reSingle. cbn [cat]. rewrite test_anchored.
  simpl. destruct (Validators.isAlnum a); reflexivity.
Qed.

Lemma list_ends (A : Type) (a : A) (t : list A) :
  t <> [] -> exists w b, a :: t = a :: w ++ [b].
Proof.
  intro H. destruct (exists_last H) as (w & b & ->). now exists w, b.
Qed.

Lemma wellFormedName_single (a : ascii) :
  wellFormedName [a] = Validators.isAlnum a.
Proof.
  unfold wellFormedName. simpl.
  destruct (Validators.isAlnum a) eqn:E; [|reflexivity].
  now rewrite (alnum_nameChar _ E).
Qed.

Lemma wellFormedName_ends (a b : ascii) (w : str) :
  wellFormedName (a :: w ++ [b]) = true
  <-> Validators.isAlnum a = true /\ forallb Validators.isNameChar w = true
      /\ Validators.isAlnum b = true.
Proof.
  unfold wellFormedName.
  change (rev (a :: w ++ [b])) with (rev (w ++ [b]) ++ [a]).
  rewrite rev_app_distr. cbn [rev app].
  cbn [forallb]. rewrite forallb_app. cbn [forallb].
  split.
  - intro H. repeat (apply andb_true_iff in H as [H ?]).
    repeat match goal with
           | Hx : _ && _ = true |- _ => apply andb_true_iff in Hx as [? ?]
           end.
    auto.
  - intros (Ha & Hw & Hb).
    rewrite Ha, Hb, Hw, (alnum_nameChar _ Ha), (alnum_nameChar _ Hb). reflexivity.
Qed.

Lemma validatePackageName_iff (s : str) :
  Validators.validatePackageName (Some s) = Returns tt
  <-> wellFormedName (trim s) = true.
Proof.
  unfold Validators.validatePackageName.
  destruct (trim s) as [|a t] eqn:E.
  - cbn [truthyStr negb]. rewrite orb_true_r. split; discriminate.
  - assert (Hs : truthyStr s = true).
    { destruct s; [discriminate E|reflexivity]. }
    rewrite Hs. cbn [truthyStr negb orb].
    destruct t as [|c t].
    + cbn [length]. change (1 <? 1) with false. rewrite andb_false_r.
      change (1 =? 1) with true. cbn [andb].
      rewrite test_reSingle, wellFormedName_single.
      destruct (Validators.isAlnum a); cbn [negb]; split; congruence.
    + destruct (@list_ends _ a (c :: t)) as (w & b & Ew); [discriminate|].
      rewrite Ew.
      assert (Hlen : length (a :: w ++ [b]) = S (S (length w))).
      { simpl. rewrite length_app. simpl. lia. }
      rewrite Hlen. change (1 <? S (S (length w))) with true.
      change (S (S (length w)) =? 1) with false.
      rewrite andb_true_r. cbn [andb].
      rewrite wellFormedName_ends.
      destruct (test Validators.reName (a :: w ++ [b])) eqn:Et; cbn [negb].
      * apply test_reName in Et as (a' & w' & b' & Eq & Ha & Hw & Hb).
        injection Eq as <- Eq. apply app_inj_tail in Eq as [<- <-].
        split; auto.
      * split; [discriminate|]. intros (Ha & Hw & Hb).
        assert (Ht : test Validators.reName (a :: w ++ [b]) = true).
        { apply test_reName. exists a, w, b. auto. }
        congruence.
Qed.

Lemma validatePackageName_trim (s : str) :
  Validators.validatePackageName (Some (trim s))
  = Validators.validatePackageName (Some s).
Proof.
  unfold Validators.validatePackageName. rewrite trim_idem.
  destruct (trim s) as [|a t] eqn:E.
  - cbn [truthyStr negb]. now rewrite !orb_true_r.
  - assert (Hs : truthyStr s = true).
    { destruct s; [discriminate E|reflexivity]. }
    rewrite Hs. reflexivity.
Qed.

(** ** Cache keys *)

Lemma trim_parts (s : str) :
  exists a b, s = a ++ trim s ++ b
              /\ forallb isSpace a = true /\ forallb isSpace b = true.
Proof.
  unfold trim, trimStart. rewrite trimEnd_firstn, dropWhile_skipn.
  set (m := skipn (runLength isSpace s) s).
  exists (firstn (runLength isSpace s) s),
         (skipn (length m - runLength isSpace (rev m)) m).
  split; [|split].
  - rewrite firstn_skipn. unfold m. now rewrite firstn_skipn.
  - apply run_split.
  - assert (E : skipn (length m - runLength isSpace (rev m)) m
                = rev (firstn (runLength isSpace (rev m)) (rev m))).
    { rewrite firstn_rev, rev_involutive. reflexivity. }
    rewrite E. apply forallb_forall. intros c Hc. apply in_rev in Hc.
    destruct (run_split isSpace (rev m)) as (Hrun & _).
    rewrite forallb_forall in Hrun. now apply Hrun.
Qed.

Lemma nameChar_not_colon (c : ascii) :
  Validators.isNameChar c = true -> isChar ":" c = false.
Proof. destruct c as [[] [] [] [] [] [] [] []]; vm_compute; congruence. Qed.

Lemma space_not_colon (c : ascii) : isSpace c = true -> isChar ":" c = false.
Proof. destruct c as [[] [] [] [] [] [] [] []]; vm_compute; congruence. Qed.

Lemma wellFormedName_chars (t : str) :
  wellFormedName t = true -> forallb Validators.isNameChar t = true.
Proof.
  unfold wellFormedName. destruct t as [|a t]; [discriminate|].
  destruct (rev (a :: t)); [discriminate|].
  intro H. now apply andb_true_iff in H as [_ H].
Qed.

Lemma validated_noColon (s : str) :
  Validators.validatePackageName (Some s) = Returns tt -> noColon s = true.
Proof.
  intro H. apply validatePackageName_iff, wellFormedName_chars in H.
  destruct (trim_parts s) as (a & b & E & Ha & Hb).
  unfold noColon. rewrite E, !forallb_app.
  rewrite (forallb_weaken _ (fun c => negb (isChar ":" c)) a
             (fun c Hc => eq_trans (f_equal negb (space_not_colon c Hc)) eq_refl) Ha).
  rewrite (forallb_weaken _ (fun c => negb (isChar ":" c)) b
             (fun c Hc => eq_trans (f_equal negb (space_not_colon c Hc)) eq_refl) Hb).
  rewrite (forallb_weaken _ (fun c => negb (isChar ":" c)) (trim s)
             (fun c Hc => eq_trans (f_equal negb (nameChar_not_colon c Hc)) eq_refl) H).
  reflexivity.
Qed.

Lemma colon_split (a b u v : str) :
  noColon a = true -> noColon b = true ->
  a ++ L ":" ++ u = b ++ L ":" ++ v -> a = b /\ u = v.
Proof.
  revert b. induction a as [|c a IH]; intros [|d b] Ha Hb E; simpl in *.
  - injection E as ->. now split.
  - injection E as <- _. discriminate Hb.
  - injection E as -> _. discriminate Ha.
  - injection E as -> E.
    apply andb_true_iff in Ha as [_ Ha]. apply andb_true_iff in Hb as [_ Hb].
    destruct (IH b Ha Hb E) as [-> ->]. now split.
Qed.

Lemma packageReadme_inj (n1 v1 n2 v2 : str) :
  noColon n1 = true -> noColon n2 = true ->
  createCacheKey.packageReadme n1 v1 = createCacheKey.packageReadme n2 v2 ->
  n1 = n2 /\ v1 = v2.
Proof.
  intros H1 H2 E. unfold createCacheKey.packageReadme in E.
  apply app_inv_head in E. now apply colon_split.
Qed.

(** ** The basic information *)

Lemma extractAuthor_nonempty (info : PyPI.Info) :
  PackageInfoBuilder.extractAuthor info <> [].
Proof.
  unfold PackageInfoBuilder.extractAuthor.
  destruct (PyPI.author info) as [|a s]; simpl;
    destruct (PyPI.author_email info) as [[|c e]|]; discriminate.
Qed.

Lemma extractMaintainer_nonempty (info : PyPI.Info) (m : str) :
  PackageInfoBuilder.extractMaintainer info = Some m -> m <> [].
Proof.
  unfold PackageInfoBuilder.extractMaintainer.
  destruct (PyPI.maintainer info) as [[|a s]|];
    destruct (PyPI.maintainer_email info) as [[|c e]|]; intro H;
    try discriminate H; injection H as <-; discriminate.
Qed.

Lemma matchAt_separator_none (pv : option ascii) (c : ascii) (s : str) :
  matchAt PackageInfoBuilder.reSeparator (start pv (c :: s)) = None ->
  PackageInfoBuilder.isSeparator c = false.
Proof.
  unfold PackageInfoBuilder.reSeparator. rewrite matchAt_rep_greedy. simpl.
  destruct (PackageInfoBuilder.isSeparator c); [discriminate|reflexivity].
Qed.

Lemma splitFrom_pieces (fuel : nat) :
  forall cur pv s,
    length s < fuel ->
    forallb (fun c => negb (PackageInfoBuilder.isSeparator c)) cur = true ->
    Forall (fun piece =>
              forallb (fun c => negb (PackageInfoBuilder.isSeparator c)) piece = true)
           (splitFrom PackageInfoBuilder.reSeparator fuel cur pv s).
Proof.
  induction fuel as [|fuel IH]; intros cur pv s Hlen Hcur; [lia|].
  simpl. destruct s as [|c s]; [repeat constructor; assumption|].
  destruct (matchAt PackageInfoBuilder.reSeparator (start pv (c :: s))) as [y|] eqn:E.
  - constructor; [assumption|]. apply IH; [|reflexivity].
    apply matchAt_In, matches_minLen in E. simpl in E, Hlen. lia.
  - apply IH; [simpl in Hlen; lia|].
    rewrite forallb_app, Hcur. simpl.
    now rewrite (matchAt_separator_none _ _ _ E).
Qed.

Lemma separator_free_trim (k : str) :
  forallb (fun c => negb (PackageInfoBuilder.isSeparator c)) k = true -> trim k = k.
Proof.
  intro H.
  assert (Hsp : forall c, In c k -> isSpace c = false).
  { intros c Hc. rewrite forallb_forall in H. specialize (H c Hc).
    apply negb_true_iff in H. unfold PackageInfoBuilder.isSeparator in H.
    now apply orb_false_iff in H as [_ H]. }
  apply trim_fixed.
  - destruct k as [|c k]; simpl; [exact I|]. apply Hsp. now left.
  - destruct (rev k) as [|c r] eqn:E; simpl; [exact I|].
    apply Hsp. apply in_rev. rewrite E. now left.
Qed.

Lemma extractKeywords_string (info : PyPI.Info) (s : str) :
  PyPI.keywords info = PyPI.KeywordsString s ->
  Forall (fun k => k <> []
                   /\ forallb (fun c => negb (PackageInfoBuilder.isSeparator c)) k = true)
         (PackageInfoBuilder.extractKeywords info).
Proof.
  intro Hk. unfold PackageInfoBuilder.extractKeywords. rewrite Hk.
  pose proof (@splitFrom_pieces (S (length s)) [] None s (Nat.lt_succ_diag_r _) eq_refl)
    as Hp.
  fold (splitRe PackageInfoBuilder.reSeparator s) in Hp.
  induction Hp as [|piece pieces Hpiece _ IH]; [constructor|].
  simpl. rewrite (separator_free_trim _ Hpiece).
  destruct piece as [|c piece]; simpl; [exact IH|].
  constructor; [|exact IH]. split; [discriminate|exact Hpiece].
Qed.

(** ** The text handed to the cleaner *)

Lemma extractReadmeContent_nonempty (packageInfo : PyPI.PackageInfo) :
  PackageReadmeService.extractReadmeContent packageInfo <> [].
Proof.
  unfold PackageReadmeService.extractReadmeContent.
  assert (Hf : orElse (PyPI.summary (PyPI.info packageInfo))
                 (orElse (PyPI.description (PyPI.info packageInfo))
                    (L "No README available for this package.")) <> []).
  { apply orElse_nonempty, orElse_nonempty. discriminate. }
  destruct (PyPI.description (PyPI.info packageInfo)) as [|c d] eqn:Ed.
  - exact Hf.
  - cbn [truthyStr andb].
    destruct (ExampleProcessor.truthy _); [|exact Hf].
    destruct (_ || _); [discriminate|exact Hf].
Qed.

(** ** Backticks and the cleaner *)

Lemma matches_capIn (Q : ascii -> Prop) (r : regex) :
  forall x y, In y (matches r x) ->
    Forall Q (rest x) -> capIn Q (cap x) -> capIn Q (cap y) /\ Forall Q (rest y).
Proof.
  induction r as [|p|a IHa b IHb|a IHa b IHb|g lo p|m|m|a IHa];
    intros x y Hin Hx Hc.
  - simpl in Hin. destruct Hin as [->|[]]. now split.
  - simpl in Hin. destruct (rest x) as [|c s] eqn:E; [contradiction|].
    destruct (p c); [|contradiction]. destruct Hin as [<-|[]]. simpl.
    split; [assumption|]. now inversion Hx.
  - simpl in Hin. apply in_flat_map in Hin as (z & Hz & Hy).
    destruct (IHa _ _ Hz Hx Hc) as [Hcz Hrz]. now apply (IHb _ _ Hy).
  - simpl in Hin. apply in_app_or in Hin as [H|H]; [now apply (IHa _ _ H)|now apply (IHb _ _ H)].
  - simpl in Hin. destruct x as [pv s cp].
    apply rep_reaches in Hin as (w & [Hw _] & _ & _ & Hcap). simpl in *.
    rewrite Hcap. split; [assumption|].
    rewrite Hw in Hx. now apply Forall_app in Hx.
  - simpl in Hin. destruct (atLineStart m x); [|contradiction].
    destruct Hin as [->|[]]. now split.
  - simpl in Hin. destruct (atLineEnd m x); [|contradiction].
    destruct Hin as [->|[]]. now split.
  - simpl in Hin. apply in_map_iff in Hin as (z & <- & Hz). simpl.
    destruct (IHa _ _ Hz Hx Hc) as [_ Hrz]. split; [|assumption].
    destruct (matches_reaches _ _ _ Hz) as (w & Hw).
    rewrite (consumed_reaches Hw). destruct Hw as [Hw _].
    rewrite Hw in Hx. now apply Forall_app in Hx.
Qed.

Lemma replaceAllFrom_Forall_group (Q : ascii -> Prop) (r : regex) (f : found -> str) :
  (forall m, Forall Q (text m) -> capIn Q (group1 m) -> Forall Q (f m)) ->
  forall n pv s, Forall Q s -> Forall Q (replaceAllFrom r f n pv s).
Proof.
  intros Hf. induction n as [|n IH]; intros pv s Hs; simpl; [assumption|].
  assert (Hstep : Forall Q match s with
                           | [] => []
                           | c :: s' => c :: replaceAllFrom r f n (Some c) s'
                           end).
  { destruct s as [|c s']; [constructor|].
    inversion Hs; subst. constructor; [assumption|now apply IH]. }
  destruct (matchAt r (start pv s)) as [y|] eqn:E; [|exact Hstep].
  pose proof (matchAt_In _ _ E) as Hin.
  destruct (@matches_capIn Q r _ _ Hin Hs I) as [Hcy Hry].
  apply matchAt_reaches in E as (w & Hw).
  pose proof (consumed_reaches Hw) as Hc. destruct Hw as [Hw _]. simpl in Hw.
  assert (Hpw : Forall Q w).
  { rewrite Hw in Hs. now apply Forall_app in Hs. }
  apply Forall_app. split.
  - apply Hf; unfold foundAt; simpl; [now rewrite Hc|assumption].
  - destruct (length (rest y) <? length s); [now apply IH|exact Hstep].
Qed.

Lemma clean_Forall (Q : ascii -> Prop) (content : str) :
  Q LF -> Q " "%char -> Q "-"%char ->
  Forall Q content -> Forall Q (ReadmeContentCleaner.cleanReadmeContent content).
Proof.
  intros Hlf Hsp Hdash Hs. destruct content as [|c s]; [constructor|].
  unfold ReadmeContentCleaner.cleanReadmeContent,
    ReadmeContentCleaner.cleanReadmeContentOf, ReadmeContentCleaner.cleanSteps,
    ReadmeContentCleaner.cleanMarkdownArtifacts.
  simpl guarded.
  apply trim_Forall.
  apply replaceAllFrom_Forall_group.
  { intros m _ Hg. unfold dollar1. destruct (group1 m); [exact Hg|constructor]. }
  apply replaceAll_Forall.
  { intros m Hm. apply replaceAll_Forall; [|assumption].
    intros m' _. unfold const. repeat constructor. assumption. }
  apply replaceAll_Forall.
  { intros m _. unfold const. repeat constructor; assumption. }
  apply replaceAll_Forall.
  { intros m _. unfold const. constructor. }
  apply replaceAll_Forall.
  { intros m _. unfold const. repeat constructor; assumption. }
  apply replaceAll_Forall.
  { intros m _. unfold const. constructor. }
  apply replaceAll_Forall.
  { intros m _. unfold const. repeat constructor; assumption. }
  assumption.
Qed.

Lemma clean_noBacktick (content : str) :
  noBacktick content = true ->
  noBacktick (ReadmeContentCleaner.cleanReadmeContent content) = true.
Proof.
  intro H. apply noBacktick_Forall. apply clean_Forall; try reflexivity.
  now apply noBacktick_Forall.
Qed.

(** ** The service *)

Section ServiceProperties.

Variable getInfo : str -> completion PyPI.PackageInfo.
Variable getVersion : str -> str -> completion PyPI.PackageInfo.
Variable jsonLength : PackageReadmeResponse -> nat.

Lemma get_fields (V : Type) (now : Z) (key : str) (c : MemoryCache.t V) :
  MemoryCache.maxSize (snd (MemoryCache.get now key c)) = MemoryCache.maxSize c
  /\ MemoryCache.defaultTtl (snd (MemoryCache.get now key c)) = MemoryCache.defaultTtl c.
Proof.
  unfold MemoryCache.get. destruct (MemoryCache.mapGet key (MemoryCache.cache c));
    [destruct (MemoryCache.expired now c0)|]; split; reflexivity.
Qed.

Lemma get_miss (V : Type) (now : Z) (key : str) (c c1 : MemoryCache.t V) :
  MemoryCache.get now key c = (None, c1) ->
  MemoryCache.mapGet key (MemoryCache.cache c1) = None.
Proof.
  unfold MemoryCache.get.
  destruct (MemoryCache.mapGet key (MemoryCache.cache c)) as [e|] eqn:E.
  - destruct (MemoryCache.expired now e); intro H; [|discriminate].
    injection H as <-. apply mapGet_mapDelete_same.
  - intro H. injection H as <-. exact E.
Qed.

Lemma service_found (now stamp now' : Z) (params : GetPackageReadmeParams)
      (cache c1 : PackageReadmeService.Cache) (packageInfo : PyPI.PackageInfo) :
  MemoryCache.get now (requestKey params) cache = (None, c1) ->
  PackageReadmeService.getPackageInfo getInfo getVersion
    (param_package_name params) (requestedVersion params) = Some packageInfo ->
  exists response,
    PackageReadmeService.getPackageReadme getInfo getVersion jsonLength
      now stamp now' params cache
    = (response,
       MemoryCache.set jsonLength stamp now' (requestKey params) response None c1)
    /\ exists_ response = true
    /\ package_name response = param_package_name params
    /\ version response = PyPI.version (PyPI.info packageInfo)
    /\ readme_content response
       = ReadmeService.cleanReadmeContent
           (PackageReadmeService.extractReadmeContent packageInfo)
    /\ usage_examples response
       = (if match param_include_examples params with Some b => b | None => true end
             && truthyStr (readme_content response)
          then ReadmeService.extractUsageExamples (readme_content response)
          else [])
    /\ installation response = InstallationInfoBuilder.build packageInfo
    /\ basic_info response = PackageInfoBuilder.build packageInfo.
Proof.
  intros Hmiss Hinfo. unfold PackageReadmeService.getPackageReadme.
  fold (requestedVersion params). fold (requestKey params).
  rewrite Hmiss, Hinfo.
  eexists. split; [reflexivity|]. repeat split; reflexivity.
Qed.

Lemma service_missing (now stamp now' : Z) (params : GetPackageReadmeParams)
      (cache c1 : PackageReadmeService.Cache) :
  MemoryCache.get now (requestKey params) cache = (None, c1) ->
  PackageReadmeService.getPackageInfo getInfo getVersion
    (param_package_name params) (requestedVersion params) = None ->
  PackageReadmeService.getPackageReadme getInfo getVersion jsonLength
    now stamp now' params cache
  = (PackageReadmeService.createNotFoundResponse
       (param_package_name params) (requestedVersion params), c1).
Proof.
  intros Hmiss Hinfo. unfold PackageReadmeService.getPackageReadme.
  fold (requestedVersion params). fold (requestKey params).
  now rewrite Hmiss, Hinfo.
Qed.

Lemma service_hit (now stamp now' : Z) (params : GetPackageReadmeParams)
      (cache : PackageReadmeService.Cache) (response : PackageReadmeResponse) :
  MemoryCache.get now (requestKey params) cache = (Some response, cache) ->
  PackageReadmeService.getPackageReadme getInfo getVersion jsonLength
    now stamp now' params cache
  = (response, cache).
Proof.
  intros Hhit. unfold PackageReadmeService.getPackageReadme.
  fold (requestedVersion params). fold (requestKey params).
  now rewrite Hhit.
Qed.

End ServiceProperties.

Lemma service_length (x : str) :
  length (ReadmeService.extractUsageExamples x) <= README_CONFIG.MAX_EXAMPLES.
Proof.
  unfold ReadmeService.extractUsageExamples.
  rewrite sortExamplesByRelevance_eq.
  rewrite (Permutation_length (sortByScore_perm _ _)).
  destruct (deduplicateExamples_spec (ExampleExtractor.extractUsageExamples x))
    as (_ & Hlen & _).
  rewrite extractUsageExamples_eq in Hlen.
  pose proof (firstn_le_length README_CONFIG.MAX_EXAMPLES
                (ExampleExtractor.extractBlockExamples x
                 ++ ExampleExtractor.extractInlineExamples x)).
  rewrite extractUsageExamples_eq. lia.
Qed.

(** ** Repository addresses *)

Lemma matchAt_seq (a b : regex) (x z y : pos) :
  matchAt a x = Some z -> matchAt b z = Some y -> matchAt (Seq a b) x = Some y.
Proof.
  unfold matchAt. simpl. intros Ha Hb.
  destruct (matches a x) as [|z' zs]; [discriminate|].
  simpl in Ha. injection Ha as ->. simpl. now apply hd_error_app.
Qed.

Lemma matchAt_lit (p : str) (pv : option ascii) (s : str) (cp : option str) :
  startsWith s p = true ->
  matchAt (lit p) (mkPos pv s cp)
  = Some (mkPos (last (map Some p) pv) (skipn (length p) s) cp).
Proof. unfold matchAt. rewrite matches_lit. now intros ->. Qed.

Lemma matchAt_run (p : ascii -> bool) (w t : str) (lo : nat)
      (pv : option ascii) (cp : option str) :
  forallb p w = true -> stopsAt p t -> lo <= length w ->
  matchAt (Rep true lo p) (mkPos pv (w ++ t) cp)
  = Some (mkPos (last (map Some w) pv) t cp).
Proof. intros Hw Ht Hlo. unfold matchAt. simpl. now apply rep_greedy_first. Qed.

Lemma matchAt_grp (a : regex) (x z : pos) :
  matchAt a x = Some z ->
  matchAt (Grp a) x = Some (mkPos (prev z) (rest z) (Some (consumed x z))).
Proof.
  unfold matchAt. simpl. destruct (matches a x) as [|z' zs]; [discriminate|].
  simpl. intro H. now injection H as ->.
Qed.

Lemma matchAt_chr (p : ascii -> bool) (c : ascii) (s : str)
      (pv : option ascii) (cp : option str) :
  p c = true -> matchAt (Chr p) (mkPos pv (c :: s) cp) = Some (mkPos (Some c) s cp).
Proof. unfold matchAt. simpl. now intros ->. Qed.

Lemma exec_at_start (r : regex) (s : str) (y : pos) :
  matchAt r (start None s) = Some y -> exec r s = Some (foundAt (start None s) y).
Proof. unfold exec. destruct s; simpl; now intros ->. Qed.

Lemma execFrom_nowhere (r : regex) (s : str) :
  matchesNowhere r s -> forall pv, execFrom r pv s = None.
Proof.
  induction s as [|c s IH]; intros H pv; simpl; unfold matchAt;
    rewrite (H pv [] _ eq_refl); simpl; [reflexivity|].
  apply IH. eapply matchesNowhere_tail; eassumption.
Qed.

(** Removing an anchored prefix and a suffix. *)
Lemma replaceFirstFrom_anchored (r : regex) (f : found -> str) (s : str) :
  forall c, replaceFirstFrom (Seq (Bol false) r) f (Some c) s = s.
Proof.
  induction s as [|d s IH]; intro c; simpl; [reflexivity|]. now rewrite IH.
Qed.

Lemma matchAt_anchored (r : regex) (s : str) :
  matchAt (Seq (Bol false) r) (start None s) = matchAt r (start None s).
Proof. unfold matchAt. simpl. now rewrite app_nil_r. Qed.

Lemma replaceFirst_anchored (r : regex) (f : found -> str) (s : str) :
  replaceFirst (Seq (Bol false) r) f s
  = match matchAt r (start None s) with
    | Some y => f (foundAt (start None s) y) ++ rest y
    | None => s
    end.
Proof.
  unfold replaceFirst.
  destruct s as [|c s]; cbn [replaceFirstFrom]; rewrite matchAt_anchored;
    destruct (matchAt r _); try reflexivity.
  now rewrite replaceFirstFrom_anchored.
Qed.

Lemma endsWith_app (t p : str) : endsWith (t ++ p) p = true.
Proof. unfold endsWith. rewrite rev_app_distr. apply startsWith_self_app. Qed.

Lemma startsWith_exact (u p : str) :
  startsWith u p = true -> skipn (length p) u = [] -> u = p.
Proof.
  revert u. induction p as [|a p IH]; intros u H Hs.
  - simpl in Hs. exact Hs.
  - destruct u as [|c u]; [discriminate|]. simpl in *.
    apply andb_true_iff in H as [Hc H]. apply Ascii.eqb_eq in Hc. subst c.
    f_equal. now apply IH.
Qed.

Lemma matchAt_suffix (p : str) (pv : option ascii) (u : str) :
  matchAt (Seq (lit p) (Eol false)) (start pv u)
  = if eqStr u p then Some (mkPos (last (map Some p) pv) [] None) else None.
Proof.
  unfold matchAt. simpl. unfold start. rewrite matches_lit.
  destruct (startsWith u p) eqn:E; simpl.
  - unfold atLineEnd. simpl. destruct (skipn (length p) u) as [|d t] eqn:Es; simpl.
    + rewrite (startsWith_exact _ _ E Es), eqStr_refl. reflexivity.
    + destruct (eqStr u p) eqn:Eq; [|reflexivity].
      apply eqStr_eq in Eq. subst u. rewrite skipn_all in Es. discriminate.
  - destruct (eqStr u p) eqn:Eq; [|reflexivity].
    apply eqStr_eq in Eq. subst u.
    rewrite <- (app_nil_r p) in E at 1. now rewrite startsWith_self_app in E.
Qed.

Lemma replaceFirstFrom_suffix_hit (p t : str) :
  p <> [] ->
  forall pv, replaceFirstFrom (Seq (lit p) (Eol false)) (const []) pv (t ++ p) = t.
Proof.
  intro Hp. induction t as [|c t IH]; intro pv.
  - simpl app. destruct p as [|a p]; [contradiction|].
    cbn [replaceFirstFrom]. rewrite matchAt_suffix, eqStr_refl. reflexivity.
  - change ((c :: t) ++ p) with (c :: (t ++ p)). cbn [replaceFirstFrom].
    rewrite matchAt_suffix.
    destruct (eqStr (c :: t ++ p) p) eqn:E.
    + apply eqStr_eq in E. apply (f_equal (@length ascii)) in E.
      simpl in E. rewrite length_app in E. lia.
    + now rewrite IH.
Qed.

Lemma replaceFirstFrom_suffix_miss (p s : str) :
  endsWith s p = false ->
  forall pv, replaceFirstFrom (Seq (lit p) (Eol false)) (const []) pv s = s.
Proof.
  intro H.
  assert (Hsuf : forall a u, s = a ++ u -> eqStr u p = false).
  { intros a u ->. destruct (eqStr u p) eqn:E; [|reflexivity].
    apply eqStr_eq in E. subst u. now rewrite endsWith_app in H. }
  clear H. induction s as [|c s IH]; intro pv.
  - cbn [replaceFirstFrom]. rewrite matchAt_suffix, (Hsuf [] [] eq_refl). reflexivity.
  - cbn [replaceFirstFrom]. rewrite matchAt_suffix, (Hsuf [] _ eq_refl).
    f_equal. apply IH. intros a u ->. apply (Hsuf (c :: a)). reflexivity.
Qed.

Lemma startsWith_split (t p : str) :
  startsWith t p = true -> t = p ++ skipn (length p) t.
Proof.
  revert t. induction p as [|a p IH]; intros t H; [reflexivity|].
  destruct t as [|c t]; [discriminate|]. simpl in *.
  apply andb_true_iff in H as [Hc H]. apply Ascii.eqb_eq in Hc. subst c.
  f_equal. now apply IH.
Qed.

Lemma endsWith_split (s p : str) : endsWith s p = true -> exists t, s = t ++ p.
Proof.
  unfold endsWith. intro H. apply startsWith_split in H.
  exists (rev (skipn (length (rev p)) (rev s))).
  rewrite <- (rev_involutive s) at 1. rewrite H at 1.
  now rewrite rev_app_distr, rev_involutive.
Qed.

Lemma replaceFirst_suffix (p s : str) :
  p <> [] ->
  exists b, s = replaceFirst (Seq (lit p) (Eol false)) (const []) s ++ b
            /\ (b = [] \/ b = p).
Proof.
  intro Hp. unfold replaceFirst. destruct (endsWith s p) eqn:E.
  - apply endsWith_split in E as [t ->]. exists p.
    rewrite replaceFirstFrom_suffix_hit by assumption. auto.
  - exists []. rewrite replaceFirstFrom_suffix_miss by assumption.
    rewrite app_nil_r. auto.
Qed.

Lemma replaceFirst_prefix (r : regex) (s : str) :
  exists a, s = a ++ replaceFirst (Seq (Bol false) r) (const []) s.
Proof.
  rewrite replaceFirst_anchored.
  destruct (matchAt r (start None s)) as [y|] eqn:E; [|now exists []].
  apply matchAt_reaches in E as (w & Hw & _). simpl in Hw.
  exists w. unfold const. exact Hw.
Qed.

(** The number of slashes. *)
Lemma slashes_app (a b : str) :
  length (filter (isChar "/") (a ++ b))
  = length (filter (isChar "/") a) + length (filter (isChar "/") b).
Proof. now rewrite filter_app, length_app. Qed.

Lemma slashes_none (s : str) :
  forallb GitHubApiClient.notSlash s = true -> length (filter (isChar "/") s) = 0.
Proof.
  induction s as [|c s IH]; intro H; [reflexivity|]. simpl in *.
  apply andb_true_iff in H as [Hc H]. unfold GitHubApiClient.notSlash in Hc.
  apply negb_true_iff in Hc. rewrite Hc. now apply IH.
Qed.

Lemma isSegment_parts (s : str) :
  isSegment s = true -> s <> [] /\ forallb GitHubApiClient.notSlash s = true.
Proof.
  unfold isSegment. intro H. apply andb_true_iff in H as [Hn H].
  split; [|assumption]. destruct s; [discriminate|discriminate].
Qed.

(** A pattern that asks for two slashes matches nowhere in a text with
    one. *)
Lemma nowhere_two_slashes (host : str) (r1 r : regex) (s : str) :
  1 <= length (filter (isChar "/") host) ->
  length (filter (isChar "/") s) <= 1 ->
  matchesNowhere (Seq (lit host) (Seq r1 (Seq (Chr (isChar "/")) r))) s.
Proof.
  intros Hhost Hs pv a t E.
  destruct (matches _ (start pv t)) as [|y ys] eqn:Em; [reflexivity|]. exfalso.
  assert (Hin : In y (matches (Seq (lit host) (Seq r1 (Seq (Chr (isChar "/")) r)))
                        (start pv t))) by (rewrite Em; now left).
  change (matches (Seq ?a ?b) ?x) with (flat_map (matches b) (matches a x)) in Hin.
  apply in_flat_map in Hin as (z1 & Hz1 & Hin).
  change (matches (Seq ?a ?b) ?x) with (flat_map (matches b) (matches a x)) in Hin.
  apply in_flat_map in Hin as (z2 & Hz2 & Hin).
  change (matches (Seq ?a ?b) ?x) with (flat_map (matches b) (matches a x)) in Hin.
  apply in_flat_map in Hin as (z3 & Hz3 & _).
  unfold start in Hz1. rewrite matches_lit in Hz1.
  destruct (startsWith t host) eqn:Est; [|contradiction].
  destruct Hz1 as [<-|[]].
  apply matches_reaches in Hz2 as (w1 & Hw1 & _). simpl in Hw1.
  simpl in Hz3. destruct (rest z2) as [|c u] eqn:E2; [contradiction|].
  destruct (isChar "/" c) eqn:Ec; [|contradiction].
  apply startsWith_split in Est.
  assert (Hcount : 2 <= length (filter (isChar "/") t)).
  { rewrite Est, slashes_app, Hw1, slashes_app. simpl. rewrite Ec. simpl. lia. }
  rewrite E, slashes_app in Hs. lia.
Qed.

Lemma consumed_exact (pv pv' : option ascii) (w t : str) (c c' : option str) :
  consumed (mkPos pv (w ++ t) c) (mkPos pv' t c') = w.
Proof. unfold consumed. simpl. apply firstn_app_exact. Qed.

(** The first candidate of a pattern [host owner / repo tail] on such a
    text. *)
Lemma matchAt_segments (host : str) (r1 r2 tail : regex) (owner repo : str)
      (pv pv1 pv2 : option ascii) (c1 c2 : option str) :
  matchAt r1 (mkPos (last (map Some host) pv) (owner ++ L "/" ++ repo) None)
  = Some (mkPos pv1 (L "/" ++ repo) c1) ->
  matchAt r2 (mkPos (Some "/"%char) repo c1) = Some (mkPos pv2 [] c2) ->
  matchAt tail (mkPos pv2 [] c2) = Some (mkPos pv2 [] c2) ->
  matchAt (Seq (lit host) (Seq r1 (Seq (Chr (isChar "/")) (Seq r2 tail))))
          (start pv (host ++ owner ++ L "/" ++ repo))
  = Some (mkPos pv2 [] c2).
Proof.
  intros H1 H2 H3.
  eapply matchAt_seq.
  { unfold start. rewrite matchAt_lit by apply startsWith_self_app.
    now rewrite skipn_self_app. }
  eapply matchAt_seq; [exact H1|].
  eapply matchAt_seq; [apply matchAt_chr; reflexivity|].
  eapply matchAt_seq; [exact H2|exact H3].
Qed.

Lemma stopsAt_slash (repo : str) : stopsAt GitHubApiClient.notSlash (L "/" ++ repo).
Proof. reflexivity. Qed.

Lemma exec2_segments (host : str) (tail : regex) (owner repo : str) :
  isSegment owner = true -> isSegment repo = true ->
  (forall pv c, matchAt tail (mkPos pv [] c) = Some (mkPos pv [] c)) ->
  exec2 (fun g1 g2 =>
           Seq (lit host)
               (Seq (g1 (Rep true 1 GitHubApiClient.notSlash))
                    (Seq (Chr (isChar "/"))
                         (Seq (g2 (Rep true 1 GitHubApiClient.notSlash)) tail))))
        (host ++ owner ++ L "/" ++ repo)
  = Some (owner, repo).
Proof.
  intros Ho Hr Htail.
  apply isSegment_parts in Ho as [Ho1 Ho2]. apply isSegment_parts in Hr as [Hr1 Hr2].
  assert (Hlo : 1 <= length owner) by (destruct owner; [contradiction|simpl; lia]).
  assert (Hlr : 1 <= length repo) by (destruct repo; [contradiction|simpl; lia]).
  assert (Hrun1 : forall pv c,
            matchAt (Rep true 1 GitHubApiClient.notSlash)
                    (mkPos pv (owner ++ L "/" ++ repo) c)
            = Some (mkPos (last (map Some owner) pv) (L "/" ++ repo) c)).
  { intros pv c. apply matchAt_run; [assumption|apply stopsAt_slash|assumption]. }
  assert (Hrun2 : forall pv c,
            matchAt (Rep true 1 GitHubApiClient.notSlash) (mkPos pv repo c)
            = Some (mkPos (last (map Some repo) pv) [] c)).
  { intros pv c. rewrite <- (app_nil_r repo) at 1.
    apply matchAt_run; [assumption|exact I|assumption]. }
  unfold exec2.
  rewrite (@exec_at_start _ _ (mkPos (last (map Some repo) (Some "/"%char)) []
                                   (Some owner))).
  2:{ apply matchAt_segments with (pv1 := last (map Some owner) (last (map Some host) None))
                                   (c1 := Some owner).
      - rewrite (matchAt_grp _ _ (Hrun1 _ _)). cbn [prev rest].
        now rewrite consumed_exact.
      - unfold plain. apply Hrun2.
      - apply Htail. }
  rewrite (@exec_at_start _ _ (mkPos (last (map Some repo) (Some "/"%char)) []
                                   (Some repo))).
  2:{ apply matchAt_segments with (pv1 := last (map Some owner) (last (map Some host) None))
                                   (c1 := None).
      - unfold plain. apply Hrun1.
      - rewrite (matchAt_grp _ _ (Hrun2 _ _)). cbn [prev rest].
        rewrite <- (app_nil_r repo) at 2. now rewrite consumed_exact.
      - apply Htail. }
  reflexivity.
Qed.

Lemma exec2_reHttps (owner repo : str) :
  isSegment owner = true -> isSegment repo = true ->
  exec2 GitHubApiClient.reHttps (L "github.com/" ++ owner ++ L "/" ++ repo)
  = Some (owner, repo).
Proof.
  intros Ho Hr.
  exact (@exec2_segments (L "github.com/")
           (Seq (GitHubApiClient.opt (lit (L ".git")))
                (Seq (GitHubApiClient.opt (Seq (Chr (isChar "/")) (Rep true 0 isDot)))
                     (Eol false)))
           owner repo Ho Hr (fun pv c => eq_refl)).
Qed.

Lemma exec2_reSsh (owner repo : str) :
  isSegment owner = true -> isSegment repo = true ->
  exec2 GitHubApiClient.reSsh (L "git@github.com:" ++ owner ++ L "/" ++ repo)
  = Some (owner, repo).
Proof.
  intros Ho Hr.
  exact (@exec2_segments (L "git@github.com:")
           (Seq (GitHubApiClient.opt (lit (L ".git"))) (Eol false))
           owner repo Ho Hr (fun pv c => eq_refl)).
Qed.

Lemma exec2_reHttps_ssh (owner repo : str) :
  isSegment owner = true -> isSegment repo = true ->
  exec2 GitHubApiClient.reHttps (L "git@github.com:" ++ owner ++ L "/" ++ repo) = None.
Proof.
  intros Ho Hr.
  apply isSegment_parts in Ho as [_ Ho]. apply isSegment_parts in Hr as [_ Hr].
  unfold exec2, exec. rewrite execFrom_nowhere; [reflexivity|].
  unfold GitHubApiClient.reHttps. cbn [cat].
  apply nowhere_two_slashes; [simpl; lia|].
  rewrite !slashes_app, (slashes_none _ Ho), (slashes_none _ Hr). simpl. lia.
Qed.

(** The steps that clean the address. *)
Lemma protocol_strip (u : str) :
  replaceFirst GitHubApiClient.reProtocol (const []) (L "https://" ++ u) = u
  /\ replaceFirst GitHubApiClient.reProtocol (const []) (L "http://" ++ u) = u.
Proof.
  unfold GitHubApiClient.reProtocol. cbn [cat].
  rewrite !replaceFirst_anchored. split; reflexivity.
Qed.

Lemma protocol_keep (u : str) :
  replaceFirst GitHubApiClient.reProtocol (const []) (L "g" ++ u) = L "g" ++ u.
Proof.
  unfold GitHubApiClient.reProtocol. cbn [cat].
  rewrite replaceFirst_anchored. reflexivity.
Qed.

Lemma gitProtocol_strip (u : str) :
  replaceFirst GitHubApiClient.reGitProtocol (const []) (L "git+https://" ++ u) = u.
Proof.
  unfold GitHubApiClient.reGitProtocol. cbn [cat].
  rewrite replaceFirst_anchored. reflexivity.
Qed.

Lemma gitProtocol_keep (u : str) :
  replaceFirst GitHubApiClient.reGitProtocol (const []) (L "gith" ++ u) = L "gith" ++ u
  /\ replaceFirst GitHubApiClient.reGitProtocol (const []) (L "git@" ++ u) = L "git@" ++ u.
Proof.
  unfold GitHubApiClient.reGitProtocol. cbn [cat].
  rewrite !replaceFirst_anchored. split; reflexivity.
Qed.

Lemma startsWith_slash_stop (q pr z : str) :
  startsWith q pr = false ->
  forallb GitHubApiClient.notSlash pr = true ->
  startsWith (q ++ L "/" ++ z) pr = false.
Proof.
  revert pr. induction q as [|c q IH]; intros [|a pr] H Hp; try discriminate.
  - cbn [forallb] in Hp. apply andb_true_iff in Hp as [Ha _].
    unfold GitHubApiClient.notSlash, isChar in Ha. apply negb_true_iff in Ha.
    rewrite Ascii.eqb_sym in Ha.
    change (Ascii.eqb "/" a && startsWith z pr = false). now rewrite Ha.
  - cbn [forallb] in Hp. apply andb_true_iff in Hp as [_ Hp].
    change (Ascii.eqb c a && startsWith q pr = false) in H.
    change (Ascii.eqb c a && startsWith (q ++ L "/" ++ z) pr = false).
    destruct (Ascii.eqb c a); [|reflexivity]. cbn [andb] in *. now apply IH.
Qed.

Lemma endsWith_after_slash (y repo p : str) :
  endsWith repo p = false ->
  forallb GitHubApiClient.notSlash p = true ->
  endsWith (y ++ L "/" ++ repo) p = false.
Proof.
  unfold endsWith. intros H Hp.
  rewrite !rev_app_distr, <- app_assoc.
  apply startsWith_slash_stop; [assumption|].
  apply forallb_forall. intros c Hc. apply in_rev in Hc.
  rewrite forallb_forall in Hp. now apply Hp.
Qed.

Lemma endsWith_segment (y repo : str) :
  isSegment repo = true -> endsWith (y ++ repo) (L "/") = false.
Proof.
  intro H. apply isSegment_parts in H as [Hn Hs].
  unfold endsWith. rewrite rev_app_distr.
  destruct (rev repo) as [|c q] eqn:E.
  - apply (f_equal (@rev ascii)) in E. rewrite rev_involutive in E. now subst repo.
  - assert (Hc : GitHubApiClient.notSlash c = true).
    { rewrite forallb_forall in Hs. apply Hs. apply in_rev. rewrite E. now left. }
    unfold GitHubApiClient.notSlash, isChar in Hc. apply negb_true_iff in Hc.
    simpl. now rewrite Hc.
Qed.

Lemma suffix_steps_plain (y owner repo : str) :
  isSegment repo = true -> endsWith repo (L ".git") = false ->
  replaceFirst GitHubApiClient.reTrailingSlash (const [])
    (replaceFirst GitHubApiClient.reGitSuffix (const [])
       (y ++ owner ++ L "/" ++ repo))
  = y ++ owner ++ L "/" ++ repo.
Proof.
  intros Hr He. unfold replaceFirst.
  unfold GitHubApiClient.reGitSuffix, GitHubApiClient.reTrailingSlash. cbn [cat].
  rewrite replaceFirstFrom_suffix_miss.
  - change (Chr (isChar "/")) with (lit (L "/")).
    apply replaceFirstFrom_suffix_miss.
    rewrite !app_assoc. now apply endsWith_segment.
  - rewrite app_assoc. now apply endsWith_after_slash.
Qed.

Lemma suffix_steps_git (y owner repo : str) :
  isSegment repo = true ->
  replaceFirst GitHubApiClient.reTrailingSlash (const [])
    (replaceFirst GitHubApiClient.reGitSuffix (const [])
       (y ++ owner ++ L "/" ++ repo ++ L ".git"))
  = y ++ owner ++ L "/" ++ repo.
Proof.
  intros Hr. unfold replaceFirst.
  unfold GitHubApiClient.reGitSuffix, GitHubApiClient.reTrailingSlash. cbn [cat].
  replace (y ++ owner ++ L "/" ++ repo ++ L ".git")
    with ((y ++ owner ++ L "/" ++ repo) ++ L ".git")
    by (now rewrite <- !app_assoc).
  rewrite replaceFirstFrom_suffix_hit by discriminate.
  change (Chr (isChar "/")) with (lit (L "/")).
  apply replaceFirstFrom_suffix_miss.
  rewrite !app_assoc. now apply endsWith_segment.
Qed.

Lemma suffix_steps_slash (y owner repo : str) :
  replaceFirst GitHubApiClient.reTrailingSlash (const [])
    (replaceFirst GitHubApiClient.reGitSuffix (const [])
       (y ++ owner ++ L "/" ++ repo ++ L "/"))
  = y ++ owner ++ L "/" ++ repo.
Proof.
  unfold replaceFirst.
  unfold GitHubApiClient.reGitSuffix, GitHubApiClient.reTrailingSlash. cbn [cat].
  replace (y ++ owner ++ L "/" ++ repo ++ L "/")
    with ((y ++ owner ++ L "/" ++ repo) ++ L "/")
    by (now rewrite <- !app_assoc).
  rewrite replaceFirstFrom_suffix_miss.
  - change (Chr (isChar "/")) with (lit (L "/")).
    now rewrite replaceFirstFrom_suffix_hit by discriminate.
  - unfold endsWith. now rewrite rev_app_distr.
Qed.

Lemma firstPattern_https (owner repo : str) :
  isSegment owner = true -> isSegment repo = true ->
  GitHubApiClient.firstPattern
    [GitHubApiClient.reHttps; GitHubApiClient.reSsh; GitHubApiClient.reBare]
    (L "github.com/" ++ owner ++ L "/" ++ repo)
  = Some (GitHubApiClient.mkRepoInfo owner repo).
Proof.
  intros Ho Hr. cbn [GitHubApiClient.firstPattern].
  now rewrite exec2_reHttps.
Qed.

Lemma firstPattern_ssh (owner repo : str) :
  isSegment owner = true -> isSegment repo = true ->
  GitHubApiClient.firstPattern
    [GitHubApiClient.reHttps; GitHubApiClient.reSsh; GitHubApiClient.reBare]
    (L "git@github.com:" ++ owner ++ L "/" ++ repo)
  = Some (GitHubApiClient.mkRepoInfo owner repo).
Proof.
  intros Ho Hr. cbn [GitHubApiClient.firstPattern].
  rewrite exec2_reHttps_ssh by assumption. now rewrite exec2_reSsh.
Qed.

Lemma extractRepoInfo_steps (repoUrl : str) :
  GitHubApiClient.extractRepoInfo repoUrl
  = GitHubApiClient.firstPattern
      [GitHubApiClient.reHttps; GitHubApiClient.reSsh; GitHubApiClient.reBare]
      (replaceFirst GitHubApiClient.reTrailingSlash (const [])
         (replaceFirst GitHubApiClient.reGitSuffix (const [])
            (replaceFirst GitHubApiClient.reGitProtocol (const [])
               (replaceFirst GitHubApiClient.reProtocol (const []) repoUrl)))).
Proof. reflexivity. Qed.

Lemma extractRepoInfo_urls (owner repo : str) :
  isSegment owner = true -> isSegment repo = true ->
  endsWith repo (L ".git") = false ->
  Forall (fun url => GitHubApiClient.extractRepoInfo url
                     = Some (GitHubApiClient.mkRepoInfo owner repo))
         (repoUrls owner repo).
Proof.
  intros Ho Hr He. unfold repoUrls.
  pose proof (fun u => proj1 (protocol_strip u)) as Hs1.
  pose proof (fun u => proj2 (protocol_strip u)) as Hs2.
  pose proof (fun u => proj1 (gitProtocol_keep u)) as Hk1.
  pose proof (fun u => proj2 (gitProtocol_keep u)) as Hk2.
  repeat constructor; rewrite extractRepoInfo_steps.
  - change (L "https://github.com/" ++ owner ++ L "/" ++ repo)
      with (L "https://" ++ L "gith" ++ L "ub.com/" ++ owner ++ L "/" ++ repo).
    rewrite Hs1, Hk1.
    change (L "gith" ++ L "ub.com/" ++ owner ++ L "/" ++ repo)
      with (L "github.com/" ++ owner ++ L "/" ++ repo).
    rewrite suffix_steps_plain by assumption. now apply firstPattern_https.
  - change (L "http://github.com/" ++ owner ++ L "/" ++ repo)
      with (L "http://" ++ L "gith" ++ L "ub.com/" ++ owner ++ L "/" ++ repo).
    rewrite Hs2, Hk1.
    change (L "gith" ++ L "ub.com/" ++ owner ++ L "/" ++ repo)
      with (L "github.com/" ++ owner ++ L "/" ++ repo).
    rewrite suffix_steps_plain by assumption. now apply firstPattern_https.
  - change (L "github.com/" ++ owner ++ L "/" ++ repo)
      with (L "g" ++ L "ithub.com/" ++ owner ++ L "/" ++ repo) at 1.
    rewrite protocol_keep.
    change (L "g" ++ L "ithub.com/" ++ owner ++ L "/" ++ repo)
      with (L "gith" ++ L "ub.com/" ++ owner ++ L "/" ++ repo).
    rewrite Hk1.
    change (L "gith" ++ L "ub.com/" ++ owner ++ L "/" ++ repo)
      with (L "github.com/" ++ owner ++ L "/" ++ repo).
    rewrite suffix_steps_plain by assumption. now apply firstPattern_https.
  - change (L "https://github.com/" ++ owner ++ L "/" ++ repo ++ L ".git")
      with (L "https://" ++ L "gith" ++ L "ub.com/" ++ owner ++ L "/" ++ repo ++ L ".git").
    rewrite Hs1, Hk1.
    change (L "gith" ++ L "ub.com/" ++ owner ++ L "/" ++ repo ++ L ".git")
      with (L "github.com/" ++ owner ++ L "/" ++ repo ++ L ".git").
    rewrite suffix_steps_git by assumption. now apply firstPattern_https.
  - change (L "https://github.com/" ++ owner ++ L "/" ++ repo ++ L "/")
      with (L "https://" ++ L "gith" ++ L "ub.com/" ++ owner ++ L "/" ++ repo ++ L "/").
    rewrite Hs1, Hk1.
    change (L "gith" ++ L "ub.com/" ++ owner ++ L "/" ++ repo ++ L "/")
      with (L "github.com/" ++ owner ++ L "/" ++ repo ++ L "/").
    rewrite suffix_steps_slash. now apply firstPattern_https.
  - change (L "git+https://github.com/" ++ owner ++ L "/" ++ repo ++ L ".git")
      with (L "g" ++ L "it+https://github.com/" ++ owner ++ L "/" ++ repo ++ L ".git").
    rewrite protocol_keep.
    change (L "g" ++ L "it+https://github.com/" ++ owner ++ L "/" ++ repo ++ L ".git")
      with (L "git+https://" ++ L "github.com/" ++ owner ++ L "/" ++ repo ++ L ".git").
    rewrite gitProtocol_strip.
    rewrite suffix_steps_git by assumption. now apply firstPattern_https.
  - change (L "git@github.com:" ++ owner ++ L "/" ++ repo)
      with (L "g" ++ L "it@github.com:" ++ owner ++ L "/" ++ repo) at 1.
    rewrite protocol_keep.
    change (L "g" ++ L "it@github.com:" ++ owner ++ L "/" ++ repo)
      with (L "git@" ++ L "github.com:" ++ owner ++ L "/" ++ repo).
    rewrite Hk2.
    change (L "git@" ++ L "github.com:" ++ owner ++ L "/" ++ repo)
      with (L "git@github.com:" ++ owner ++ L "/" ++ repo).
    rewrite suffix_steps_plain by assumption. now apply firstPattern_ssh.
  - change (L "git@github.com:" ++ owner ++ L "/" ++ repo ++ L ".git")
      with (L "g" ++ L "it@github.com:" ++ owner ++ L "/" ++ repo ++ L ".git").
    rewrite protocol_keep.
    change (L "g" ++ L "it@github.com:" ++ owner ++ L "/" ++ repo ++ L ".git")
      with (L "git@" ++ L "github.com:" ++ owner ++ L "/" ++ repo ++ L ".git").
    rewrite Hk2.
    change (L "git@" ++ L "github.com:" ++ owner ++ L "/" ++ repo ++ L ".git")
      with (L "git@github.com:" ++ owner ++ L "/" ++ repo ++ L ".git").
    rewrite suffix_steps_git by assumption. now apply firstPattern_ssh.
Qed.

(** Recording a group changes no candidate. *)
Lemma rep_place (g : bool) (p : ascii -> bool) (s : str) :
  forall lo pv cp cp',
    map place (rep g p lo pv s cp) = map place (rep g p lo pv s cp').
Proof.
  induction s as [|c s IH]; intros lo pv cp cp'; simpl.
  - destruct g, lo; reflexivity.
  - destruct g; rewrite !map_app; f_equal;
      try (destruct lo; reflexivity);
      try (destruct (p c); [apply IH|reflexivity]).
Qed.

Lemma matches_erase (r : regex) :
  forall x x', place x = place x' ->
    map place (matches r x) = map place (matches (erase r) x').
Proof.
  induction r as [|p|a IHa b IHb|a IHa b IHb|g lo p|m|m|a IHa];
    simpl; intros x x' E.
  - now rewrite E.
  - destruct x as [pv s cp], x' as [pv' s' cp']. unfold place in E. simpl in E.
    injection E as <- <-. simpl. destruct s as [|c s]; [reflexivity|].
    destruct (p c); reflexivity.
  - specialize (IHa x x' E).
    revert IHa. generalize (matches a x) (matches (erase a) x').
    induction l as [|y l IHl]; intros [|y' l'] El; try discriminate.
    + reflexivity.
    + apply map_cons_inv in El as [Ey El]. simpl. rewrite !map_app. f_equal.
      * now apply IHb.
      * now apply IHl.
  - rewrite !map_app. f_equal; [now apply IHa|now apply IHb].
  - destruct x as [pv s cp], x' as [pv' s' cp']. unfold place in E. simpl in E.
    injection E as <- <-. simpl. apply rep_place.
  - destruct x as [pv s cp], x' as [pv' s' cp']. unfold place in E. simpl in E.
    injection E as <- <-. unfold atLineStart. simpl.
    destruct pv as [c|]; [destruct (m && isLineTerminator c)|]; reflexivity.
  - destruct x as [pv s cp], x' as [pv' s' cp']. unfold place in E. simpl in E.
    injection E as <- <-. unfold atLineEnd. simpl.
    destruct s as [|c t]; [|destruct (m && isLineTerminator c)]; reflexivity.
  - rewrite map_map. rewrite <- (IHa x x' E). apply map_ext. reflexivity.
Qed.

Lemma matchAt_erase (r : regex) (x : pos) :
  option_map place (matchAt r x) = option_map place (matchAt (erase r) x).
Proof.
  unfold matchAt. pose proof (@matches_erase r x x eq_refl) as H.
  destruct (matches r x) as [|y l], (matches (erase r) x) as [|y' l'];
    try discriminate; [reflexivity|].
  apply map_cons_inv in H as [H _]. simpl. now rewrite H.
Qed.

Lemma exec_erase (r : regex) (s : str) :
  option_map text (exec r s) = option_map text (exec (erase r) s).
Proof.
  unfold exec. generalize (@None ascii).
  assert (Hhit : forall pv u y y',
            option_map place (Some y) = option_map place (Some y') ->
            text (foundAt (start pv u) y) = text (foundAt (start pv u) y')).
  { intros pv u y y' H. simpl in H. unfold place in H. injection H as _ H.
    unfold foundAt, consumed. simpl. now rewrite H. }
  induction s as [|c s IH]; intro pv; simpl.
  - pose proof (matchAt_erase r (start pv [])) as H0.
    destruct (matchAt r (start pv [])) as [y|],
             (matchAt (erase r) (start pv [])) as [y'|]; try discriminate;
      reflexivity.
  - pose proof (matchAt_erase r (start pv (c :: s))) as H1.
    destruct (matchAt r (start pv (c :: s))) as [y|],
             (matchAt (erase r) (start pv (c :: s))) as [y'|]; try discriminate;
      try apply IH.
    simpl. f_equal. now apply Hhit.
Qed.

Lemma exec2_same_match (re : (regex -> regex) -> (regex -> regex) -> regex) (s : str) :
  erase (re Grp plain) = erase (re plain Grp) ->
  option_map text (exec (re Grp plain) s) = option_map text (exec (re plain Grp) s).
Proof. intro H. now rewrite exec_erase, H, <- exec_erase. Qed.

(** ** Addresses of other hosts *)

Lemma nowhere_host (host : str) (r : regex) (s : str) :
  includes host (L "github.com") = true ->
  includes s (L "github.com") = false ->
  matchesNowhere (Seq (lit host) r) s.
Proof.
  intros Hh Hs pv a t E.
  destruct (matches _ (start pv t)) as [|y ys] eqn:Em; [reflexivity|]. exfalso.
  assert (Hin : In y (matches (Seq (lit host) r) (start pv t)))
    by (rewrite Em; now left).
  change (matches (Seq ?a ?b) ?x) with (flat_map (matches b) (matches a x)) in Hin.
  apply in_flat_map in Hin as (z1 & Hz1 & _).
  unfold start in Hz1. rewrite matches_lit in Hz1.
  destruct (startsWith t host) eqn:Est; [|contradiction].
  apply startsWith_split in Est.
  assert (Hinc : includes s (L "github.com") = true).
  { rewrite E. apply includes_app_r. rewrite Est. now apply includes_app_l. }
  congruence.
Qed.

Lemma exec2_foreign (re : (regex -> regex) -> (regex -> regex) -> regex) (s : str) :
  matchesNowhere (re Grp plain) s -> exec2 re s = None.
Proof.
  intro H. unfold exec2, exec. now rewrite execFrom_nowhere.
Qed.

Lemma extractRepoInfo_foreign (repoUrl : str) :
  includes repoUrl (L "github.com") = false ->
  GitHubApiClient.extractRepoInfo repoUrl = None.
Proof.
  intro H. rewrite extractRepoInfo_steps.
  set (u1 := replaceFirst GitHubApiClient.reProtocol (const []) repoUrl).
  set (u2 := replaceFirst GitHubApiClient.reGitProtocol (const []) u1).
  set (u3 := replaceFirst GitHubApiClient.reGitSuffix (const []) u2).
  set (u4 := replaceFirst GitHubApiClient.reTrailingSlash (const []) u3).
  assert (H1 : includes u1 (L "github.com") = false).
  { destruct (replaceFirst_prefix
                (cat [lit (L "http"); GitHubApiClient.opt (Chr (isChar "s"));
                      lit (L "://")]) repoUrl) as [a Ea].
    change (replaceFirst _ (const []) repoUrl) with u1 in Ea.
    clearbody u1. rewrite Ea, <- (app_nil_r u1) in H.
    now apply includes_segment in H. }
  assert (H2 : includes u2 (L "github.com") = false).
  { destruct (replaceFirst_prefix
                (cat [lit (L "git+http"); GitHubApiClient.opt (Chr (isChar "s"));
                      lit (L "://")]) u1) as [a Ea].
    change (replaceFirst _ (const []) u1) with u2 in Ea.
    clearbody u2. rewrite Ea, <- (app_nil_r u2) in H1.
    now apply includes_segment in H1. }
  assert (H3 : includes u3 (L "github.com") = false).
  { destruct (@replaceFirst_suffix (L ".git") u2) as (b & Eb & _); [discriminate|].
    change (replaceFirst _ (const []) u2) with u3 in Eb.
    clearbody u3. rewrite Eb in H2.
    now apply (includes_segment []) in H2. }
  assert (H4 : includes u4 (L "github.com") = false).
  { destruct (@replaceFirst_suffix (L "/") u3) as (b & Eb & _); [discriminate|].
    change (replaceFirst _ (const []) u3) with u4 in Eb.
    clearbody u4. rewrite Eb in H3.
    now apply (includes_segment []) in H3. }
  cbn [GitHubApiClient.firstPattern].
  rewrite (@exec2_foreign GitHubApiClient.reHttps u4).
  2:{ unfold GitHubApiClient.reHttps. cbn [cat]. apply nowhere_host; [reflexivity|assumption]. }
  rewrite (@exec2_foreign GitHubApiClient.reSsh u4).
  2:{ unfold GitHubApiClient.reSsh. cbn [cat]. apply nowhere_host; [reflexivity|assumption]. }
  rewrite (@exec2_foreign GitHubApiClient.reBare u4).
  2:{ unfold GitHubApiClient.reBare. cbn [cat]. apply nowhere_host; [reflexivity|assumption]. }
  reflexivity.
Qed.

(** The two runs of each pattern of [extractRepoInfo] find the same
    match. *)
Lemma exec2_runs_agree (s : str) :
  Forall (fun re => option_map text (exec (re Grp plain) s)
                    = option_map text (exec (re plain Grp) s))
         [GitHubApiClient.reHttps; GitHubApiClient.reSsh; GitHubApiClient.reBare].
Proof. repeat constructor; now apply exec2_same_match. Qed.

(** * Results on the further code *)

(** ** The cleaner *)

(** X1: the text returned by [cleanReadmeContent] never starts or ends with
    whitespace, so trimming it again changes nothing. *)
Theorem X1_clean_trimmed (content : str) :
  let cleaned := ReadmeService.cleanReadmeContent content in
  trim cleaned = cleaned
  /\ stopsAt isSpace cleaned
  /\ stopsAt isSpace (rev cleaned).
Proof.
  intro cleaned. unfold cleaned, ReadmeService.cleanReadmeContent.
  destruct content as [|c s]; [repeat split; exact I|].
  unfold ReadmeContentCleaner.cleanReadmeContent,
    ReadmeContentCleaner.cleanReadmeContentOf, ReadmeContentCleaner.cleanSteps.
  simpl guarded. split; [apply trim_idem|apply trim_stops].
Qed.

(** X2: a text that holds nothing but whitespace is cleaned to the empty
    string. *)
Theorem X2_clean_blank (content : str) :
  forallb isSpace content = true ->
  ReadmeService.cleanReadmeContent content = [].
Proof. apply blank_clean. Qed.

Lemma X2_clean_blank_witness :
  forallb isSpace blankSample = true
  /\ ReadmeService.cleanReadmeContent blankSample = [].
Proof.
  split; [reflexivity|]. apply (X2_clean_blank blankSample). reflexivity.
Defined.

(** X3: cleaning never makes the text longer. *)
Theorem X3_clean_never_longer (content : str) :
  length (ReadmeService.cleanReadmeContent content) <= length content.
Proof. apply clean_length. Qed.

(** ** The examples of the pipeline *)

(** X4: every example the pipeline returns has a title that is not empty,
    a code without leading or trailing whitespace, and no description; the
    bonus for a description is never earned, so its score is at most
    180. *)
Theorem X4_examples_shape (readmeContent : str) :
  Forall (fun e => title e <> []
                   /\ trim (code e) = code e
                   /\ description e = None
                   /\ (ExampleProcessor.calculateRelevanceScore e <= 180)%Z)
         (ReadmeService.extractUsageExamples readmeContent).
Proof.
  assert (Hscore : forall e, description e = None ->
                     (ExampleProcessor.calculateRelevanceScore e <= 180)%Z).
  { intros e He. destruct (score_bounds e) as [H _]. rewrite He in H.
    simpl in H. lia. }
  apply service_examples.
  - intros c language section _. cbn [title code description]. repeat split.
    + apply orElse_nonempty. discriminate.
    + apply trim_idem.
    + now apply Hscore.
  - intros g _. cbn [title code description]. repeat split.
    + discriminate.
    + apply trim_idem.
    + now apply Hscore.
Qed.

(** X5: no example is plain output: its code holds one of the words
    [import], [from], [def], [class], [if], [for], [while], [try], [with]
    or the sign [=], or it begins with a call [name.name(]. *)
Theorem X5_examples_show_usage (readmeContent : str) :
  Forall (fun e => ExampleExtractor.isOutputOnly (code e) = false
                   \/ test ExampleExtractor.reCallAtStart (code e) = true)
         (ReadmeService.extractUsageExamples readmeContent).
Proof.
  apply service_examples.
  - intros c language section H. cbn [code]. left.
    now apply likely_not_output in H as [H _].
  - intros g H. cbn [code]. now apply simple_evidence.
Qed.

(** X6: a text without a backtick yields no example, neither from the
    extractor nor from the service. *)
Theorem X6_no_backtick_no_example (readmeContent : str) :
  noBacktick readmeContent = true ->
  ExampleExtractor.extractUsageExamples readmeContent = []
  /\ ReadmeService.extractUsageExamples readmeContent = [].
Proof.
  intro H. pose proof (noBacktick_extractor _ H) as E. split; [exact E|].
  unfold ReadmeService.extractUsageExamples. now rewrite E.
Qed.

Lemma X6_no_backtick_no_example_witness :
  noBacktick proseSample = true
  /\ ReadmeService.extractUsageExamples proseSample = [].
Proof.
  split; [reflexivity|].
  apply (X6_no_backtick_no_example proseSample). reflexivity.
Defined.

(** ** Deduplication, ranking and the key *)

(** X7: [deduplicateExamples] returns a list without duplicate keys as it
    is, and is idempotent. *)
Theorem X7_dedup_fixed_point (examples : list UsageExample) :
  (NoDup (map key examples) ->
   ExampleProcessor.deduplicateExamples examples = examples)
  /\ ExampleProcessor.deduplicateExamples
       (ExampleProcessor.deduplicateExamples examples)
     = ExampleProcessor.deduplicateExamples examples.
Proof.
  split; [apply dedup_fixed|].
  apply dedup_fixed. apply deduplicateExamples_spec.
Qed.

Lemma X7_dedup_fixed_point_witness :
  NoDup (map key rankedSample)
  /\ ExampleProcessor.deduplicateExamples rankedSample = rankedSample.
Proof.
  assert (H : NoDup (map key rankedSample)).
  { repeat constructor; simpl; intuition discriminate. }
  split; [exact H|]. apply (proj1 (X7_dedup_fixed_point rankedSample)). exact H.
Defined.

(** X8: [sortExamplesByRelevance] returns a list that is already in
    descending order of score as it is, and is idempotent. *)
Theorem X8_sort_fixed_point (examples : list UsageExample) :
  let score := ExampleProcessor.calculateRelevanceScore in
  (StronglySorted (fun a b => (score b <= score a)%Z) examples ->
   ExampleProcessor.sortExamplesByRelevance examples = examples)
  /\ ExampleProcessor.sortExamplesByRelevance
       (ExampleProcessor.sortExamplesByRelevance examples)
     = ExampleProcessor.sortExamplesByRelevance examples.
Proof.
  intro score. rewrite !sortExamplesByRelevance_eq. split.
  - apply sortByScore_fixed.
  - apply sortByScore_fixed. apply sortByScore_sorted.
Qed.

Lemma X8_sort_fixed_point_witness :
  StronglySorted (fun a b => (ExampleProcessor.calculateRelevanceScore b
                              <= ExampleProcessor.calculateRelevanceScore a)%Z)
                 rankedSample
  /\ ExampleProcessor.sortExamplesByRelevance rankedSample = rankedSample.
Proof.
  assert (H : StronglySorted
                (fun a b => (ExampleProcessor.calculateRelevanceScore b
                             <= ExampleProcessor.calculateRelevanceScore a)%Z)
                rankedSample).
  { repeat constructor. vm_compute. discriminate. }
  split; [exact H|]. apply (proj1 (X8_sort_fixed_point rankedSample)). exact H.
Defined.

(** X9: the relevance score is at most 195, and an example reaches 195; it
    is at least minus the hundredth part of the length of the code, and at
    least 0 for a code of at most 299 characters. *)
Theorem X9_score_bounds :
  let score := ExampleProcessor.calculateRelevanceScore in
  (forall e, (score e <= maxScore)%Z)
  /\ score bestExample = maxScore
  /\ (forall e, (0 <= score e + Z.of_nat (length (code e)) / 100)%Z)
  /\ (forall e, length (code e) <= 299 -> (0 <= score e)%Z).
Proof.
  intro score. split; [|split; [reflexivity|split]].
  - intro e. destruct (score_bounds e) as [H _].
    pose proof (@bonus_bounds (ExampleProcessor.truthy (description e)) 15).
    unfold maxScore, score. lia.
  - intro e. apply score_bounds.
  - intros e He. apply score_bounds. lia.
Qed.

Lemma X9_score_bounds_witness :
  (0 <= ExampleProcessor.calculateRelevanceScore bestExample)%Z.
Proof.
  apply (proj2 (proj2 (proj2 X9_score_bounds)) bestExample).
  apply Nat.leb_le. reflexivity.
Defined.

(** X10: the key of an example is a normal form: computing the key of a key
    changes nothing, and the key ignores the case of the letters, the style
    of the quotes and the amount of whitespace. *)
Theorem X10_key_normal_form (c : str) :
  let normalizeCode := ExampleProcessor.normalizeCode in
  normalizeCode (normalizeCode c) = normalizeCode c
  /\ normalizeCode (toLowerCase c) = normalizeCode c
  /\ normalizeCode (unifyQuotes c) = normalizeCode c
  /\ normalizeCode (squeezeSpaces c) = normalizeCode c.
Proof.
  intro normalizeCode. unfold normalizeCode. rewrite !normalizeCode_spec.
  repeat split.
  - apply specKey_idem.
  - apply specKey_lower.
  - apply specKey_unify.
  - apply specKey_squeeze.
Qed.

(** ** The older parser *)

(** X11: the older parser returns its deduplicated examples ordered by
    descending relevance score and, for equal scores, by the distance of
    the length of the code from 200; examples equal in both keep their
    order of extraction. *)
Theorem X11_parser_ranking (readmeContent : str) :
  let unique :=
    ReadmeParser.deduplicateExamples
      (parserBlockExamples readmeContent
       ++ ReadmeParser.extractInlineExamples readmeContent) in
  let sorted := ReadmeParser.extractUsageExamples readmeContent in
  StronglySorted parserBefore sorted
  /\ (forall k, filter (rankIs k) sorted = filter (rankIs k) unique)
  /\ Permutation sorted unique.
Proof.
  intros unique sorted. unfold sorted. rewrite parser_pipeline. fold unique.
  split; [apply parser_sort_ordered|].
  split; [intro k; apply parser_sort_stable|].
  unfold ReadmeParser.sortExamplesByRelevance. apply sort_permutation.
Qed.

(** X12: no two examples the older parser returns have the same title and
    the same code: their keys [title:code] are distinct, and the key of
    every extracted example is the key of a returned one. *)
Theorem X12_parser_no_duplicates (readmeContent : str) :
  let extracted :=
    parserBlockExamples readmeContent
    ++ ReadmeParser.extractInlineExamples readmeContent in
  let returned := ReadmeParser.extractUsageExamples readmeContent in
  NoDup (map parserKey returned)
  /\ Forall (fun e => In e extracted) returned
  /\ Forall (fun e => In (parserKey e) (map parserKey returned)) extracted.
Proof.
  intros extracted returned. unfold returned. rewrite parser_pipeline.
  fold extracted.
  destruct (parser_dedup_spec extracted) as (Hnd & Hin & Hall).
  assert (Hp : Permutation
                 (ReadmeParser.sortExamplesByRelevance
                    (ReadmeParser.deduplicateExamples extracted))
                 (ReadmeParser.deduplicateExamples extracted))
    by apply sort_permutation.
  split; [|split].
  - eapply Permutation_NoDup; [apply Permutation_sym, Permutation_map, Hp|exact Hnd].
  - eapply Permutation_Forall; [apply Permutation_sym, Hp|exact Hin].
  - eapply Forall_impl; [|exact Hall]. intros e He.
    eapply Permutation_in; [apply Permutation_sym, Permutation_map, Hp|exact He].
Qed.

(** X13: in the older parser the code of an example built from a fenced
    block has 10 to 5000 characters, the code of an import example has at
    least 8, the code of an inline example has more than 10 and less than
    200; every returned example is of one of these kinds. *)
Theorem X13_parser_code_length (readmeContent : str) :
  Forall (fun e => 10 <= length (code e) <= 5000)
         (parserBlockExamples readmeContent)
  /\ Forall (fun e => (title e = L "Basic Import" /\ 8 <= length (code e))
                      \/ (title e = L "Inline Example"
                          /\ 10 < length (code e) < 200))
            (ReadmeParser.extractInlineExamples readmeContent)
  /\ Forall (fun e => In e (parserBlockExamples readmeContent)
                      \/ In e (ReadmeParser.extractInlineExamples readmeContent))
            (ReadmeParser.extractUsageExamples readmeContent).
Proof.
  split; [|split].
  - apply parserBlocks_invariant. intros c language ttl descr H. cbn [code].
    now apply parser_likely_length in H.
  - apply parserInline_invariant.
    + intros c Hc. left. now split.
    + intros c Hc _. right. now split.
  - rewrite parser_pipeline.
    eapply Permutation_Forall;
      [apply Permutation_sym; unfold ReadmeParser.sortExamplesByRelevance;
       apply sort_permutation|].
    destruct (parser_dedup_spec
                (parserBlockExamples readmeContent
                 ++ ReadmeParser.extractInlineExamples readmeContent))
      as (_ & H & _).
    eapply Forall_impl; [|exact H]. intros e He. now apply in_app_or in He.
Qed.

(** X14: the older cleaner only deletes characters: its result is the text
    with some characters left out, it has no three line feeds in a row, and
    it neither starts nor ends with whitespace. *)
Theorem X14_parser_clean_shape (content : str) :
  let cleaned := ReadmeParser.cleanReadmeContent content in
  subseq cleaned content
  /\ length cleaned <= length content
  /\ noRun3 cleaned
  /\ trim cleaned = cleaned.
Proof.
  intro cleaned. pose proof (parser_clean_subseq content) as Hs.
  split; [exact Hs|]. split; [now apply subseq_length|].
  apply parser_clean_shape.
Qed.

(** X15: the older parser returns no example for a text that holds neither
    a backtick nor the word [import]. *)
Theorem X15_parser_no_code_no_example (readmeContent : str) :
  noBacktick readmeContent = true ->
  includes readmeContent (L "import") = false ->
  ReadmeParser.extractUsageExamples readmeContent = [].
Proof. apply parser_noBacktick. Qed.

Lemma X15_parser_no_code_no_example_witness :
  ReadmeParser.extractUsageExamples proseSample = [].
Proof.
  apply (X15_parser_no_code_no_example proseSample); reflexivity.
Defined.

(** ** The logger *)

(** X16: whatever [LOG_LEVEL] is, error messages are written; a level that
    writes debug messages writes info messages, one that writes info
    messages writes warnings; a level that is not one of the four names
    writes every message; without [LOG_LEVEL] the level is [warn], which
    writes warnings and errors only. *)
Theorem X16_logger_levels (LOG_LEVEL : option str) :
  let logLevel := Logger.create LOG_LEVEL in
  Logger.error logLevel = true
  /\ (Logger.debug logLevel = true -> Logger.info logLevel = true)
  /\ (Logger.info logLevel = true -> Logger.warn logLevel = true)
  /\ (Logger.indexOf Logger.levels (toLowerCase logLevel) = (-1)%Z ->
      forall level, Logger.shouldLog logLevel level = true)
  /\ (LOG_LEVEL = None \/ LOG_LEVEL = Some [] ->
      Logger.debug logLevel = false /\ Logger.info logLevel = false
      /\ Logger.warn logLevel = true).
Proof.
  intro logLevel. split; [apply shouldLog_error|].
  split; [apply shouldLog_monotone|]. split; [apply shouldLog_monotone|].
  split.
  - intros H level. now apply shouldLog_unknown.
  - intros [->| ->]; repeat split.
Qed.

Lemma X16_logger_levels_witness :
  Logger.shouldLog (Logger.create (Some (L "verbose"))) (L "debug") = true
  /\ Logger.warn (Logger.create None) = true.
Proof.
  split.
  - apply (proj1 (proj2 (proj2 (proj2 (X16_logger_levels (Some (L "verbose"))))))).
    reflexivity.
  - apply (proj2 (proj2 (proj2 (proj2 (X16_logger_levels None))))). now left.
Defined.

(** ** The installation commands *)

(** X17: the pip and conda commands end with the name of the package as
    PyPI gives it; the pipx field is either the pipx command or a comment
    line; it is the command as soon as the lower-cased name holds one of
    [cli], [command], [tool], [utility], [script], whatever the classifiers
    are, and adding classifiers never turns the command into the
    comment. *)
Theorem X17_installation_commands (packageInfo : PyPI.PackageInfo) :
  let name := PyPI.name (PyPI.info packageInfo) in
  let built := InstallationInfoBuilder.build packageInfo in
  pip built = L "pip install " ++ name
  /\ conda built = L "conda install -c conda-forge " ++ name
  /\ (pipx built = L "pipx install " ++ name
      \/ pipx built = L "# pipx is for CLI applications only - use pip instead")
  /\ (forall keyword,
        In keyword [L "cli"; L "command"; L "tool"; L "utility"; L "script"] ->
        includes (toLowerCase name) keyword = true ->
        pipx built = L "pipx install " ++ name)
  /\ (forall l more,
        pipx (InstallationInfoBuilder.build (withClassifiers packageInfo l))
        = L "pipx install " ++ name ->
        pipx (InstallationInfoBuilder.build (withClassifiers packageInfo (l ++ more)))
        = L "pipx install " ++ name).
Proof.
  intros name built. split; [reflexivity|]. split; [reflexivity|].
  unfold built, InstallationInfoBuilder.build, InstallationInfoBuilder.buildPipxCommand.
  cbn [pipx]. fold name. split; [|split].
  - destruct (InstallationInfoBuilder.hasConsoleScripts packageInfo); auto.
  - intros keyword Hk Hi.
    now rewrite (@hasConsoleScripts_name packageInfo keyword Hk Hi).
  - intros l more.
    change (PyPI.name (PyPI.info (withClassifiers packageInfo l))) with name.
    change (PyPI.name (PyPI.info (withClassifiers packageInfo (l ++ more)))) with name.
    destruct (InstallationInfoBuilder.hasConsoleScripts (withClassifiers packageInfo l))
      eqn:E.
    + intros _. now rewrite (@hasConsoleScripts_more packageInfo l more E).
    + intro H. apply (f_equal (@hd ascii " "%char)) in H. discriminate H.
Qed.

Lemma X17_installation_commands_witness :
  pipx (InstallationInfoBuilder.build samplePackage) = L "pipx install demo-cli".
Proof.
  apply (proj1 (proj2 (proj2 (proj2 (X17_installation_commands samplePackage))))
           (L "cli")); [now left|reflexivity].
Defined.

(** ** Repository addresses *)

(** X18: for an owner and a repository name that are not empty and hold no
    slash, the name not ending in [.git], [extractRepoInfo] reads the owner
    and the name back from the address in each of its usual forms: with
    [https://], [http://], [git+https://] or no protocol, with or without
    the suffix [.git] or a final slash, and in the form
    [git@github.com:owner/name]. *)
Theorem X18_repo_info_of_address (owner repo : str) :
  isSegment owner = true -> isSegment repo = true ->
  endsWith repo (L ".git") = false ->
  Forall (fun url => GitHubApiClient.extractRepoInfo url
                     = Some (GitHubApiClient.mkRepoInfo owner repo))
         (repoUrls owner repo).
Proof. apply extractRepoInfo_urls. Qed.

Lemma X18_repo_info_of_address_witness :
  Forall (fun url => GitHubApiClient.extractRepoInfo url
                     = Some (GitHubApiClient.mkRepoInfo (L "my-org") (L "my.repo_name")))
         (repoUrls (L "my-org") (L "my.repo_name")).
Proof.
  apply (X18_repo_info_of_address (L "my-org") (L "my.repo_name")); reflexivity.
Defined.

(** X19: an address that does not hold [github.com] gives [null]. *)
Theorem X19_repo_info_other_host (repoUrl : str) :
  includes repoUrl (L "github.com") = false ->
  GitHubApiClient.extractRepoInfo repoUrl = None.
Proof. apply extractRepoInfo_foreign. Qed.

Lemma X19_repo_info_other_host_witness :
  GitHubApiClient.extractRepoInfo (L "https://gitlab.com/owner/repo") = None.
Proof.
  apply (X19_repo_info_other_host (L "https://gitlab.com/owner/repo")). reflexivity.
Defined.

(** ** The basic information *)

(** X20: in the basic information of a package the author is never empty
    ([Unknown] when PyPI names none), a maintainer and a Python requirement
    are absent rather than empty, and the keywords read from a string are
    not empty and hold neither a comma nor whitespace. *)
Theorem X20_basic_info (packageInfo : PyPI.PackageInfo) :
  let basic := PackageInfoBuilder.build packageInfo in
  Basic.author basic <> []
  /\ (forall m, Basic.maintainer basic = Some m -> m <> [])
  /\ (forall r, Basic.requires_python basic = Some r -> r <> [])
  /\ (forall s, PyPI.keywords (PyPI.info packageInfo) = PyPI.KeywordsString s ->
        Forall (fun k => k <> []
                         /\ forallb (fun c => negb (PackageInfoBuilder.isSeparator c)) k
                            = true)
               (Basic.keywords basic)).
Proof.
  intro basic. unfold basic, PackageInfoBuilder.build.
  cbn [Basic.author Basic.maintainer Basic.requires_python Basic.keywords].
  split; [apply extractAuthor_nonempty|].
  split; [intros m; apply extractMaintainer_nonempty|].
  split.
  - intros r. unfold PackageInfoBuilder.orUndefined.
    destruct (PyPI.requires_python (PyPI.info packageInfo)) as [[|c t]|]; simpl;
      intro H; try discriminate H. injection H as <-. discriminate.
  - intros s. apply extractKeywords_string.
Qed.

Lemma X20_basic_info_witness :
  Basic.keywords (PackageInfoBuilder.build samplePackage)
  = [L "demo"; L "sample"; L "tool"]
  /\ Forall (fun k => k <> []
                      /\ forallb (fun c => negb (PackageInfoBuilder.isSeparator c)) k
                         = true)
            (Basic.keywords (PackageInfoBuilder.build samplePackage)).
Proof.
  split; [reflexivity|].
  apply (proj2 (proj2 (proj2 (X20_basic_info samplePackage)))
           (L "demo, sample  tool")).
  reflexivity.
Defined.

(** ** The cache *)

(** X21: a value that [set] stored is what [get] returns, leaving the cache
    as it is, as long as the clock has not passed the time of storing by
    more than the lifetime of the entry (the [ttl] given, or the default
    when it is absent or 0); once it has, [get] returns [null] and removes
    the entry.  The size of the value plays no part: the value is stored
    even when it exceeds the limit. *)
Theorem X21_cache_round_trip (V : Type) (jsonLength : V -> nat)
        (stamp now now' : Z) (key : str) (value : V) (ttl : option Z)
        (c : MemoryCache.t V) :
  let stored := MemoryCache.set jsonLength stamp now key value ttl c in
  let lifetime := orNumber ttl (MemoryCache.defaultTtl c) in
  ((now' - stamp <= lifetime)%Z ->
   MemoryCache.get now' key stored = (Some value, stored))
  /\ ((lifetime < now' - stamp)%Z ->
      fst (MemoryCache.get now' key stored) = None
      /\ MemoryCache.mapGet key
           (MemoryCache.cache (snd (MemoryCache.get now' key stored))) = None).
Proof.
  intros stored lifetime. split.
  - apply get_set_live.
  - apply get_set_expired.
Qed.

Lemma X21_cache_round_trip_witness :
  MemoryCache.get 1500 (L "k")
    (MemoryCache.set (fun n : nat => n) 1000 1000 (L "k") 7 (Some 500%Z)
       (MemoryCache.create nat (MemoryCache.mkOptions None None)))
  = (Some 7,
     MemoryCache.set (fun n : nat => n) 1000 1000 (L "k") 7 (Some 500%Z)
       (MemoryCache.create nat (MemoryCache.mkOptions None None)))
  /\ fst (MemoryCache.get 1501 (L "k")
            (MemoryCache.set (fun n : nat => n) 1000 1000 (L "k") 7 (Some 500%Z)
               (MemoryCache.create nat (MemoryCache.mkOptions None None))))
     = None.
Proof.
  split.
  - apply (proj1 (X21_cache_round_trip (fun n : nat => n) 1000 1000 1500 (L "k") 7
                    (Some 500%Z)
                    (MemoryCache.create nat (MemoryCache.mkOptions None None)))).
    vm_compute. discriminate.
  - apply (proj2 (X21_cache_round_trip (fun n : nat => n) 1000 1000 1501 (L "k") 7
                    (Some 500%Z)
                    (MemoryCache.create nat (MemoryCache.mkOptions None None)))).
    vm_compute. reflexivity.
Defined.

(** X22: [set] changes neither limit of the cache.  After it the estimated
    size of the cache is within the limit, or the cache holds the new entry
    alone.  When the entries that are still alive and the new value
    together exceed the limit, every other entry is dropped; otherwise
    every other entry that is alive is kept. *)
Theorem X22_cache_size_limit (V : Type) (jsonLength : V -> nat)
        (stamp now : Z) (key : str) (value : V) (ttl : option Z)
        (c : MemoryCache.t V) :
  let stored := MemoryCache.set jsonLength stamp now key value ttl c in
  let needed := (MemoryCache.getCurrentSize jsonLength (MemoryCache.cleanup now c)
                 + MemoryCache.estimateSize jsonLength value)%Z in
  MemoryCache.maxSize stored = MemoryCache.maxSize c
  /\ MemoryCache.defaultTtl stored = MemoryCache.defaultTtl c
  /\ ((MemoryCache.getCurrentSize jsonLength stored <= MemoryCache.maxSize c)%Z
      \/ MemoryCache.cache stored = [(key, storedEntry stamp value ttl c)])
  /\ ((MemoryCache.maxSize c < needed)%Z ->
      MemoryCache.cache stored = [(key, storedEntry stamp value ttl c)])
  /\ ((needed <= MemoryCache.maxSize c)%Z ->
      forall key' e,
        key' <> key ->
        MemoryCache.mapGet key' (MemoryCache.cache c) = Some e ->
        MemoryCache.expired now e = false ->
        MemoryCache.mapGet key' (MemoryCache.cache stored) = Some e).
Proof.
  intros stored needed.
  split; [apply set_fields|]. split; [apply set_fields|].
  split; [apply set_size|]. split; [apply set_overflow|].
  intros Hfit key' e Hne Hget Hlive. now apply set_keeps.
Qed.

Lemma X22_cache_size_limit_witness :
  MemoryCache.cache (MemoryCache.set numberSize 5 5 (L "b") 4 None smallCache)
  = [(L "b", storedEntry 5 4 None smallCache)]
  /\ MemoryCache.mapGet (L "a")
       (MemoryCache.cache (MemoryCache.set numberSize 5 5 (L "b") 3 None smallCache))
     = Some (MemoryCache.mkEntry 2 0%Z 1000%Z).
Proof.
  split.
  - apply (proj1 (proj2 (proj2 (proj2
             (X22_cache_size_limit numberSize 5 5 (L "b") 4 None smallCache))))).
    vm_compute. reflexivity.
  - apply (proj2 (proj2 (proj2 (proj2
             (X22_cache_size_limit numberSize 5 5 (L "b") 3 None smallCache))))
             ltac:(vm_compute; discriminate) (L "a") (MemoryCache.mkEntry 2 0%Z 1000%Z)).
    + discriminate.
    + reflexivity.
    + reflexivity.
Defined.

(** X23: whatever the options of the constructor are, an entry stored
    without a [ttl] of its own is returned by [get] for at least one minute
    ([MIN_TTL] = 60000 ms): the default lifetime is never below [MIN_TTL],
    the size limit never below [MIN_SIZE], and no operation changes
    them. *)
Theorem X23_cache_default_lifetime (V : Type) (jsonLength : V -> nat)
        (options : MemoryCache.CacheOptions)
        (stamp now now' : Z) (key : str) (value : V) (c : MemoryCache.t V) :
  MemoryCache.defaultTtl c
  = MemoryCache.defaultTtl (MemoryCache.create V options) ->
  (now' - stamp <= CACHE_CONFIG.MIN_TTL)%Z ->
  MemoryCache.get now' key (MemoryCache.set jsonLength stamp now key value None c)
  = (Some value, MemoryCache.set jsonLength stamp now key value None c)
  /\ (CACHE_CONFIG.MIN_TTL <= MemoryCache.defaultTtl c)%Z
  /\ (CACHE_CONFIG.MIN_SIZE <= MemoryCache.maxSize (MemoryCache.create V options))%Z
  /\ MemoryCache.defaultTtl (MemoryCache.cleanup now c) = MemoryCache.defaultTtl c
  /\ MemoryCache.defaultTtl (MemoryCache.clear c) = MemoryCache.defaultTtl c
  /\ MemoryCache.defaultTtl (snd (MemoryCache.get now key c)) = MemoryCache.defaultTtl c
  /\ CACHE_CONFIG.MIN_TTL = 60000%Z.
Proof.
  intros Hc Hnow. destruct (create_bounds V options) as [Hsize Httl].
  rewrite <- Hc in Httl.
  split; [|split; [exact Httl|split; [exact Hsize|]]].
  - apply get_set_live. simpl. lia.
  - split; [reflexivity|]. split; [reflexivity|].
    split; [apply get_fields|reflexivity].
Qed.

Lemma X23_cache_default_lifetime_witness :
  MemoryCache.get 60000 (L "k")
    (MemoryCache.set numberSize 0 0 (L "k") 7 None
       (MemoryCache.create nat (MemoryCache.mkOptions (Some 1%Z) None)))
  = (Some 7,
     MemoryCache.set numberSize 0 0 (L "k") 7 None
       (MemoryCache.create nat (MemoryCache.mkOptions (Some 1%Z) None))).
Proof.
  apply (X23_cache_default_lifetime numberSize
           (MemoryCache.mkOptions (Some 1%Z) None) 0 0 60000 (L "k") 7
           (MemoryCache.create nat (MemoryCache.mkOptions (Some 1%Z) None))).
  - reflexivity.
  - vm_compute. discriminate.
Defined.

(** ** Package names and cache keys *)

(** X24: [validatePackageName] accepts a name exactly when the name without
    its surrounding whitespace is not empty, holds only letters, digits,
    dots, underscores and hyphens, and starts and ends with a letter or a
    digit; the whitespace around the name plays no part; every rejection
    carries the code [INVALID_PACKAGE_NAME]. *)
Theorem X24_package_name_validation (packageName : str) :
  (Validators.validatePackageName (Some packageName) = Returns tt
   <-> wellFormedName (trim packageName) = true)
  /\ Validators.validatePackageName (Some (trim packageName))
     = Validators.validatePackageName (Some packageName)
  /\ (forall input e,
        Validators.validatePackageName input = Throws e ->
        errorCode e = L "INVALID_PACKAGE_NAME").
Proof.
  split; [apply validatePackageName_iff|]. split; [apply validatePackageName_trim|].
  intros input e. unfold Validators.validatePackageName.
  destruct input as [s|]; [|intro H; now injection H as <-].
  destruct (_ || _); [intro H; now injection H as <-|].
  destruct (_ && _); [intro H; now injection H as <-|].
  destruct (_ && _); [intro H; now injection H as <-|discriminate].
Qed.

Lemma X24_package_name_validation_witness :
  Validators.validatePackageName (Some (L " my-pkg_2.0 ")) = Returns tt.
Proof.
  apply (proj1 (X24_package_name_validation (L " my-pkg_2.0 "))). reflexivity.
Defined.

(** X25: two requests that the tool accepts share a cache entry only when
    they name the same package and the same version: a name that passes
    the validation holds no colon, so the key [pkg_readme:name:version]
    determines both. *)
Theorem X25_accepted_requests_keys
        (getInfo : str -> completion PyPI.PackageInfo)
        (getVersion : str -> str -> completion PyPI.PackageInfo)
        (jsonLength : PackageReadmeResponse -> nat)
        (now1 stamp1 now1' now2 stamp2 now2' : Z)
        (params1 params2 : ToolParams)
        (cache1 cache2 : PackageReadmeService.Cache)
        (response1 response2 : PackageReadmeResponse) :
  fst (Tools.getPackageReadme getInfo getVersion jsonLength
         now1 stamp1 now1' params1 cache1) = Returns response1 ->
  fst (Tools.getPackageReadme getInfo getVersion jsonLength
         now2 stamp2 now2' params2 cache2) = Returns response2 ->
  requestKey (serviceParams params1) = requestKey (serviceParams params2) ->
  tool_package_name params1 = tool_package_name params2
  /\ requestedVersion (serviceParams params1) = requestedVersion (serviceParams params2).
Proof.
  assert (Hvalid : forall now stamp now' params cache response,
            fst (Tools.getPackageReadme getInfo getVersion jsonLength
                   now stamp now' params cache) = Returns response ->
            exists n, tool_package_name params = Some n /\ noColon n = true).
  { intros now stamp now' params cache response. unfold Tools.getPackageReadme.
    destruct (Validators.validatePackageName (tool_package_name params)) as [[]|e]
      eqn:E; [|discriminate].
    intros _. destruct (tool_package_name params) as [n|]; [|discriminate E].
    exists n. split; [reflexivity|]. now apply validated_noColon. }
  intros H1 H2 Hkey.
  apply Hvalid in H1 as (n1 & E1 & Hn1). apply Hvalid in H2 as (n2 & E2 & Hn2).
  unfold requestKey, serviceParams in Hkey. cbn [param_package_name] in Hkey.
  rewrite E1, E2 in Hkey.
  apply packageReadme_inj in Hkey as [Hn Hv]; [|assumption|assumption].
  rewrite E1, E2, Hn. split; [reflexivity|exact Hv].
Qed.

Lemma X25_accepted_requests_keys_witness :
  tool_package_name (mkToolParams (Some (L "demo-cli")) None None)
  = tool_package_name (mkToolParams (Some (L "demo-cli")) (Some (L "latest")) (Some false))
  /\ requestedVersion (serviceParams (mkToolParams (Some (L "demo-cli")) None None))
     = requestedVersion
         (serviceParams (mkToolParams (Some (L "demo-cli")) (Some (L "latest")) (Some false))).
Proof.
  apply (@X25_accepted_requests_keys sampleClient offlineVersions sampleSize
           0 0 0 0 0 0
           (mkToolParams (Some (L "demo-cli")) None None)
           (mkToolParams (Some (L "demo-cli")) (Some (L "latest")) (Some false))
           freshCache freshCache
           (fst (PackageReadmeService.getPackageReadme sampleClient offlineVersions
                   sampleSize 0 0 0 sampleParams freshCache))
           (fst (PackageReadmeService.getPackageReadme sampleClient offlineVersions
                   sampleSize 0 0 0
                   (mkParams (L "demo-cli") (Some (L "latest")) (Some false))
                   freshCache))).
  - vm_compute. reflexivity.
  - vm_compute. reflexivity.
  - vm_compute. reflexivity.
Defined.

(** ** The service *)

(** X26: the text that the service hands to the cleaner is never empty: it
    is the description, the summary, or the sentence that no README is
    available.  Unless the package declares a description in Markdown, a
    summary that is not empty is taken, whatever the description holds. *)
Theorem X26_readme_text (packageInfo : PyPI.PackageInfo) :
  let info := PyPI.info packageInfo in
  let text := PackageReadmeService.extractReadmeContent packageInfo in
  text <> []
  /\ (text = PyPI.description info \/ text = PyPI.summary info
      \/ text = L "No README available for this package.")
  /\ (declaresMarkdown info = false -> PyPI.summary info <> [] ->
      text = PyPI.summary info)
  /\ (declaresMarkdown info = true -> PyPI.description info <> [] ->
      text = PyPI.description info).
Proof.
  intros info text. split; [apply extractReadmeContent_nonempty|].
  unfold text, PackageReadmeService.extractReadmeContent, declaresMarkdown.
  fold info.
  destruct (PyPI.description info) as [|d ds];
    destruct (PyPI.summary info) as [|s ss];
    destruct (PyPI.description_content_type info) as [[|t ts]|];
    cbn [truthyStr ExampleProcessor.truthy andb orElse];
    try (destruct (includes (toLowerCase (t :: ts)) (L "markdown")
                   || includes (toLowerCase (t :: ts)) (L "md")));
    (split; [auto|]); (split; intros H1 H2);
    first [reflexivity | discriminate H1 | now elim H2].
Qed.

Lemma X26_readme_text_witness :
  PackageReadmeService.extractReadmeContent samplePackage = sampleReadme.
Proof.
  apply (proj2 (proj2 (proj2 (X26_readme_text samplePackage)))).
  - reflexivity.
  - discriminate.
Defined.

(** X27: when the cache has no live entry for a request and PyPI knows the
    package, the response says that the package exists; its README is the
    cleaned text of the package, without whitespace at either end and no
    longer than that text; it has at most 20 examples, taken from the
    cleaned README, and none when [include_examples] is false or the text
    of the package holds no backtick. *)
Theorem X27_service_found
        (getInfo : str -> completion PyPI.PackageInfo)
        (getVersion : str -> str -> completion PyPI.PackageInfo)
        (jsonLength : PackageReadmeResponse -> nat)
        (now stamp now' : Z) (params : GetPackageReadmeParams)
        (cache c1 : PackageReadmeService.Cache) (packageInfo : PyPI.PackageInfo) :
  MemoryCache.get now (requestKey params) cache = (None, c1) ->
  PackageReadmeService.getPackageInfo getInfo getVersion
    (param_package_name params) (requestedVersion params) = Some packageInfo ->
  let response :=
    fst (PackageReadmeService.getPackageReadme getInfo getVersion jsonLength
           now stamp now' params cache) in
  let text := PackageReadmeService.extractReadmeContent packageInfo in
  exists_ response = true
  /\ package_name response = param_package_name params
  /\ version response = PyPI.version (PyPI.info packageInfo)
  /\ readme_content response = ReadmeService.cleanReadmeContent text
  /\ trim (readme_content response) = readme_content response
  /\ length (readme_content response) <= length text
  /\ length (usage_examples response) <= README_CONFIG.MAX_EXAMPLES
  /\ (usage_examples response = []
      \/ usage_examples response
         = ReadmeService.extractUsageExamples (readme_content response))
  /\ (param_include_examples params = Some false -> usage_examples response = [])
  /\ (noBacktick text = true -> usage_examples response = []).
Proof.
  intros Hmiss Hinfo response text.
  destruct (@service_found getInfo getVersion jsonLength now stamp now' params
              cache c1 packageInfo Hmiss Hinfo)
    as (r & Er & Hex & Hname & Hversion & Hreadme & Hexamples & _).
  unfold response. rewrite Er. cbn [fst]. fold text in Hreadme.
  split; [exact Hex|]. split; [exact Hname|]. split; [exact Hversion|].
  split; [exact Hreadme|].
  split.
  { rewrite Hreadme. unfold ReadmeService.cleanReadmeContent.
    destruct text as [|c s]; [reflexivity|].
    unfold ReadmeContentCleaner.cleanReadmeContent,
      ReadmeContentCleaner.cleanReadmeContentOf, ReadmeContentCleaner.cleanSteps.
    simpl guarded. apply trim_idem. }
  split; [rewrite Hreadme; apply clean_length|].
  split.
  { rewrite Hexamples. destruct (_ && _); [apply service_length|simpl; lia]. }
  split.
  { rewrite Hexamples. destruct (_ && _); [right; reflexivity|left; reflexivity]. }
  split.
  { intro Hparam. rewrite Hexamples, Hparam. reflexivity. }
  intro Htext. rewrite Hexamples. destruct (_ && _); [|reflexivity].
  unfold ReadmeService.extractUsageExamples.
  rewrite (@noBacktick_extractor (readme_content r)); [reflexivity|].
  rewrite Hreadme. now apply clean_noBacktick.
Qed.

Lemma X27_service_found_witness :
  exists_ (fst (PackageReadmeService.getPackageReadme sampleClient offlineVersions
                  sampleSize 0 0 0 sampleParams freshCache)) = true.
Proof.
  apply (@X27_service_found sampleClient offlineVersions sampleSize 0 0 0
           sampleParams freshCache freshCache samplePackage).
  - reflexivity.
  - reflexivity.
Defined.

(** X28: a response that was built and stored is served again as it is
    while its entry lives (the default lifetime of the cache, counted from
    the reading of the clock at the store): for the same package and the
    same requested version, a missing version counting as [latest], the
    second call returns the first response and leaves the cache as it was,
    whatever the PyPI client would answer and whatever [include_examples]
    says. *)
Theorem X28_service_cache_hit
        (getInfo getInfo2 : str -> completion PyPI.PackageInfo)
        (getVersion getVersion2 : str -> str -> completion PyPI.PackageInfo)
        (jsonLength : PackageReadmeResponse -> nat)
        (now stamp now' now2 stamp2 now2' : Z)
        (params params2 : GetPackageReadmeParams)
        (cache c1 : PackageReadmeService.Cache) (packageInfo : PyPI.PackageInfo) :
  MemoryCache.get now (requestKey params) cache = (None, c1) ->
  PackageReadmeService.getPackageInfo getInfo getVersion
    (param_package_name params) (requestedVersion params) = Some packageInfo ->
  param_package_name params2 = param_package_name params ->
  requestedVersion params2 = requestedVersion params ->
  (now2 - stamp <= MemoryCache.defaultTtl cache)%Z ->
  let first :=
    PackageReadmeService.getPackageReadme getInfo getVersion jsonLength
      now stamp now' params cache in
  PackageReadmeService.getPackageReadme getInfo2 getVersion2 jsonLength
    now2 stamp2 now2' params2 (snd first)
  = first.
Proof.
  intros Hmiss Hinfo Hname Hversion Hlive first.
  destruct (@service_found getInfo getVersion jsonLength now stamp now' params
              cache c1 packageInfo Hmiss Hinfo) as (r & Er & _).
  unfold first. rewrite Er. cbn [snd].
  assert (Hkey : requestKey params2 = requestKey params).
  { unfold requestKey. now rewrite Hname, Hversion. }
  apply service_hit. rewrite Hkey. apply get_set_live.
  cbn [orNumber].
  destruct (get_fields now (requestKey params) cache) as [_ Httl].
  rewrite Hmiss in Httl. cbn [snd] in Httl. rewrite Httl. exact Hlive.
Qed.

Lemma X28_service_cache_hit_witness :
  PackageReadmeService.getPackageReadme offlineClient offlineVersions sampleSize
    1000 1000 1000 (mkParams (L "demo-cli") (Some (L "latest")) (Some false))
    (snd (PackageReadmeService.getPackageReadme sampleClient offlineVersions
            sampleSize 0 0 0 sampleParams freshCache))
  = PackageReadmeService.getPackageReadme sampleClient offlineVersions
      sampleSize 0 0 0 sampleParams freshCache.
Proof.
  apply (@X28_service_cache_hit sampleClient offlineClient offlineVersions
           offlineVersions sampleSize 0 0 0 1000 1000 1000 sampleParams
           (mkParams (L "demo-cli") (Some (L "latest")) (Some false))
           freshCache freshCache samplePackage).
  - reflexivity.
  - reflexivity.
  - reflexivity.
  - reflexivity.
  - vm_compute. discriminate.
Defined.

(** X29: when the cache has no live entry and the PyPI client rejects, the
    service answers with the response "Package not found": the package does
    not exist, the README and the examples are empty, the commands are the
    three fixed ones for the name.  That response is not stored: the cache
    still has no entry for the request, so the next call asks PyPI again. *)
Theorem X29_service_not_found
        (getInfo : str -> completion PyPI.PackageInfo)
        (getVersion : str -> str -> completion PyPI.PackageInfo)
        (jsonLength : PackageReadmeResponse -> nat)
        (now stamp now' : Z) (params : GetPackageReadmeParams)
        (cache c1 : PackageReadmeService.Cache) :
  MemoryCache.get now (requestKey params) cache = (None, c1) ->
  PackageReadmeService.getPackageInfo getInfo getVersion
    (param_package_name params) (requestedVersion params) = None ->
  let result :=
    PackageReadmeService.getPackageReadme getInfo getVersion jsonLength
      now stamp now' params cache in
  exists_ (fst result) = false
  /\ package_name (fst result) = param_package_name params
  /\ version (fst result) <> []
  /\ response_description (fst result) = L "Package not found"
  /\ readme_content (fst result) = []
  /\ usage_examples (fst result) = []
  /\ installation (fst result)
     = mkInstallation (L "pip install " ++ param_package_name params)
                      (L "conda install " ++ param_package_name params)
                      (L "pipx install " ++ param_package_name params)
  /\ snd result = c1
  /\ MemoryCache.mapGet (requestKey params) (MemoryCache.cache (snd result)) = None
  /\ (forall now2 stamp2 now2',
        fst (PackageReadmeService.getPackageReadme getInfo getVersion jsonLength
               now2 stamp2 now2' params (snd result))
        = fst result).
Proof.
  intros Hmiss Hinfo result.
  pose proof (@service_missing getInfo getVersion jsonLength now stamp now' params
                cache c1 Hmiss Hinfo) as E.
  pose proof (@get_miss _ now (requestKey params) cache c1 Hmiss) as Hnone.
  unfold result. rewrite E. cbn [fst snd].
  unfold PackageReadmeService.createNotFoundResponse.
  cbn [exists_ package_name version response_description readme_content
       usage_examples installation].
  repeat split; try assumption.
  - apply orElse_nonempty. discriminate.
  - intros now2 stamp2 now2'.
    rewrite (@service_missing getInfo getVersion jsonLength now2 stamp2 now2'
               params c1 c1); [reflexivity| |exact Hinfo].
    unfold MemoryCache.get. now rewrite Hnone.
Qed.

Lemma X29_service_not_found_witness :
  exists_ (fst (PackageReadmeService.getPackageReadme offlineClient offlineVersions
                  sampleSize 0 0 0 sampleParams freshCache)) = false.
Proof.
  apply (@X29_service_not_found offlineClient offlineVersions sampleSize 0 0 0
           sampleParams freshCache freshCache).
  - reflexivity.
  - reflexivity.
Defined.
